(** * DatasetBlender (lassl/blender.py): a shallow embedding and its properties

    The Python class [DatasetBlender] blends several source datasets into
    one virtual dataset.  Construction normalises a weight vector and runs
    a greedy loop that fills two index arrays; [__getitem__] dereferences
    them.

    Modelling choices.
    - Python exceptions are values of [exn]; fallible code lives in the
      error monad [result].  The two [assert] statements of the source are
      told apart by their site.
    - Floating-point arithmetic is abstracted by the class [Num], with two
      instances: [float_Num], IEEE binary64 through the primitive floats
      (what numpy and Python compute), and [Q_Num], exact rationals (the
      arithmetic the specification reasons in).
    - Python ints that are never negative (loop counters, array positions,
      allocation counters, lengths) are [nat]; the index handed to
      [__getitem__] is a [Z], because Python gives negative indices a
      meaning.  The int32/int64 element types of the two numpy arrays are
      not modelled: the values stored are below the number of datasets and
      below the virtual size.
    - [np.sum] is modelled as a left-to-right sum starting from zero (numpy
      reorders the additions of long arrays; in exact arithmetic the order
      is immaterial).
    - [length / self.size] divides two Python ints; it is modelled as the
      binary64 quotient of the two converted ints, which is the same
      number for ints below 2^53.
    - A source dataset is a record of its length and its indexed access.
    - [get_datasets_utils] (module [cpp_binder]) is not among the sources:
      what it returns is a parameter of [__init__].  Properties of the
      arrays of a constructed view assume that a native builder, when
      there is one, returns what [_build_blending_indices] returns.
    - [self.dataset_index] and [self.dataset_sample_index] are the fields
      [blend_dataset_index] and [blend_sample_index]; the plain names are
      those of the two arrays inside the builder. *)

From Stdlib Require Import ZArith List Bool Lia Floats QArith Qpower Qround Qabs
  Lqa Morphisms.
Import ListNotations.

Set Implicit Arguments.

Close Scope Q_scope.
Open Scope nat_scope.

(** ** Exceptions and the error monad *)

Inductive assert_site : Type :=
| WeightCount   (* assert num_datasets == len(weights) *)
| WeightSum.    (* assert sum_weights > 0.0 *)

Inductive exn : Type :=
| AssertionError (site : assert_site)
| ZeroDivisionError
| IndexError.

(** The specification's names for the two assertion failures. *)
Definition ConfigurationError : exn := AssertionError WeightCount.
Definition InvalidWeightError : exn := AssertionError WeightSum.

Inductive result (A : Type) : Type :=
| Ok (a : A)
| Raise (e : exn).

Arguments Ok {A} a.
Arguments Raise {A} e.

Definition bind {A B : Type} (m : result A) (f : A -> result B) : result B :=
  match m with
  | Ok a => f a
  | Raise e => Raise e
  end.

Notation "x <- m ;; k" := (bind m (fun x => k))
  (at level 61, m at next level, right associativity).

Fixpoint mapM {A B : Type} (f : A -> result B) (l : list A) : result (list B) :=
  match l with
  | [] => Ok []
  | a :: l' => b <- f a ;; bs <- mapM f l' ;; Ok (b :: bs)
  end.

(** ** Indexed reads and writes *)

(** [l[i]] for a position that is never negative. *)
Definition lookup {A : Type} (l : list A) (i : nat) : result A :=
  match nth_error l i with
  | Some a => Ok a
  | None => Raise IndexError
  end.

Fixpoint update {A : Type} (l : list A) (i : nat) (v : A) : list A :=
  match l, i with
  | [], _ => []
  | _ :: l', O => v :: l'
  | a :: l', S i' => a :: update l' i' v
  end.

(** [l[i] = v]: Python and numpy raise out of range. *)
Definition store {A : Type} (l : list A) (i : nat) (v : A) : result (list A) :=
  if i <? length l then Ok (update l i v) else Raise IndexError.

(** [a[idx]] for an arbitrary Python int: a negative index counts from the
    end, anything outside [-len, len) raises. *)
Definition getitem {A : Type} (l : list A) (idx : Z) : result A :=
  let n := Z.of_nat (length l) in
  if (0 <=? idx)%Z then lookup l (Z.to_nat idx)
  else if (- n <=? idx)%Z then lookup l (Z.to_nat (n + idx))
  else Raise IndexError.

(** ** Arithmetic *)

Class Num (R : Type) : Type := {
  of_int : Z -> R;
  fadd : R -> R -> R;
  fsub : R -> R -> R;
  fmul : R -> R -> R;
  fdiv : R -> R -> R;
  fgt : R -> R -> bool
}.

(** IEEE 754 binary64, round to nearest even. *)
#[export] Instance float_Num : Num float := {
  of_int := fun z => SF2Prim (binary_normalize prec emax z 0 false);
  fadd := PrimFloat.add;
  fsub := PrimFloat.sub;
  fmul := PrimFloat.mul;
  fdiv := PrimFloat.div;
  fgt := fun a b => PrimFloat.ltb b a
}.

(** Exact rational arithmetic. *)
#[export] Instance Q_Num : Num Q := {
  of_int := inject_Z;
  fadd := Qplus;
  fsub := Qminus;
  fmul := Qmult;
  fdiv := Qdiv;
  fgt := fun a b => negb (Qle_bool a b)
}.

(** Order laws of [fgt].  [valid] singles out the values that compare
    with every other one (for binary64: everything but NaN). *)
Class NumOrder (R : Type) {N : Num R} (valid : R -> Prop) : Prop := {
  fgt_irrefl : forall a, fgt a a = false;
  fgt_trans : forall a b c, fgt a b = true -> fgt b c = true -> fgt a c = true;
  fgt_cotrans : forall a b c,
      valid c -> fgt a b = true -> fgt c b = false -> fgt a c = true
}.

(** ** The blender *)

Section Blender.

Context {R : Type} {NR : Num R}.

(** The constant [PW_BLOCKSIZE] of numpy's summation loops. *)
Definition PW_BLOCKSIZE : nat := 128.

(** [r[j] += a[i + j]] for the eight accumulators of the unrolled loop. *)
Fixpoint add_lanes (r a : list R) : list R :=
  match r, a with
  | x :: r', y :: a' => fadd x y :: add_lanes r' a'
  | _, _ => r
  end.

(** The unrolled loop [for (i = 8; i < n - (n % 8); i += 8)]: [blocks]
    rounds, each adding the next eight numbers to the accumulators.  The
    result is the accumulators and the numbers not yet added. *)
Fixpoint unrolled (blocks : nat) (r a : list R) : list R * list R :=
  match blocks with
  | 0 => (r, a)
  | S blocks' => unrolled blocks' (add_lanes r (firstn 8 a)) (skipn 8 a)
  end.

(** [((r[0] + r[1]) + (r[2] + r[3])) + ((r[4] + r[5]) + (r[6] + r[7]))] *)
Definition lanes_total (r : list R) : R :=
  match r with
  | [r0; r1; r2; r3; r4; r5; r6; r7] =>
      fadd (fadd (fadd r0 r1) (fadd r2 r3)) (fadd (fadd r4 r5) (fadd r6 r7))
  | _ => of_int 0
  end.

(** numpy's [DOUBLE_pairwise_sum], the summation order of [np.sum] on a
    contiguous float64 array: fewer than 8 numbers are added from left to
    right, starting from zero; up to [PW_BLOCKSIZE] numbers go through the
    unrolled loop, the eight accumulators are added as a tree and the
    numbers left over beyond a multiple of 8 are added one by one; a
    longer array is cut in two, the first part of a length that is a
    multiple of 8, and the sums of the two parts are added.  [fuel] bounds
    the depth of the recursion; the length of the array is enough
    ([pairwise_sum_fuel]). *)
Fixpoint pairwise_sum (fuel : nat) (a : list R) : R :=
  let n := length a in
  if n <? 8 then fold_left fadd a (of_int 0)
  else if n <=? PW_BLOCKSIZE then
    let (r, rest) := unrolled (n / 8 - 1) (firstn 8 a) (skipn 8 a) in
    fold_left fadd rest (lanes_total r)
  else
    match fuel with
    | 0 => of_int 0
    | S fuel' =>
        let n2 := n / 2 - (n / 2) mod 8 in
        fadd (pairwise_sum fuel' (firstn n2 a))
             (pairwise_sum fuel' (skipn n2 a))
    end.

(** [np.sum] of a float64 array: the reduction starts from the identity
    of the addition and adds the pairwise sum of the array to it; an
    empty array is not visited.  (The sign of a zero sum is the one thing
    that depends on the zero numpy starts from; [_normalize_weight] cannot
    tell: it tests [sum > 0] and divides by a sum that passed the test.) *)
Definition np_sum (weights : list R) : R :=
  match weights with
  | [] => of_int 0
  | _ :: _ => fadd (of_int 0) (pairwise_sum (length weights) weights)
  end.

(** [DatasetBlender._normalize_weight] *)
Definition _normalize_weight (weights : list R) : result (list R) :=
  let sum_weights := np_sum weights in
  if fgt sum_weights (of_int 0)
  then Ok (map (fun w => fdiv w sum_weights) weights)
  else Raise (AssertionError WeightSum).

(** [weights[dataset_idx] * sample_idx_double - current_samples[dataset_idx]] *)
Definition error_at (weights : list R) (sample_idx_double : R)
    (current_samples : list nat) (dataset_idx : nat) : result R :=
  w <- lookup weights dataset_idx ;;
  c <- lookup current_samples dataset_idx ;;
  Ok (fsub (fmul w sample_idx_double) (of_int (Z.of_nat c))).

(** The inner loop [for dataset_idx in range(num_datasets)], carrying
    [max_error] and [max_error_index]. *)
Fixpoint scan (weights : list R) (sample_idx_double : R)
    (current_samples : list nat) (range : list nat)
    (max_error : R) (max_error_index : nat) : result (R * nat) :=
  match range with
  | [] => Ok (max_error, max_error_index)
  | dataset_idx :: range' =>
      error <- error_at weights sample_idx_double current_samples dataset_idx ;;
      if fgt error max_error
      then scan weights sample_idx_double current_samples range' error dataset_idx
      else scan weights sample_idx_double current_samples range' max_error max_error_index
  end.

(** [max(sample_idx, 1.0)]: Python's [max] keeps its first argument unless
    the second is greater. *)
Definition sample_idx_double (sample_idx : nat) : R :=
  if sample_idx <? 1 then of_int 1 else of_int (Z.of_nat sample_idx).

(** The choice of [max_error_index] for one virtual position. *)
Definition pick (weights : list R) (num_datasets : nat)
    (current_samples : list nat) (sample_idx : nat) : result nat :=
  let scale := sample_idx_double sample_idx in
  max_error <- error_at weights scale current_samples 0 ;;
  r <- scan weights scale current_samples (seq 0 num_datasets) max_error 0 ;;
  Ok (snd r).

(** The two arrays being filled and the per-source counters. *)
Record state : Type := mkState {
  dataset_index : list nat;
  dataset_sample_index : list nat;
  current_samples : list nat
}.

(** One iteration of the outer loop. *)
Definition step (weights : list R) (num_datasets : nat)
    (st : state) (sample_idx : nat) : result state :=
  max_error_index <- pick weights num_datasets (current_samples st) sample_idx ;;
  di <- store (dataset_index st) sample_idx max_error_index ;;
  c <- lookup (current_samples st) max_error_index ;;
  si <- store (dataset_sample_index st) sample_idx c ;;
  cur <- store (current_samples st) max_error_index (c + 1) ;;
  Ok (mkState di si cur).

(** The outer loop over a range of virtual positions. *)
Fixpoint loop (weights : list R) (num_datasets : nat)
    (range : list nat) (st : state) : result state :=
  match range with
  | [] => Ok st
  | sample_idx :: range' =>
      st' <- step weights num_datasets st sample_idx ;;
      loop weights num_datasets range' st'
  end.

(** [DatasetBlender._build_blending_indices]: the two arrays are passed in
    and filled in place; the counters start at zero. *)
Definition _build_blending_indices (dataset_index dataset_sample_index : list nat)
    (weights : list R) (num_datasets size : nat) : result state :=
  loop weights num_datasets (seq 0 size)
       (mkState dataset_index dataset_sample_index (repeat 0 num_datasets)).

(** A source dataset: [__len__] and [__getitem__]. *)
Record Dataset (A : Type) : Type := mkDataset {
  len : nat;
  item : Z -> result A
}.

(** A Python list as a dataset. *)
Definition list_dataset {A : Type} (l : list A) : Dataset A :=
  mkDataset (length l) (getitem l).

(** The attributes of a [DatasetBlender] object. *)
Record DatasetBlender (A : Type) : Type := mkBlender {
  datasets : list (Dataset A);
  size : nat;
  blend_dataset_index : list nat;
  blend_sample_index : list nat
}.

(** [length / self.size] on Python ints. *)
Definition truediv (length size : nat) : result R :=
  if size =? 0 then Raise ZeroDivisionError
  else Ok (fdiv (of_int (Z.of_nat length)) (of_int (Z.of_nat size))).

(** Modelled from the spec: the native [build_blending_indices] of the
    library that [get_datasets_utils] (module [cpp_binder], which is not
    among the sources) may return.  It is handed the two arrays, the
    weights, the number of datasets and the size, and leaves the two
    arrays filled; the specification takes it to be an interchangeable
    implementation of the contract of [_build_blending_indices]. *)
Definition native_builder : Type :=
  list nat -> list nat -> list R -> nat -> nat -> result (list nat * list nat).

(** The builder [__init__] selects: the Python one when
    [get_datasets_utils()] is [None], the native one otherwise. *)
Definition build_blending_indices (cpp_utils : option native_builder)
    : native_builder :=
  match cpp_utils with
  | None =>
      fun di si weights num_datasets size =>
        st <- _build_blending_indices di si weights num_datasets size ;;
        Ok (dataset_index st, dataset_sample_index st)
  | Some native => native
  end.

(** [DatasetBlender.__init__]; [cpp_utils] is what [get_datasets_utils()]
    returns. *)
Definition __init__ {A : Type} (cpp_utils : option native_builder)
    (datasets : list (Dataset A)) (weights : option (list R))
    : result (DatasetBlender A) :=
  let num_datasets := length datasets in
  let lengths := map (@len A) datasets in
  let size := list_sum lengths in
  weights <- match weights with
             | None => mapM (fun length => truediv length size) lengths
             | Some weights => Ok weights
             end ;;
  if negb (num_datasets =? length weights) then Raise (AssertionError WeightCount)
  else
    weights <- _normalize_weight weights ;;
    arrays <- build_blending_indices cpp_utils (repeat 0 size) (repeat 0 size)
                weights num_datasets size ;;
    Ok (mkBlender datasets size (fst arrays) (snd arrays)).

(** [DatasetBlender.__len__] *)
Definition __len__ {A : Type} (self : DatasetBlender A) : nat := size self.

(** [DatasetBlender.__getitem__] *)
Definition __getitem__ {A : Type} (self : DatasetBlender A) (idx : Z) : result A :=
  dataset_idx <- getitem (blend_dataset_index self) idx ;;
  d <- lookup (datasets self) dataset_idx ;;
  let dataset_len := Nat.max (len d) 1 in
  sample_idx <- getitem (blend_sample_index self) idx ;;
  item d (Z.of_nat (sample_idx mod dataset_len)).

End Blender.

(** ** The vocabulary of the properties *)

(** Two runs end alike: both return, with related values, or both raise
    the same exception. *)
Definition both {X : Type} (rel : X -> X -> Prop) (r1 r2 : result X) : Prop :=
  match r1, r2 with
  | Ok a, Ok b => rel a b
  | Raise e1, Raise e2 => e1 = e2
  | _, _ => False
  end.

(** The number of picks of source [k] among the first [P] positions. *)
Definition allocated (di : list nat) (P k : nat) : nat :=
  count_occ Nat.eq_dec (firstn P di) k.

(** The invariant of the outer loop once the first [P] of [S] positions
    are filled: the arrays keep their lengths, the counter of every
    source is the number of positions it was given, and every position
    written holds a source and the number of earlier positions given to
    that source. *)
Record inv (N S P : nat) (st : state) : Prop := mkInv {
  inv_di : length (dataset_index st) = S;
  inv_si : length (dataset_sample_index st) = S;
  inv_cur_len : length (current_samples st) = N;
  inv_cur : forall k, k < N ->
      nth_error (current_samples st) k = Some (allocated (dataset_index st) P k);
  inv_slot : forall i, i < P ->
      exists k, nth_error (dataset_index st) i = Some k /\ k < N /\
        nth_error (dataset_sample_index st) i
        = Some (allocated (dataset_index st) i k)
}.

(** Two states of the builder that differ at most in array cells that
    have not been written yet. *)
Definition agree (P : nat) (st1 st2 : state) : Prop :=
  current_samples st1 = current_samples st2 /\
  length (dataset_index st1) = length (dataset_index st2) /\
  length (dataset_sample_index st1) = length (dataset_sample_index st2) /\
  firstn P (dataset_index st1) = firstn P (dataset_index st2) /\
  firstn P (dataset_sample_index st1) = firstn P (dataset_sample_index st2).

Section Vocabulary.

Context {R : Type} {NR : Num R}.

(** The invariant of the scan: nothing seen so far is greater than the
    running maximum, and the running maximum is greater than every value
    seen at a lower index than its own. *)
Definition dominates (valid : R -> Prop) (weights : list R) (scale : R)
    (cur : list nat) (bound : nat) (e : R) (k : nat) : Prop :=
  forall j ej, j < bound -> error_at weights scale cur j = Ok ej ->
    fgt ej e = false /\ (j < k -> valid ej -> fgt e ej = true).

(** [k] is the index [pick] must return: it is a source, no source has a
    greater error, and its error is greater than that of every source of
    lower index (whose error is comparable). *)
Definition lowest_argmax (valid : R -> Prop) (weights : list R) (N : nat)
    (cur : list nat) (sample_idx : nat) (k : nat) : Prop :=
  k < N /\
  exists e, error_at weights (sample_idx_double sample_idx) cur k = Ok e /\
    forall j, j < N ->
      exists ej, error_at weights (sample_idx_double sample_idx) cur j = Ok ej /\
        fgt ej e = false /\ (j < k -> valid ej -> fgt e ej = true).

(** The error of a source at virtual position [i] in the words of the
    specification, [weight * max(i, 1) - allocated], the count being the
    number of earlier positions given to the source. *)
Definition spec_error (weight : R) (i allocated_k : nat) : R :=
  fsub (fmul weight (of_int (Z.of_nat (Nat.max i 1))))
       (of_int (Z.of_nat allocated_k)).

(** The native builder, when there is one, returns what the Python
    builder returns. *)
Definition conforms (cpp_utils : option native_builder) : Prop :=
  forall di si weights n size,
    build_blending_indices cpp_utils di si weights n size
    = build_blending_indices None di si weights n size.

(** The state reached once the first [P] positions are filled. *)
Definition prefix_state (weights : list R) (N : nat) (di0 si0 : list nat)
    (P : nat) : result state :=
  _build_blending_indices di0 si0 weights N P.

End Vocabulary.

(** The error of a valid weight is valid at every position and count
    below [bound] (for binary64: below 2^53, where the conversion of the
    position and of the count is exact). *)
Class ErrorsValid (R : Type) {N : Num R} (valid : R -> Prop) (bound : Z)
    : Prop :=
  errors_valid : forall (w : R) (i c : nat),
      (Z.of_nat i < bound)%Z -> (Z.of_nat c < bound)%Z -> valid w ->
      valid (spec_error w i c).

(** Two states of the builder with the same counters and the same first
    [P] cells in each array. *)
Definition agree_upto (P : nat) (st1 st2 : state) : Prop :=
  current_samples st1 = current_samples st2 /\
  firstn P (dataset_index st1) = firstn P (dataset_index st2) /\
  firstn P (dataset_sample_index st1) = firstn P (dataset_sample_index st2).

(** The source and the local index [__getitem__] resolves [idx] to. *)
Definition resolve {A : Type} (self : DatasetBlender A) (idx : Z)
    : result (nat * nat) :=
  dataset_idx <- getitem (blend_dataset_index self) idx ;;
  d <- lookup (datasets self) dataset_idx ;;
  let dataset_len := Nat.max (len d) 1 in
  sample_idx <- getitem (blend_sample_index self) idx ;;
  Ok (dataset_idx, sample_idx mod dataset_len).

(** The local indices [__getitem__] hands to source [k], whose length is
    [L], in the order of the virtual positions given to [k]. *)
Definition local_indices {A : Type} (b : DatasetBlender A) (k L : nat)
    : list nat :=
  map (fun p => snd p mod Nat.max L 1)
      (filter (fun p => fst p =? k)
              (combine (blend_dataset_index b) (blend_sample_index b))).

(** Binary64 values other than NaN are ordered like the triples
    [(class, signed exponent, signed mantissa)] compared from the left. *)
Definition sf_key (x : spec_float) : Z * Z * Z :=
  match x with
  | S754_nan => (0, 0, 0)
  | S754_zero _ => (0, 0, 0)
  | S754_infinity s => (if s then -2 else 2, 0, 0)
  | S754_finite s m e =>
      if s then (-1, - e, Z.neg m) else (1, e, Z.pos m)
  end%Z.

Definition key_lt (k1 k2 : Z * Z * Z) : Prop :=
  let '(a1, b1, c1) := k1 in
  let '(a2, b2, c2) := k2 in
  (a1 < a2 \/ (a1 = a2 /\ (b1 < b2 \/ (b1 = b2 /\ c1 < c2))))%Z.

Definition sf_not_nan (x : spec_float) : Prop :=
  match x with S754_nan => False | _ => True end.

(** The binary64 values that compare with every other one. *)
Definition float_valid (x : float) : Prop := sf_not_nan (Prim2SF x).

(** Exact arithmetic: naturals as rationals, sums, and rounding to the
    nearest integer, halves to the even neighbour. *)
Definition Qnat (n : nat) : Q := inject_Z (Z.of_nat n).

Definition Qsum (l : list Q) : Q := fold_right Qplus 0%Q l.




(** ** The vocabulary of binary64 rounding *)

Unset Implicit Arguments.
Open Scope Z_scope.
Open Scope Q_scope.

(** Where a number lies between two consecutive integers. *)
Definition inbetween (x : Q) (m : Z) (l : location) : Prop :=
  match l with
  | loc_Exact => x == inject_Z m
  | loc_Inexact Lt => inject_Z m < x /\ x < inject_Z m + (1 # 2)
  | loc_Inexact Eq => x == inject_Z m + (1 # 2)
  | loc_Inexact Gt => inject_Z m + (1 # 2) < x /\ x < inject_Z m + 1
  end.

(** The outcome of a rounding whose last step leaves the mantissa [m] at
    the exponent [e]. *)
Definition SF_of (s : bool) (m e : Z) : spec_float :=
  match m with
  | Z0 => S754_zero s
  | Zpos p => if (e <=? emax - prec)%Z then S754_finite s p e else S754_infinity s
  | Zneg _ => S754_nan
  end.

(** The rational a finite binary64 value stands for (0 for the others). *)
Definition SF2Q (x : spec_float) : Q :=
  match x with
  | S754_finite s m e =>
      (if s then - inject_Z (Z.pos m) else inject_Z (Z.pos m)) * 2 ^ e
  | _ => 0
  end.

Definition sf_finite (x : spec_float) : Prop :=
  match x with
  | S754_zero _ | S754_finite _ _ _ => True
  | _ => False
  end.

(** [r] is what rounding the number [x >= 0] gives, up to the sign [s]. *)
Definition rounded (s : bool) (r : spec_float) (x : Q) : Prop :=
  exists m e,
    r = SF_of s m e /\ (0 <= m < 2 ^ 53)%Z /\ (-1074 <= e)%Z /\
    ((2 ^ 52 <= m)%Z \/ e = (-1074)%Z) /\
    Qabs (inject_Z m * 2 ^ e - x) <= 2 ^ (e - 1) /\
    ((971 < e)%Z -> 2 ^ 1023 <= x).

(** The unit roundoff and half the least positive binary64 number. *)
Definition u64 : Q := 2 ^ (-53).
Definition eta64 : Q := 2 ^ (-1075).

(** [V] is within the rounding error of [x]. *)
Definition near (V x : Q) : Prop := Qabs (V - x) <= u64 * V + eta64.

(** Zero or a positive finite number. *)
Definition sf_nonneg (x : spec_float) : Prop :=
  match x with
  | S754_zero _ | S754_finite false _ _ => True
  | _ => False
  end.

(** [V] is within the rounding error of the signed number [x]. *)
Definition snear (V x : Q) : Prop := Qabs (V - x) <= u64 * Qabs V + eta64.

(** The rational a binary64 number stands for (0 for NaN and the
    infinities). *)
Definition F2Q (x : float) : Q := SF2Q (Prim2SF x).

(** A finite binary64 number that is not negative. *)
Definition float_nonneg (x : float) : Prop := sf_nonneg (Prim2SF x).

(** [x] is the computed sum of numbers that are not negative and have the
    exact sum [t], through at most [c] nested additions: it overflowed
    and [t] is that large, or it is within the accumulated rounding error
    of [t]. *)
Definition sums_to (x : float) (t : Q) (c : nat) : Prop :=
  Prim2SF x = S754_infinity false /\ 2 ^ 1023 * (1 - Qnat c * u64) <= t \/
  float_nonneg x /\
  F2Q x * (1 - Qnat c * u64) <= t /\ t <= F2Q x * (1 + 2 * Qnat c * u64).

(** The depth of additions up to which [sums_to] is kept. *)
Definition depth_ok (c : nat) : Prop := (Z.of_nat c <= 2 ^ 52)%Z.

(** The eight accumulators of the unrolled loop: each one satisfies the
    invariant [P] of the partial sums, and their exact sums add up to
    [T]. *)
Definition lanes_ok {R : Type} (P : R -> Q -> nat -> Prop) (r : list R) (T : Q)
    (c : nat) : Prop :=
  exists ts, Forall2 (fun x t => P x t c) r ts /\ Qsum ts == T.

Close Scope Q_scope.
Close Scope Z_scope.
Set Implicit Arguments.

(** * Properties *)

(** ** The error monad and indexed access *)

Lemma bind_Ok_inv {A B : Type} (m : result A) (f : A -> result B) (b : B) :
  bind m f = Ok b -> exists a, m = Ok a /\ f a = Ok b.
Proof.
  destruct m as [a|e]; simpl; intros H; [exists a; auto | discriminate].
Qed.

Lemma lookup_Ok {A : Type} (l : list A) (i : nat) (a : A) :
  lookup l i = Ok a <-> nth_error l i = Some a.
Proof.
  unfold lookup. destruct (nth_error l i); split; intros H; congruence.
Qed.

Lemma lookup_lt {A : Type} (l : list A) (i : nat) :
  i < length l -> exists a, lookup l i = Ok a /\ nth_error l i = Some a.
Proof.
  intros H. unfold lookup.
  destruct (nth_error l i) as [a|] eqn:E; [eauto|].
  apply nth_error_None in E. lia.
Qed.

Lemma lookup_ge {A : Type} (l : list A) (i : nat) :
  length l <= i -> lookup l i = Raise IndexError.
Proof.
  intros H. unfold lookup. apply nth_error_None in H. now rewrite H.
Qed.

Lemma store_Ok {A : Type} (l : list A) (i : nat) (v : A) :
  i < length l -> store l i v = Ok (update l i v).
Proof.
  intros H. unfold store. apply Nat.ltb_lt in H. now rewrite H.
Qed.

Lemma length_update {A : Type} (l : list A) (i : nat) (v : A) :
  length (update l i v) = length l.
Proof.
  revert i; induction l as [|a l IH]; intros [|i]; simpl; auto.
Qed.

Lemma nth_error_update_eq {A : Type} (l : list A) (i : nat) (v : A) :
  i < length l -> nth_error (update l i v) i = Some v.
Proof.
  revert i; induction l as [|a l IH]; intros [|i]; simpl; intros H;
    try lia; auto. apply IH; lia.
Qed.

Lemma nth_error_update_neq {A : Type} (l : list A) (i j : nat) (v : A) :
  i <> j -> nth_error (update l i v) j = nth_error l j.
Proof.
  revert i j; induction l as [|a l IH]; intros [|i] [|j]; simpl; intros H;
    auto; try congruence.
Qed.

Lemma firstn_update {A : Type} (l : list A) (i j : nat) (v : A) :
  j <= i -> firstn j (update l i v) = firstn j l.
Proof.
  revert i j; induction l as [|a l IH]; intros [|i] [|j]; simpl; intros H;
    auto; try lia. f_equal. apply IH; lia.
Qed.

Lemma firstn_succ_update {A : Type} (l : list A) (i : nat) (v : A) :
  i < length l -> firstn (S i) (update l i v) = firstn i l ++ [v].
Proof.
  revert i; induction l as [|a l IH]; intros [|i]; simpl; intros H;
    try lia; auto. f_equal. apply IH; lia.
Qed.

Lemma firstn_succ_nth {A : Type} (l : list A) (i : nat) (a : A) :
  nth_error l i = Some a -> firstn (S i) l = firstn i l ++ [a].
Proof.
  revert i; induction l as [|b l IH]; intros [|i]; simpl; intros H;
    try discriminate.
  - congruence.
  - f_equal. now apply IH.
Qed.



(** ** The counts of a source along the positions *)

Lemma allocated_succ (di : list nat) (P v k : nat) :
  nth_error di P = Some v ->
  allocated di (Datatypes.S P) k
  = allocated di P k + (if Nat.eq_dec v k then 1 else 0).
Proof.
  intros H. unfold allocated. rewrite (firstn_succ_nth _ _ H).
  rewrite count_occ_app. simpl. destruct (Nat.eq_dec v k); reflexivity.
Qed.

Lemma allocated_mono (di : list nat) (k : nat) :
  forall P P', P <= P' -> allocated di P k <= allocated di P' k.
Proof.
  unfold allocated. induction di as [|x di IH]; intros [|P] [|P'] H; simpl;
    try lia.
  specialize (IH P P' ltac:(lia)). destruct (Nat.eq_dec x k); lia.
Qed.

Lemma allocated_le (di : list nat) (P k : nat) : allocated di P k <= P.
Proof.
  unfold allocated.
  etransitivity; [apply count_occ_bound|]. rewrite length_firstn. lia.
Qed.

Lemma allocated_all (di : list nat) (k : nat) :
  forall P, (forall j, j < P -> nth_error di j = Some k) -> allocated di P k = P.
Proof.
  induction P as [|P IH]; intros H.
  - reflexivity.
  - rewrite (allocated_succ _ _ k (H P (Nat.lt_succ_diag_r P))).
    rewrite IH by (intros j Hj; apply H; lia).
    destruct (Nat.eq_dec k k); [lia | congruence].
Qed.

(** ** The inner loop: which source is picked *)

Section Pick.

Context {R : Type} {NR : Num R} (valid : R -> Prop) {NO : NumOrder valid}.

Variables (weights : list R) (scale : R) (cur : list nat).

Lemma error_at_Ok (k : nat) :
  k < length weights -> k < length cur ->
  exists w c, nth_error weights k = Some w /\ nth_error cur k = Some c /\
    error_at weights scale cur k = Ok (fsub (fmul w scale) (of_int (Z.of_nat c))).
Proof.
  intros Hw Hc. unfold error_at.
  destruct (lookup_lt weights Hw) as (w & -> & Ew).
  destruct (lookup_lt cur Hc) as (c & -> & Ec).
  exists w, c. auto.
Qed.

Lemma scan_Ok (range : list nat) :
  forall m mi,
    (forall j, In j range -> j < length weights /\ j < length cur) ->
    exists e k, scan weights scale cur range m mi = Ok (e, k) /\
                (k = mi \/ In k range).
Proof.
  induction range as [|j range IH]; intros m mi H; simpl.
  - exists m, mi. auto.
  - destruct (H j (or_introl eq_refl)) as [Hw Hc].
    destruct (error_at_Ok Hw Hc) as (w & c & _ & _ & ->). simpl.
    assert (H' : forall j', In j' range -> j' < length weights /\ j' < length cur)
      by (intros j' Hj'; apply H; now right).
    destruct (fgt _ m).
    + destruct (IH (fsub (fmul w scale) (of_int (Z.of_nat c))) j H')
        as (e & k & -> & Hk).
      exists e, k. split; [reflexivity|]. right. simpl.
      destruct Hk as [->|Hk]; auto.
    + destruct (IH m mi H') as (e & k & -> & Hk).
      exists e, k. split; [reflexivity|]. simpl. tauto.
Qed.

Lemma scan_error (range : list nat) :
  forall m mi e k,
    error_at weights scale cur mi = Ok m ->
    scan weights scale cur range m mi = Ok (e, k) ->
    error_at weights scale cur k = Ok e.
Proof.
  induction range as [|j range IH]; intros m mi e k Hm; simpl.
  - intros [= <- <-]. exact Hm.
  - intros H. apply bind_Ok_inv in H as (ej & Ej & H).
    destruct (fgt ej m); (eapply IH; [|exact H]); assumption.
Qed.

Lemma scan_dominates (n : nat) :
  forall a m mi e k,
    mi <= a ->
    error_at weights scale cur mi = Ok m ->
    dominates valid weights scale cur a m mi ->
    scan weights scale cur (seq a n) m mi = Ok (e, k) ->
    dominates valid weights scale cur (a + n) e k.
Proof.
  induction n as [|n IH]; intros a m mi e k Hle Hm Hdom; simpl.
  - intros [= <- <-]. now rewrite Nat.add_0_r.
  - intros H. apply bind_Ok_inv in H as (ea & Ea & H).
    replace (a + S n) with (S a + n) by lia.
    destruct (fgt ea m) eqn:Egt.
    + apply (IH (S a) ea a e k); auto.
      intros j ej Hj Ej.
      destruct (Nat.eq_dec j a) as [->|Hne].
      * assert (ej = ea) by congruence. subst ej.
        split; [apply fgt_irrefl | lia].
      * destruct (Hdom j ej ltac:(lia) Ej) as [Hno _].
        split.
        -- destruct (fgt ej ea) eqn:E; auto.
           rewrite (fgt_trans _ _ _ E Egt) in Hno. discriminate.
        -- intros _ Hv. apply (fgt_cotrans ea m ej); auto.
    + apply (IH (S a) m mi e k); auto.
      intros j ej Hj Ej.
      destruct (Nat.eq_dec j a) as [->|Hne].
      * assert (ej = ea) by congruence. subst ej.
        split; [assumption | lia].
      * apply Hdom; [lia | assumption].
Qed.

End Pick.

Section Build.

Context {R : Type} {NR : Num R}.

Lemma pick_lt (weights : list R) (N : nat) (cur : list nat) (i : nat) :
  1 <= N -> length weights = N -> length cur = N ->
  exists k, pick weights N cur i = Ok k /\ k < N.
Proof.
  intros HN Hw Hc. unfold pick.
  destruct (@error_at_Ok R NR weights (sample_idx_double i) cur 0)
    as (w & c & _ & _ & ->); try lia. simpl.
  destruct (@scan_Ok R NR weights (sample_idx_double i) cur (seq 0 N)
              (fsub (fmul w (sample_idx_double i)) (of_int (Z.of_nat c))) 0)
    as (e & k & -> & Hk).
  - intros j Hj. apply in_seq in Hj. lia.
  - simpl. exists k. split; auto.
    destruct Hk as [->|Hk]; [lia|]. apply in_seq in Hk. lia.
Qed.

Lemma pick_lowest_argmax (valid : R -> Prop) {NO : NumOrder valid}
    (weights : list R) (N : nat) (cur : list nat) (i k : nat) :
  length weights = N -> length cur = N ->
  pick weights N cur i = Ok k -> k < N ->
  lowest_argmax valid weights N cur i k.
Proof.
  intros Hw Hc Hp Hk. unfold pick in Hp.
  apply bind_Ok_inv in Hp as (m & Em & Hp).
  apply bind_Ok_inv in Hp as ([e k'] & Es & Hp).
  simpl in Hp. injection Hp as ->.
  split; [assumption|]. exists e. split.
  - eapply scan_error; eauto.
  - intros j Hj.
    destruct (@error_at_Ok R NR weights (sample_idx_double i) cur j)
      as (w & c & _ & _ & Ej); try lia.
    eexists. split; [exact Ej|].
    refine (@scan_dominates R NR valid NO weights _ cur N 0 m 0 e k _ Em _ Es j _ _ Ej);
      [lia | intros j' ej' Hj'; lia | lia].
Qed.

End Build.

(** ** The outer loop: what the arrays hold after [P] positions *)

Section Loop.

Context {R : Type} {NR : Num R}.

Variables (weights : list R) (N S : nat).

Lemma allocated_update_low (di : list nat) (P i k v : nat) :
  i <= P -> allocated (update di P v) i k = allocated di i k.
Proof.
  intros H. unfold allocated. now rewrite firstn_update.
Qed.

Lemma allocated_update_next (di : list nat) (P k v : nat) :
  P < length di ->
  allocated (update di P v) (Datatypes.S P) k
  = allocated di P k + (if Nat.eq_dec v k then 1 else 0).
Proof.
  intros H. unfold allocated. rewrite firstn_succ_update by assumption.
  rewrite count_occ_app. simpl. destruct (Nat.eq_dec v k); reflexivity.
Qed.

Lemma inv_init (di0 si0 : list nat) :
  length di0 = S -> length si0 = S ->
  inv N S 0 (mkState di0 si0 (repeat 0 N)).
Proof.
  intros Hd Hs. constructor; simpl; auto.
  - apply repeat_length.
  - intros k Hk. unfold allocated. simpl.
    apply nth_error_repeat. assumption.
  - intros i Hi. lia.
Qed.

(** One iteration writes position [P] of both arrays and bumps one
    counter; everything said about the positions before [P] stays true. *)
Lemma step_inv (P : nat) (st : state) :
  1 <= N -> length weights = N -> P < S -> inv N S P st ->
  exists k c,
    pick weights N (current_samples st) P = Ok k /\ k < N /\
    nth_error (current_samples st) k = Some c /\
    step weights N st P
    = Ok (mkState (update (dataset_index st) P k)
                  (update (dataset_sample_index st) P c)
                  (update (current_samples st) k (c + 1))) /\
    inv N S (Datatypes.S P)
        (mkState (update (dataset_index st) P k)
                 (update (dataset_sample_index st) P c)
                 (update (current_samples st) k (c + 1))).
Proof.
  intros HN Hw HP [Hdi Hsi Hcl Hcur Hslot].
  destruct (pick_lt weights (current_samples st) P HN Hw Hcl) as (k & Ek & Hk).
  assert (Hc := Hcur k Hk).
  exists k, (allocated (dataset_index st) P k).
  split; [assumption|]. split; [assumption|]. split; [assumption|].
  split.
  - unfold step. rewrite Ek. simpl.
    rewrite store_Ok by lia. simpl.
    apply lookup_Ok in Hc. rewrite Hc. simpl.
    rewrite store_Ok by lia. simpl.
    rewrite store_Ok by lia. reflexivity.
  - constructor; simpl.
    + now rewrite length_update.
    + now rewrite length_update.
    + now rewrite length_update.
    + intros k' Hk'. rewrite allocated_update_next by lia.
      destruct (Nat.eq_dec k k') as [<-|Hne].
      * rewrite nth_error_update_eq by lia. reflexivity.
      * rewrite nth_error_update_neq by assumption.
        rewrite Hcur by assumption. f_equal. lia.
    + intros i Hi. destruct (Nat.eq_dec i P) as [->|Hne].
      * exists k. rewrite !nth_error_update_eq by lia.
        rewrite allocated_update_low by lia. auto.
      * destruct (Hslot i ltac:(lia)) as (k' & E1 & Hk' & E2).
        exists k'. rewrite !nth_error_update_neq by lia.
        rewrite allocated_update_low by lia. auto.
Qed.

Lemma loop_app (range1 range2 : list nat) :
  forall st,
    loop weights N (range1 ++ range2) st
    = (st' <- loop weights N range1 st ;; loop weights N range2 st').
Proof.
  induction range1 as [|i range1 IH]; intros st; simpl; auto.
  destruct (step weights N st i); simpl; auto.
Qed.

(** Running [n] more positions from a state that satisfies the invariant
    succeeds, re-establishes the invariant and leaves the positions
    already written untouched. *)
Lemma loop_inv (n : nat) :
  forall P st,
    1 <= N -> length weights = N -> P + n <= S -> inv N S P st ->
    exists st',
      loop weights N (seq P n) st = Ok st' /\ inv N S (P + n) st' /\
      firstn P (dataset_index st') = firstn P (dataset_index st) /\
      firstn P (dataset_sample_index st') = firstn P (dataset_sample_index st).
Proof.
  induction n as [|n IH]; intros P st HN Hw HP Hinv; simpl.
  - exists st. rewrite Nat.add_0_r. auto.
  - destruct (step_inv HN Hw (P:=P) ltac:(lia) Hinv)
      as (k & c & _ & _ & _ & -> & Hinv').
    simpl.
    destruct (IH (Datatypes.S P) _ HN Hw ltac:(lia) Hinv')
      as (st' & E & Hinv'' & F1 & F2).
    exists st'. split; [exact E|].
    replace (P + Datatypes.S n) with (Datatypes.S P + n) by lia.
    split; [exact Hinv''|].
    cbn [dataset_index dataset_sample_index] in F1, F2.
    split.
    + apply (f_equal (firstn P)) in F1.
      rewrite !firstn_firstn, Nat.min_l in F1 by lia.
      rewrite F1. apply firstn_update. lia.
    + apply (f_equal (firstn P)) in F2.
      rewrite !firstn_firstn, Nat.min_l in F2 by lia.
      rewrite F2. apply firstn_update. lia.
Qed.

Lemma prefix_state_succ (di0 si0 : list nat) (P : nat) :
  prefix_state weights N di0 si0 (Datatypes.S P)
  = (st <- prefix_state weights N di0 si0 P ;; step weights N st P).
Proof.
  unfold prefix_state, _build_blending_indices.
  rewrite seq_S, loop_app. simpl.
  destruct (loop weights N (seq 0 P) _); simpl; auto.
  destruct (step weights N a P); reflexivity.
Qed.

(** The build succeeds, and each of its prefixes is a state that satisfies
    the invariant and agrees with the final arrays on what it has
    written. *)
Lemma build_prefixes (di0 si0 : list nat) :
  1 <= N -> length weights = N -> length di0 = S -> length si0 = S ->
  exists final,
    _build_blending_indices di0 si0 weights N S = Ok final /\ inv N S S final /\
    forall P, P <= S ->
      exists st,
        prefix_state weights N di0 si0 P = Ok st /\ inv N S P st /\
        firstn P (dataset_index final) = firstn P (dataset_index st) /\
        firstn P (dataset_sample_index final)
        = firstn P (dataset_sample_index st).
Proof.
  intros HN Hw Hd Hs.
  assert (H0 := inv_init di0 si0 Hd Hs).
  destruct (@loop_inv S 0 _ HN Hw ltac:(lia) H0) as (final & E & Hinv & _).
  exists final. split; [exact E|]. split; [exact Hinv|].
  intros P HP.
  destruct (@loop_inv P 0 _ HN Hw ltac:(lia) H0) as (st & E1 & Hinv1 & _).
  exists st. split; [exact E1|]. split; [exact Hinv1|].
  unfold _build_blending_indices in E.
  replace S with (P + (S - P)) in E by lia.
  rewrite seq_app, loop_app, E1 in E. simpl in E.
  destruct (@loop_inv (S - P) P _ HN Hw ltac:(lia) Hinv1)
    as (final' & E' & _ & F1 & F2).
  rewrite E' in E. injection E as <-. auto.
Qed.

End Loop.

(** ** The order laws hold in both arithmetics *)

Lemma Q_fgt_true (a b : Q) : fgt a b = true <-> (b < a)%Q.
Proof.
  simpl. rewrite negb_true_iff. split; intros H.
  - apply Qnot_le_lt. intros Hle. apply Qle_bool_iff in Hle. congruence.
  - destruct (Qle_bool a b) eqn:E; auto.
    apply Qle_bool_iff in E. exfalso. exact (Qlt_not_le _ _ H E).
Qed.

Lemma Q_fgt_false (a b : Q) : fgt a b = false <-> (a <= b)%Q.
Proof.
  simpl. rewrite negb_false_iff. apply Qle_bool_iff.
Qed.

#[export] Instance Q_NumOrder : NumOrder (fun _ : Q => True).
Proof.
  constructor.
  - intros a. apply Q_fgt_false, Qle_refl.
  - intros a b c H1 H2. apply Q_fgt_true in H1, H2. apply Q_fgt_true.
    eapply Qlt_trans; eauto.
  - intros a b c _ H1 H2. apply Q_fgt_true in H1. apply Q_fgt_false in H2.
    apply Q_fgt_true. eapply Qle_lt_trans; eauto.
Qed.

Lemma SFltb_not_nan (x y : spec_float) :
  SFltb x y = true -> sf_not_nan x /\ sf_not_nan y.
Proof.
  destruct x, y; simpl; auto; discriminate.
Qed.

Lemma SFltb_key (x y : spec_float) :
  sf_not_nan x -> sf_not_nan y ->
  (SFltb x y = true <-> key_lt (sf_key x) (sf_key y)).
Proof.
  unfold SFltb.
  destruct x as [sx|sx| |sx mx ex], y as [sy|sy| |sy my ey];
    simpl; try tauto; intros _ _;
    try (destruct sx; simpl; split; intros H; try discriminate; try lia; auto; fail);
    try (destruct sy; simpl; split; intros H; try discriminate; try lia; auto; fail);
    try (destruct sx, sy; simpl; split; intros H; try discriminate; try lia; auto; fail).
  change (Pos.compare_cont Eq mx my) with (Pos.compare mx my).
  destruct sx, sy; simpl;
    destruct (Z.compare_spec ex ey), (Pos.compare_spec mx my); simpl;
    split; intros H'; try discriminate; try lia; auto.
Qed.

#[export] Instance float_NumOrder : NumOrder float_valid.
Proof.
  constructor; simpl; unfold float_valid.
  - intros a. rewrite FloatAxioms.ltb_spec.
    destruct (SFltb (Prim2SF a) (Prim2SF a)) eqn:E; auto.
    destruct (SFltb_not_nan _ _ E) as [H _].
    apply (SFltb_key _ _ H H) in E.
    destruct (sf_key (Prim2SF a)) as [[? ?] ?]. simpl in E. lia.
  - intros a b c. rewrite !FloatAxioms.ltb_spec. intros H1 H2.
    destruct (SFltb_not_nan _ _ H1) as [Hb Ha].
    destruct (SFltb_not_nan _ _ H2) as [Hc _].
    apply (SFltb_key _ _ Hb Ha) in H1. apply (SFltb_key _ _ Hc Hb) in H2.
    apply (SFltb_key _ _ Hc Ha).
    destruct (sf_key (Prim2SF a)) as [[? ?] ?], (sf_key (Prim2SF b)) as [[? ?] ?],
             (sf_key (Prim2SF c)) as [[? ?] ?]. simpl in *. lia.
  - intros a b c Hc. rewrite !FloatAxioms.ltb_spec. intros H1 H2.
    destruct (SFltb_not_nan _ _ H1) as [Hb Ha].
    apply (SFltb_key _ _ Hb Ha) in H1.
    apply (SFltb_key _ _ Hc Ha).
    assert (H3 : ~ key_lt (sf_key (Prim2SF b)) (sf_key (Prim2SF c))).
    { intros H. apply (SFltb_key _ _ Hb Hc) in H. congruence. }
    destruct (sf_key (Prim2SF a)) as [[? ?] ?], (sf_key (Prim2SF b)) as [[? ?] ?],
             (sf_key (Prim2SF c)) as [[? ?] ?]. simpl in *. lia.
Qed.

(** ** Binary64: conversion of integers, results that are not NaN *)

Local Open Scope Z_scope.
Unset Implicit Arguments.

Lemma digits2_pos_bounds (p : positive) :
  2 ^ (Z.pos (digits2_pos p) - 1) <= Z.pos p < 2 ^ Z.pos (digits2_pos p).
Proof.
  induction p as [p IH|p IH|]; cbn [digits2_pos].
  - rewrite Pos2Z.inj_succ.
    replace (Z.succ (Z.pos (digits2_pos p)) - 1) with (Z.succ (Z.pos (digits2_pos p) - 1)) by lia.
    rewrite !Z.pow_succ_r by lia. lia.
  - rewrite Pos2Z.inj_succ.
    replace (Z.succ (Z.pos (digits2_pos p)) - 1) with (Z.succ (Z.pos (digits2_pos p) - 1)) by lia.
    rewrite !Z.pow_succ_r by lia. lia.
  - simpl. lia.
Qed.

Lemma digits2_pos_le (p : positive) (k : Z) :
  0 <= k -> Z.pos p < 2 ^ k -> Z.pos (digits2_pos p) <= k.
Proof.
  intros Hk H. destruct (digits2_pos_bounds p) as [H1 _].
  destruct (Z.le_gt_cases (Z.pos (digits2_pos p)) k) as [|Hgt]; [assumption|].
  assert (2 ^ k <= 2 ^ (Z.pos (digits2_pos p) - 1)) by (apply Z.pow_le_mono_r; lia).
  lia.
Qed.

Lemma iter_xO_value (k p : positive) :
  Z.pos (Pos.iter xO p k) = Z.pos p * 2 ^ Z.pos k.
Proof.
  revert p. induction k as [|k IH] using Pos.peano_ind; intros p.
  - simpl. lia.
  - rewrite Pos.iter_succ, Pos2Z.inj_succ, Z.pow_succ_r by lia.
    rewrite Pos2Z.inj_xO, IH. lia.
Qed.

Lemma digits2_pos_iter_xO (k p : positive) :
  digits2_pos (Pos.iter xO p k) = (digits2_pos p + k)%positive.
Proof.
  induction k as [|k IH] using Pos.peano_ind.
  - simpl. lia.
  - rewrite Pos.iter_succ. cbn [digits2_pos]. rewrite IH. lia.
Qed.

(** The conversion of a positive integer below 2^53 is exact. *)
Lemma binary_normalize_small (p : positive) :
  Z.pos p < 2 ^ 53 ->
  exists m e,
    binary_normalize prec emax (Z.pos p) 0 false = S754_finite false m e /\
    valid_binary (S754_finite false m e) = true /\
    -52 <= e <= 0 /\ Z.pos m = Z.pos p * 2 ^ (- e).
Proof.
  intros Hp.
  assert (Hd := digits2_pos_le p 53 ltac:(lia) Hp).
  assert (Hd1 : 1 <= Z.pos (digits2_pos p)) by lia.
  cbn [binary_normalize]. unfold binary_round.
  set (d := Z.pos (digits2_pos p)) in *.
  replace (fexp prec emax (d + 0)) with (d - 53)
    by (unfold fexp, SpecFloat.emin, prec, emax; lia).
  unfold shl_align.
  assert (Haux : forall mz ez, Z.pos (digits2_pos mz) = 53 -> -52 <= ez <= 0 ->
            binary_round_aux prec emax false (Z.pos mz) ez loc_Exact
            = S754_finite false mz ez /\
            valid_binary (S754_finite false mz ez) = true).
  { intros mz ez Hmz Hez.
    unfold binary_round_aux, shr_fexp. cbn [Zdigits2 shr_record_of_loc].
    rewrite Hmz.
    replace (fexp prec emax (53 + ez) - ez) with 0
      by (unfold fexp, SpecFloat.emin, prec, emax; lia).
    cbn [shr shr_m loc_of_shr_record round_nearest_even Zdigits2 shr_record_of_loc].
    rewrite Hmz.
    replace (fexp prec emax (53 + ez) - ez) with 0
      by (unfold fexp, SpecFloat.emin, prec, emax; lia).
    cbn [shr shr_m].
    replace (ez <=? emax - prec) with true
      by (symmetry; apply Z.leb_le; unfold prec, emax; lia).
    split; [reflexivity|].
    cbn [valid_binary]. unfold bounded, canonical_mantissa. rewrite Hmz.
    replace (fexp prec emax (53 + ez)) with ez
      by (unfold fexp, SpecFloat.emin, prec, emax; lia).
    rewrite Z.eqb_refl. simpl.
    apply Z.leb_le. unfold prec, emax. lia. }
  destruct (d - 53 - 0) as [|q|q] eqn:E; try lia.
  - destruct (Haux p 0 ltac:(fold d; lia) ltac:(lia)) as [H1 H2].
    exists p, 0. rewrite H1. repeat split; try assumption; try lia.
  - destruct (Haux (Pos.iter xO p q) (d - 53)) as [H1 H2].
    + rewrite digits2_pos_iter_xO, Pos2Z.inj_add. fold d. lia.
    + lia.
    + exists (Pos.iter xO p q), (d - 53). rewrite H1.
      repeat split; try assumption; try lia.
      rewrite iter_xO_value. f_equal. f_equal. lia.
Qed.

Lemma shr_1_nonneg (mrs : shr_record) :
  0 <= shr_m mrs -> 0 <= shr_m (shr_1 mrs).
Proof.
  destruct mrs as [m r s]. simpl.
  destruct m as [|[p|p|]|p]; simpl; lia.
Qed.

Lemma iter_pos_shr_1_nonneg (n : positive) :
  forall mrs, 0 <= shr_m mrs -> 0 <= shr_m (SpecFloat.iter_pos shr_1 n mrs).
Proof.
  induction n as [n IH|n IH|]; intros mrs H; simpl.
  - apply IH, IH, shr_1_nonneg, H.
  - apply IH, IH, H.
  - apply shr_1_nonneg, H.
Qed.

Lemma shr_fexp_nonneg (m e : Z) (l : location) :
  0 <= m -> 0 <= shr_m (fst (shr_fexp prec emax m e l)).
Proof.
  intros H. unfold shr_fexp, shr.
  assert (H0 : 0 <= shr_m (shr_record_of_loc m l))
    by (destruct l as [|[]]; exact H).
  destruct (fexp prec emax (Zdigits2 m + e) - e); simpl; auto.
  now apply iter_pos_shr_1_nonneg.
Qed.

Lemma round_nearest_even_nonneg (m : Z) (l : location) :
  0 <= m -> 0 <= round_nearest_even m l.
Proof.
  intros H. destruct l as [|[]]; simpl; try lia.
  destruct (Z.even m); lia.
Qed.

Lemma binary_round_aux_not_nan (s : bool) (m e : Z) (l : location) :
  0 <= m -> sf_not_nan (binary_round_aux prec emax s m e l).
Proof.
  intros H. unfold binary_round_aux.
  assert (H1 := shr_fexp_nonneg m e l H).
  destruct (shr_fexp prec emax m e l) as [mrs' e']. simpl in H1.
  assert (H2 := shr_fexp_nonneg _ e' loc_Exact
                  (round_nearest_even_nonneg _ (loc_of_shr_record mrs') H1)).
  destruct (shr_fexp prec emax _ e' loc_Exact) as [mrs'' e'']. simpl in H2.
  destruct (shr_m mrs''); simpl; auto; try lia.
  destruct (e'' <=? 971); exact I.
Qed.

Lemma binary_normalize_not_nan (m e : Z) (sz : bool) :
  sf_not_nan (binary_normalize prec emax m e sz).
Proof.
  destruct m; simpl; auto; unfold binary_round;
    destruct (shl_align _ _ _); apply binary_round_aux_not_nan; lia.
Qed.

(** What the conversion of a natural number below 2^53 is. *)
Lemma of_nat_SF (c : Z) :
  0 <= c < 2 ^ 53 ->
  Prim2SF (of_int c) = S754_zero false \/
  exists m e, Prim2SF (of_int c)
              = S754_finite false m e.
Proof.
  intros [H0 H1]. destruct c as [|p|p]; try lia.
  - left. reflexivity.
  - right. destruct (binary_normalize_small p H1) as (m & e & E & Hv & _).
    exists m, e. cbn [of_int float_Num]. rewrite E. now apply Prim2SF_SF2Prim.
Qed.

Lemma SFmul_not_nan (x : spec_float) (m : positive) (e : Z) :
  sf_not_nan x -> sf_not_nan (SFmul prec emax x (S754_finite false m e)).
Proof.
  destruct x as [s|s| |s mx ex]; simpl; auto.
  intros _. apply binary_round_aux_not_nan. lia.
Qed.

Lemma SFsub_not_nan (x y : spec_float) :
  sf_not_nan x ->
  (y = S754_zero false \/ exists m e, y = S754_finite false m e) ->
  sf_not_nan (SFsub prec emax x y).
Proof.
  intros Hx [->|(m & e & ->)]; destruct x as [s|s| |s mx ex]; simpl; auto.
  - destruct s; exact I.
  - apply binary_normalize_not_nan.
Qed.

Lemma of_int_positive_SF (c : Z) :
  1 <= c < 2 ^ 53 ->
  exists m e, Prim2SF (of_int c) = S754_finite false m e.
Proof.
  intros [H0 H1]. destruct c as [|p|p]; try lia.
  destruct (binary_normalize_small p H1) as (m & e & E & Hv & _).
  exists m, e. cbn [of_int float_Num]. rewrite E. now apply Prim2SF_SF2Prim.
Qed.

#[export] Instance float_ErrorsValid : ErrorsValid float_valid (2 ^ 53).
Proof.
  intros w i c Hi Hc Hw. unfold float_valid, spec_error in *.
  change (fsub ?a ?b) with (PrimFloat.sub a b).
  change (fmul ?a ?b) with (PrimFloat.mul a b).
  rewrite FloatAxioms.sub_spec, FloatAxioms.mul_spec.
  apply SFsub_not_nan; [|apply of_nat_SF; lia].
  destruct (of_int_positive_SF (Z.of_nat (Nat.max i 1)) ltac:(lia))
    as (m & e & E).
  rewrite E. now apply SFmul_not_nan.
Qed.

#[export] Instance Q_ErrorsValid (bound : Z) : ErrorsValid (fun _ : Q => True) bound.
Proof.
  intros w i c _ _ _. exact I.
Qed.

Set Implicit Arguments.
Local Close Scope Z_scope.

(** ** Binary64: the rounding of the operations *)

Unset Implicit Arguments.
Open Scope Z_scope.
Open Scope Q_scope.

(** ** Powers of two *)

Lemma pow2_pos (e : Z) : 0 < 2 ^ e.
Proof. apply Qpower_0_lt. reflexivity. Qed.

Lemma pow2_add (a b : Z) : 2 ^ (a + b) == 2 ^ a * 2 ^ b.
Proof. apply Qpower_plus. discriminate. Qed.

Lemma pow2_succ (a : Z) : 2 ^ (a + 1) == 2 * 2 ^ a.
Proof. rewrite pow2_add. change (2 ^ 1) with 2. ring. Qed.

Lemma pow2_pred (a : Z) : 2 ^ a == 2 * 2 ^ (a - 1).
Proof. rewrite <- pow2_succ. now replace (a - 1 + 1)%Z with a by lia. Qed.

Lemma pow2_sub (a b : Z) : 2 ^ (a - b) == 2 ^ a / 2 ^ b.
Proof.
  unfold Z.sub. rewrite pow2_add, Qpower_opp. reflexivity.
Qed.

Lemma pow2_le (a b : Z) : (a <= b)%Z -> 2 ^ a <= 2 ^ b.
Proof. intros H. apply Qpower_le_compat_l; [exact H|]. discriminate. Qed.

Lemma pow2_lt (a b : Z) : (a < b)%Z -> 2 ^ a < 2 ^ b.
Proof. intros H. apply Qpower_lt_compat_l; [exact H|]. reflexivity. Qed.

Lemma pow2_Z (e : Z) : (0 <= e)%Z -> 2 ^ e == inject_Z (2 ^ e).
Proof. intros H. now rewrite Zpower_Qpower. Qed.

(** ** Shifting a mantissa to the right *)

Lemma inbetween_compat (x y : Q) (m : Z) (l : location) :
  x == y -> inbetween x m l -> inbetween y m l.
Proof.
  intros E. destruct l as [|[]]; simpl; rewrite E; auto.
Qed.

Lemma loc_of_record_of_loc (m : Z) (l : location) :
  shr_m (shr_record_of_loc m l) = m /\
  loc_of_shr_record (shr_record_of_loc m l) = l.
Proof. destruct l as [|[]]; auto. Qed.

Lemma inject_Z_xO (p : positive) : inject_Z (Z.pos p~0) == 2 * inject_Z (Z.pos p).
Proof. rewrite Pos2Z.inj_xO, inject_Z_mult. reflexivity. Qed.

Lemma inject_Z_xI (p : positive) :
  inject_Z (Z.pos p~1) == 2 * inject_Z (Z.pos p) + 1.
Proof. rewrite Pos2Z.inj_xI, inject_Z_plus, inject_Z_mult. reflexivity. Qed.

Lemma shr_1_inbetween (mrs : shr_record) (y : Q) :
  (0 <= shr_m mrs)%Z ->
  inbetween y (shr_m mrs) (loc_of_shr_record mrs) ->
  (0 <= shr_m (shr_1 mrs))%Z /\
  inbetween (y / 2) (shr_m (shr_1 mrs)) (loc_of_shr_record (shr_1 mrs)).
Proof.
  destruct mrs as [m r s]. cbn [shr_m].
  destruct m as [|[p|p|]|p]; intros Hm; try lia;
    destruct r, s; cbn [shr_1 shr_m loc_of_shr_record orb inbetween];
    rewrite ?inject_Z_xO, ?inject_Z_xI;
    change (inject_Z 0) with 0; change (inject_Z 1) with 1;
    intros H; (split; [lia|]); unfold Qdiv;
    change (/ 2) with (1 # 2).
  all: try (destruct H as [H1 H2]; split; lra).
  all: try (destruct H as [H1 H2]; lra).
  all: try lra.
  all: try (split; lra).
Qed.

Lemma div_pow2_xI (y : Q) (n : positive) :
  y / 2 / 2 ^ Z.pos n / 2 ^ Z.pos n == y / 2 ^ Z.pos n~1.
Proof.
  assert (E : Z.pos n~1 = (Z.pos n + Z.pos n + 1)%Z) by lia.
  rewrite E, (pow2_add (Z.pos n + Z.pos n) 1), (pow2_add (Z.pos n) (Z.pos n)).
  change (2 ^ 1) with 2.
  assert (Hp := pow2_pos (Z.pos n)). field. lra.
Qed.

Lemma div_pow2_xO (y : Q) (n : positive) :
  y / 2 ^ Z.pos n / 2 ^ Z.pos n == y / 2 ^ Z.pos n~0.
Proof.
  assert (E : Z.pos n~0 = (Z.pos n + Z.pos n)%Z) by lia.
  rewrite E, (pow2_add (Z.pos n) (Z.pos n)).
  assert (Hp := pow2_pos (Z.pos n)). field. lra.
Qed.

Lemma div_pow2_add (x : Q) (e n : Z) :
  x / 2 ^ e / 2 ^ n == x / 2 ^ (e + n).
Proof.
  rewrite pow2_add.
  assert (Hp := pow2_pos e). assert (Hq := pow2_pos n). field. lra.
Qed.

Lemma iter_pos_shr_1_inbetween (n : positive) :
  forall (mrs : shr_record) (y : Q),
    (0 <= shr_m mrs)%Z ->
    inbetween y (shr_m mrs) (loc_of_shr_record mrs) ->
    (0 <= shr_m (SpecFloat.iter_pos shr_1 n mrs))%Z /\
    inbetween (y / 2 ^ Z.pos n) (shr_m (SpecFloat.iter_pos shr_1 n mrs))
              (loc_of_shr_record (SpecFloat.iter_pos shr_1 n mrs)).
Proof.
  induction n as [n IH|n IH|]; intros mrs y Hm H; cbn [SpecFloat.iter_pos].
  - destruct (shr_1_inbetween mrs y Hm H) as [Hm1 H1].
    destruct (IH _ _ Hm1 H1) as [Hm2 H2].
    destruct (IH _ _ Hm2 H2) as [Hm3 H3].
    split; [exact Hm3|]. revert H3. apply inbetween_compat, div_pow2_xI.
  - destruct (IH _ _ Hm H) as [Hm2 H2].
    destruct (IH _ _ Hm2 H2) as [Hm3 H3].
    split; [exact Hm3|]. revert H3. apply inbetween_compat, div_pow2_xO.
  - destruct (shr_1_inbetween mrs y Hm H) as [Hm1 H1].
    split; [exact Hm1|]. revert H1. apply inbetween_compat.
    change (2 ^ 1) with 2. reflexivity.
Qed.

(** [shr] by [n >= 0] digits. *)
Lemma shr_inbetween (m e n : Z) (l : location) (x : Q) :
  (0 <= m)%Z -> (0 <= n)%Z ->
  inbetween (x / 2 ^ e) m l ->
  exists mrs,
    shr (shr_record_of_loc m l) e n = (mrs, (e + n)%Z) /\
    (0 <= shr_m mrs)%Z /\
    inbetween (x / 2 ^ (e + n)) (shr_m mrs) (loc_of_shr_record mrs).
Proof.
  intros Hm Hn H.
  destruct (loc_of_record_of_loc m l) as [E1 E2].
  destruct n as [|n|n]; try lia; cbn [shr].
  - exists (shr_record_of_loc m l). rewrite Z.add_0_r, E1, E2. auto.
  - destruct (iter_pos_shr_1_inbetween n (shr_record_of_loc m l) (x / 2 ^ e))
      as [H1 H2]; rewrite ?E1, ?E2; auto.
    eexists. split; [reflexivity|]. split; [exact H1|].
    revert H2. apply inbetween_compat, div_pow2_add.
Qed.

(** ** Rounding to nearest, ties to even *)

Lemma round_nearest_even_spec (m : Z) (l : location) (y : Q) :
  inbetween y m l ->
  (m <= round_nearest_even m l <= m + 1)%Z /\
  Qabs (inject_Z (round_nearest_even m l) - y) <= 1 # 2.
Proof.
  destruct l as [|[]]; cbn [inbetween round_nearest_even]; intros H.
  - split; [lia|]. rewrite H. setoid_replace (inject_Z m - inject_Z m) with 0 by ring.
    discriminate.
  - destruct (Z.even m).
    + split; [lia|]. rewrite H. apply Qabs_Qle_condition. split; lra.
    + split; [lia|]. rewrite H, inject_Z_plus. change (inject_Z 1) with 1.
      apply Qabs_Qle_condition. split; lra.
  - split; [lia|]. apply Qabs_Qle_condition. split; lra.
  - split; [lia|]. rewrite inject_Z_plus. change (inject_Z 1) with 1.
    apply Qabs_Qle_condition. split; lra.
Qed.

(** ** Numbers of digits *)

Lemma Zdigits2_bounds (m : Z) :
  (0 < m)%Z -> (2 ^ (Zdigits2 m - 1) <= m < 2 ^ Zdigits2 m)%Z.
Proof.
  destruct m as [|p|p]; try lia. intros _. apply digits2_pos_bounds.
Qed.

Lemma Zdigits2_nonneg (m : Z) : (0 <= Zdigits2 m)%Z.
Proof. destruct m; simpl; lia. Qed.

Lemma Zdigits2_positive (m : Z) : (0 < m)%Z -> (0 < Zdigits2 m)%Z.
Proof. destruct m; simpl; lia. Qed.

Lemma Zdigits2_le (m k : Z) :
  (0 <= k)%Z -> (0 <= m < 2 ^ k)%Z -> (Zdigits2 m <= k)%Z.
Proof.
  intros Hk [H0 H1]. destruct m as [|p|p]; try lia.
  - simpl. exact Hk.
  - now apply digits2_pos_le.
Qed.

Lemma Zdigits2_ge (m k : Z) :
  (2 ^ k <= m)%Z -> (0 <= k)%Z -> (k + 1 <= Zdigits2 m)%Z.
Proof.
  intros H Hk.
  assert (Hm : (0 < m)%Z) by (assert (0 < 2 ^ k)%Z by (apply Z.pow_pos_nonneg; lia); lia).
  destruct (Zdigits2_bounds m Hm) as [_ H2].
  destruct (Z.le_gt_cases (k + 1) (Zdigits2 m)) as [|Hlt]; [assumption|].
  assert (2 ^ Zdigits2 m <= 2 ^ k)%Z
    by (apply Z.pow_le_mono_r; [lia | lia]).
  lia.
Qed.

Lemma Zdigits2_unique (m k : Z) :
  (0 < k)%Z -> (2 ^ (k - 1) <= m < 2 ^ k)%Z -> Zdigits2 m = k.
Proof.
  intros Hk [H1 H2].
  assert (Ha := Zdigits2_le m k ltac:(lia)
                  ltac:(assert (0 < 2 ^ (k - 1))%Z by (apply Z.pow_pos_nonneg; lia); lia)).
  assert (Hb := Zdigits2_ge m (k - 1) H1 ltac:(lia)). lia.
Qed.

(** ** Integers among the rationals *)

Lemma inbetween_bounds (y : Q) (m : Z) (l : location) :
  inbetween y m l -> inject_Z m <= y /\ y < inject_Z m + 1.
Proof.
  destruct l as [|[]]; cbn [inbetween]; intros H;
    set (z := inject_Z m) in *; clearbody z;
    try match type of H with _ /\ _ => destruct H end; split; lra.
Qed.

Lemma inject_Z_pow2 (k : Z) : (0 <= k)%Z -> inject_Z (2 ^ k) == 2 ^ k.
Proof. intros H. now rewrite pow2_Z. Qed.

Lemma Zlt_pow2 (m k : Z) : (0 <= k)%Z -> inject_Z m < 2 ^ k -> (m < 2 ^ k)%Z.
Proof. intros Hk H. rewrite pow2_Z in H by assumption. now rewrite Zlt_Qlt. Qed.

Lemma Zle_pow2 (m k : Z) : (0 <= k)%Z -> 2 ^ k < inject_Z m + 1 -> (2 ^ k <= m)%Z.
Proof.
  intros Hk H. rewrite pow2_Z in H by assumption.
  change 1 with (inject_Z 1) in H. rewrite <- inject_Z_plus in H.
  rewrite <- Zlt_Qlt in H. lia.
Qed.

(** ** The rounding of the operations *)

Lemma fexp_eq (e : Z) : fexp prec emax e = Z.max (e - 53) (-1074).
Proof. reflexivity. Qed.

Lemma shr_fexp_eq (m e : Z) (l : location) :
  shr_fexp prec emax m e l
  = shr (shr_record_of_loc m l) e (Z.max (Zdigits2 m + e - 53) (-1074) - e).
Proof. reflexivity. Qed.

Lemma binary_round_aux_eq (sx : bool) (mx ex : Z) (lx : location)
    (mrs1 mrs2 : shr_record) (e1 e2 : Z) :
  shr_fexp prec emax mx ex lx = (mrs1, e1) ->
  shr_fexp prec emax (round_nearest_even (shr_m mrs1) (loc_of_shr_record mrs1))
           e1 loc_Exact = (mrs2, e2) ->
  binary_round_aux prec emax sx mx ex lx = SF_of sx (shr_m mrs2) e2.
Proof.
  intros E1 E2. unfold binary_round_aux. rewrite E1, E2. reflexivity.
Qed.

Lemma shr_fexp_stable (m e : Z) :
  Z.max (Zdigits2 m + e - 53) (-1074) = e ->
  shr_fexp prec emax m e loc_Exact = (shr_record_of_loc m loc_Exact, e).
Proof.
  intros H. rewrite shr_fexp_eq, H, Z.sub_diag. reflexivity.
Qed.

Lemma div_pow2_lt (a : Q) (d n : Z) : a < 2 ^ d -> a / 2 ^ n < 2 ^ (d - n).
Proof.
  intros H. rewrite pow2_sub. unfold Qdiv.
  apply Qmult_lt_compat_r; [|exact H].
  apply Qinv_lt_0_compat, pow2_pos.
Qed.

Lemma div_pow2_le (a : Q) (d n : Z) : 2 ^ d <= a -> 2 ^ (d - n) <= a / 2 ^ n.
Proof.
  intros H. rewrite pow2_sub. unfold Qdiv.
  apply Qmult_le_compat_r; [exact H|].
  apply Qlt_le_weak, Qinv_lt_0_compat, pow2_pos.
Qed.

Lemma digits_upper (m : Z) : (0 <= m)%Z -> inject_Z m + 1 <= 2 ^ Zdigits2 m.
Proof.
  intros H. rewrite pow2_Z by apply Zdigits2_nonneg.
  change 1 with (inject_Z 1). rewrite <- inject_Z_plus, <- Zle_Qle.
  destruct (Z.eq_dec m 0) as [->|Hne]; [simpl; lia|].
  destruct (Zdigits2_bounds m ltac:(lia)). lia.
Qed.

Lemma digits_lower (m : Z) : (0 < m)%Z -> 2 ^ (Zdigits2 m - 1) <= inject_Z m.
Proof.
  intros H. assert (Hd := Zdigits2_positive m H).
  rewrite pow2_Z by lia. rewrite <- Zle_Qle.
  now destruct (Zdigits2_bounds m H).
Qed.

(** From the distance to the scaled number to the distance to the number. *)
Lemma scale_error (z x p : Q) :
  0 < p -> Qabs (z - x / p) <= 1 # 2 -> Qabs (z * p - x) <= p / 2.
Proof.
  intros Hp H. apply Qabs_Qle_condition in H. destruct H as [H1 H2].
  assert (E : x == x / p * p) by (field; lra).
  set (q := x / p) in *. clearbody q.
  apply Qabs_Qle_condition. rewrite E. split.
  - setoid_replace (z * p - q * p) with ((z - q) * p) by ring.
    setoid_replace (- (p / 2)) with ((- (1 # 2)) * p) by (field).
    apply Qmult_le_compat_r; lra.
  - setoid_replace (z * p - q * p) with ((z - q) * p) by ring.
    setoid_replace (p / 2) with ((1 # 2) * p) by (field).
    apply Qmult_le_compat_r; lra.
Qed.

Lemma half_pow2 (e : Z) : 2 ^ e / 2 == 2 ^ (e - 1).
Proof. rewrite pow2_sub. change (2 ^ 1) with 2. reflexivity. Qed.

(** The rounding of a number [x >= 0] given by a mantissa with enough
    digits, an exponent and the place of [x] between [mx] and [mx + 1]:
    the result is a mantissa below 2^53 at an exponent no less than
    -1074, normalised unless that exponent is -1074, within half a unit
    in the last place of [x]; it overflows only from 2^1023 on. *)
Lemma binary_round_aux_correct (sx : bool) (mx ex : Z) (lx : location) (x : Q) :
  (0 <= mx)%Z ->
  (ex <= Z.max (Zdigits2 mx + ex - 53) (-1074))%Z ->
  inbetween (x / 2 ^ ex) mx lx ->
  exists m e,
    binary_round_aux prec emax sx mx ex lx = SF_of sx m e /\
    (0 <= m < 2 ^ 53)%Z /\ (-1074 <= e)%Z /\
    ((2 ^ 52 <= m)%Z \/ e = (-1074)%Z) /\
    Qabs (inject_Z m * 2 ^ e - x) <= 2 ^ (e - 1) /\
    ((971 < e)%Z -> 2 ^ 1023 <= x).
Proof.
  intros Hm Hpre Hin.
  set (d := Zdigits2 mx) in *.
  set (f1 := Z.max (d + ex - 53) (-1074)) in *.
  destruct (shr_inbetween mx ex (f1 - ex) lx x Hm ltac:(lia) Hin)
    as (mrs1 & E1 & Hm1 & Hin1).
  replace (ex + (f1 - ex))%Z with f1 in * by lia.
  assert (Es1 : shr_fexp prec emax mx ex lx = (mrs1, f1))
    by (rewrite shr_fexp_eq; exact E1).
  destruct (inbetween_bounds _ _ _ Hin1) as [Hy1a Hy1b].
  destruct (round_nearest_even_spec _ _ _ Hin1) as [Hm2 Hr].
  destruct (inbetween_bounds _ _ _ Hin) as [Hxa Hxb].
  set (m1 := shr_m mrs1) in *. set (l1 := loc_of_shr_record mrs1) in *.
  set (m2 := round_nearest_even m1 l1) in *.
  assert (Ey1 : x / 2 ^ f1 == x / 2 ^ ex / 2 ^ (f1 - ex)).
  { rewrite div_pow2_add. now replace (ex + (f1 - ex))%Z with f1 by lia. }
  assert (Hup : x / 2 ^ f1 < 2 ^ (d + ex - f1)).
  { rewrite Ey1. replace (d + ex - f1)%Z with (d - (f1 - ex))%Z by lia.
    apply div_pow2_lt. assert (Hd := digits_upper mx Hm). fold d in Hd. lra. }
  assert (Herr : Qabs (inject_Z m2 * 2 ^ f1 - x) <= 2 ^ (f1 - 1)).
  { rewrite <- half_pow2. apply scale_error; [apply pow2_pos | exact Hr]. }
  destruct (Z.le_gt_cases (-1074) (d + ex - 53)) as [Hn|Hs].
  - (* normal range *)
    assert (Ef1 : f1 = (d + ex - 53)%Z) by lia.
    assert (Hd53 : (53 <= d)%Z) by lia.
    assert (Hmx : (0 < mx)%Z).
    { destruct (Z.eq_dec mx 0) as [E0|]; [|lia]. subst d. rewrite E0 in Hd53.
      simpl in Hd53. lia. }
    replace (d + ex - f1)%Z with 53%Z in Hup by lia.
    assert (Hlow : 2 ^ 52 <= x / 2 ^ f1).
    { rewrite Ey1. replace 52%Z with (d - 1 - (f1 - ex))%Z by lia.
      apply div_pow2_le. assert (Hd := digits_lower mx Hmx). fold d in Hd. lra. }
    assert (Hm1a : (m1 < 2 ^ 53)%Z) by (apply Zlt_pow2; [lia | lra]).
    assert (Hm1b : (2 ^ 52 <= m1)%Z) by (apply Zle_pow2; [lia | lra]).
    assert (Hx : 2 ^ (52 + f1) <= x).
    { rewrite pow2_add. assert (Hp := pow2_pos f1).
      assert (E : x == x / 2 ^ f1 * 2 ^ f1) by (field; lra).
      rewrite E. apply Qmult_le_compat_r; lra. }
    destruct (Z.eq_dec m2 (2 ^ 53)) as [E2|N2].
    + (* the mantissa carries into a 54th digit *)
      exists (2 ^ 52)%Z, (f1 + 1)%Z.
      split.
      { apply (binary_round_aux_eq sx mx ex lx mrs1
                 (Build_shr_record (2 ^ 52) false false) f1 (f1 + 1) Es1).
        fold m1 l1 m2. rewrite E2, shr_fexp_eq.
        replace (Z.max (Zdigits2 (2 ^ 53) + f1 - 53) (-1074) - f1)%Z with 1%Z
          by (change (Zdigits2 (2 ^ 53)) with 54%Z; lia).
        reflexivity. }
      split; [lia|]. split; [lia|]. split; [left; lia|].
      split.
      { rewrite E2 in Herr.
        assert (E : inject_Z (2 ^ 52) * 2 ^ (f1 + 1) == inject_Z (2 ^ 53) * 2 ^ f1).
        { rewrite pow2_succ. change (inject_Z (2 ^ 53)) with (2 * inject_Z (2 ^ 52)).
          ring. }
        rewrite E. eapply Qle_trans; [exact Herr|].
        apply pow2_le. lia. }
      intros He. eapply Qle_trans; [|exact Hx]. apply pow2_le. lia.
    + exists m2, f1.
      split.
      { apply (binary_round_aux_eq sx mx ex lx mrs1
                 (shr_record_of_loc m2 loc_Exact) f1 f1 Es1).
        fold m1 l1 m2. apply shr_fexp_stable.
        rewrite (Zdigits2_unique m2 53); lia. }
      split; [cbn [shr_record_of_loc shr_m]; lia|]. split; [lia|].
      split; [left; cbn [shr_record_of_loc shr_m]; lia|].
      split; [exact Herr|].
      intros He. eapply Qle_trans; [|exact Hx]. apply pow2_le. lia.
  - (* subnormal range *)
    assert (Ef1 : f1 = (-1074)%Z) by lia.
    assert (Hm1a : (m1 < 2 ^ 52)%Z).
    { destruct (Z.le_gt_cases 0 (d + ex - f1)) as [Hk|Hk].
      - assert (m1 < 2 ^ (d + ex - f1))%Z by (apply Zlt_pow2; [lia | lra]).
        assert (2 ^ (d + ex - f1) <= 2 ^ 52)%Z by (apply Z.pow_le_mono_r; lia).
        lia.
      - assert (H1 : 2 ^ (d + ex - f1) <= 2 ^ 0) by (apply pow2_le; lia).
        change (2 ^ 0) with 1 in H1.
        assert (m1 < 1)%Z.
        { rewrite Zlt_Qlt. change (inject_Z 1) with 1. lra. }
        lia. }
    exists m2, f1.
    split.
    { apply (binary_round_aux_eq sx mx ex lx mrs1
               (shr_record_of_loc m2 loc_Exact) f1 f1 Es1).
      fold m1 l1 m2. apply shr_fexp_stable.
      assert (Hd2 := Zdigits2_le m2 53 ltac:(lia) ltac:(lia)).
      assert (Hd2' := Zdigits2_nonneg m2). lia. }
    split; [cbn [shr_record_of_loc shr_m]; lia|]. split; [lia|].
    split; [right; exact Ef1|].
    split; [exact Herr|]. intros He. lia.
Qed.

Lemma half_ulp_near (m e : Z) (x : Q) :
  (0 <= m)%Z -> ((2 ^ 52 <= m)%Z \/ e = (-1074)%Z) ->
  Qabs (inject_Z m * 2 ^ e - x) <= 2 ^ (e - 1) ->
  near (inject_Z m * 2 ^ e) x.
Proof.
  intros Hm Hc H. unfold near. eapply Qle_trans; [exact H|].
  assert (Hp := pow2_pos e).
  assert (Hm' : 0 <= inject_Z m) by (change 0 with (inject_Z 0); now rewrite <- Zle_Qle).
  assert (He : 0 < eta64) by apply pow2_pos.
  assert (Hu : 0 < u64) by apply pow2_pos.
  destruct Hc as [Hc| ->].
  - assert (E : 2 ^ (e - 1) == u64 * (2 ^ 52 * 2 ^ e)).
    { unfold u64. rewrite <- !pow2_add. now replace (-53 + (52 + e))%Z with (e - 1)%Z by lia. }
    rewrite E.
    assert (H52 : 2 ^ 52 <= inject_Z m).
    { rewrite pow2_Z by lia. now rewrite <- Zle_Qle. }
    assert (Hcp : 2 ^ 52 * 2 ^ e <= inject_Z m * 2 ^ e)
      by (apply Qmult_le_compat_r; lra).
    set (ap := inject_Z m * 2 ^ e) in *. set (cp := 2 ^ 52 * 2 ^ e) in *.
    clearbody ap cp. nra.
  - change (2 ^ (-1074 - 1)) with eta64.
    assert (Hap : 0 <= inject_Z m * 2 ^ (-1074)) by (apply Qmult_le_0_compat; lra).
    set (ap := inject_Z m * 2 ^ (-1074)) in *. clearbody ap. nra.
Qed.

Lemma SF2Q_SF_of (s : bool) (m e : Z) :
  (0 <= m)%Z -> (e <= 971)%Z ->
  sf_finite (SF_of s m e) /\
  SF2Q (SF_of s m e)
  == (if s then - (inject_Z m * 2 ^ e) else inject_Z m * 2 ^ e).
Proof.
  intros Hm He. destruct m as [|p|p]; try lia.
  - simpl. split; [exact I|]. destruct s; ring.
  - unfold SF_of.
    replace (e <=? emax - prec)%Z with true by (symmetry; apply Z.leb_le; exact He).
    split; [exact I|]. cbn [SF2Q]. destruct s; ring.
Qed.

(** What a rounding that does not overflow is. *)
Lemma rounded_near (s : bool) (r : spec_float) (x : Q) :
  rounded s r x -> x < 2 ^ 1023 ->
  exists V, 0 <= V /\ near V x /\ sf_finite r /\
            SF2Q r == (if s then - V else V).
Proof.
  intros (m & e & -> & Hm & He & Hc & Herr & Hov) Hx.
  assert (He' : (e <= 971)%Z).
  { destruct (Z.le_gt_cases e 971); [assumption|]. specialize (Hov ltac:(lia)). lra. }
  exists (inject_Z m * 2 ^ e).
  destruct (SF2Q_SF_of s m e ltac:(lia) He') as [Hf Hv].
  split.
  { assert (Hp := pow2_pos e).
    assert (Hm' : 0 <= inject_Z m) by (change 0 with (inject_Z 0); rewrite <- Zle_Qle; lia).
    set (a := inject_Z m) in *. set (p := 2 ^ e) in *. clearbody a p. nra. }
  split; [apply half_ulp_near; [lia | exact Hc | exact Herr]|].
  split; [exact Hf | exact Hv].
Qed.

(** ** Canonical representations *)

Lemma valid_finite (s : bool) (m : positive) (e : Z) :
  valid_binary (S754_finite s m e) = true ->
  (-1074 <= e <= 971)%Z /\ (Z.pos m < 2 ^ 53)%Z /\
  ((2 ^ 52 <= Z.pos m)%Z /\ Z.pos (digits2_pos m) = 53%Z \/ e = (-1074)%Z) /\
  Z.max (Z.pos (digits2_pos m) + e - 53) (-1074) = e.
Proof.
  cbn [valid_binary]. unfold bounded, canonical_mantissa.
  rewrite andb_true_iff, Z.eqb_eq, Z.leb_le, fexp_eq.
  change (emax - prec)%Z with 971%Z. intros [Hc Hb].
  destruct (digits2_pos_bounds m) as [H1 H2].
  set (d := Z.pos (digits2_pos m)) in *.
  assert (Hd : (d <= 53)%Z) by lia.
  assert (H53 : (Z.pos m < 2 ^ 53)%Z).
  { assert (2 ^ d <= 2 ^ 53)%Z by (apply Z.pow_le_mono_r; lia). lia. }
  split; [lia|]. split; [exact H53|]. split; [|exact Hc].
  destruct (Z.eq_dec e (-1074)) as [->|Hne]; [now right|]. left.
  assert (Ed : d = 53%Z) by lia. rewrite Ed in H1. simpl in H1. split; lia.
Qed.

(** ** Rounding a mantissa at an exponent *)

Lemma shl_align_value (m : positive) (e e' : Z) :
  let (mz, ez) := shl_align m e e' in
  inject_Z (Z.pos mz) * 2 ^ ez == inject_Z (Z.pos m) * 2 ^ e /\
  (ez <= e)%Z /\ (e' <= e -> ez = e')%Z /\ (e <= e' -> ez = e /\ mz = m)%Z /\
  (Z.pos (digits2_pos mz) + ez = Z.pos (digits2_pos m) + e)%Z.
Proof.
  unfold shl_align. destruct (e' - e)%Z as [|k|k] eqn:E.
  - split; [reflexivity|]. repeat split; lia.
  - split; [reflexivity|]. repeat split; lia.
  - split.
    + assert (Ee : 2 ^ e == 2 ^ Z.pos k * 2 ^ e').
      { rewrite <- pow2_add. now replace (Z.pos k + e')%Z with e by lia. }
      rewrite iter_xO_value, inject_Z_mult, Ee.
      rewrite <- (pow2_Z (Z.pos k)) by lia. ring.
    + rewrite digits2_pos_iter_xO, Pos2Z.inj_add. repeat split; lia.
Qed.

Lemma binary_round_correct (s : bool) (m : positive) (e : Z) :
  rounded s (binary_round prec emax s m e) (inject_Z (Z.pos m) * 2 ^ e).
Proof.
  unfold binary_round. rewrite fexp_eq.
  assert (H := shl_align_value m e (Z.max (Z.pos (digits2_pos m) + e - 53) (-1074))).
  destruct (shl_align m e _) as [mz ez].
  destruct H as (Hv & Hle & H1 & H2 & Hd).
  apply binary_round_aux_correct; [lia| |].
  - cbn [Zdigits2]. rewrite Hd.
    destruct (Z.le_gt_cases (Z.max (Z.pos (digits2_pos m) + e - 53) (-1074)) e)
      as [Hc|Hc]; [rewrite (H1 Hc) at 1; lia|].
    destruct (H2 ltac:(lia)) as [-> _]. lia.
  - cbn [inbetween]. rewrite <- Hv.
    assert (Hp := pow2_pos ez). field. lra.
Qed.

(** [binary_normalize] of an integer at an exponent: the result is the
    rounding of the absolute value, with the sign of the integer. *)
Lemma binary_normalize_correct (M e : Z) :
  M = 0%Z /\ binary_normalize prec emax M e false = S754_zero false \/
  M <> 0%Z /\
  rounded (M <? 0)%Z (binary_normalize prec emax M e false)
          (inject_Z (Z.abs M) * 2 ^ e).
Proof.
  destruct M as [|p|p].
  - left. auto.
  - right. split; [discriminate|]. apply binary_round_correct.
  - right. split; [discriminate|]. apply binary_round_correct.
Qed.

Lemma u64_pos : 0 < u64.
Proof. apply pow2_pos. Qed.

Lemma eta64_pos : 0 < eta64.
Proof. apply pow2_pos. Qed.

#[export] Instance near_compat : Proper (Qeq ==> Qeq ==> iff) near.
Proof. intros a b E c d E'. unfold near. now rewrite E, E'. Qed.

#[export] Instance snear_compat : Proper (Qeq ==> Qeq ==> iff) snear.
Proof. intros a b E c d E'. unfold snear. now rewrite E, E'. Qed.

Lemma near_refl (V : Q) : 0 <= V -> near V V.
Proof.
  intros H. unfold near. setoid_replace (V - V) with 0 by ring.
  assert (Hu := u64_pos). assert (He := eta64_pos).
  change (Qabs 0) with 0. nra.
Qed.

Lemma sf_nonneg_value (x : spec_float) : sf_nonneg x -> 0 <= SF2Q x.
Proof.
  destruct x as [s|s| |[] m e]; simpl; intros H; try tauto; try lra.
  assert (Hp := pow2_pos e).
  assert (Hm : 0 < inject_Z (Z.pos m)) by reflexivity.
  set (a := inject_Z (Z.pos m)) in *. set (p := 2 ^ e) in *. clearbody a p. nra.
Qed.

Lemma sf_nonneg_finite (x : spec_float) : sf_nonneg x -> sf_finite x.
Proof. destruct x as [s|s| |[] m e]; simpl; tauto. Qed.

(** The outcomes of a rounding. *)
Lemma rounded_cases (s : bool) (r : spec_float) (x : Q) :
  rounded s r x ->
  r = S754_infinity s /\ 2 ^ 1023 <= x \/
  exists V, 0 <= V /\ near V x /\ sf_finite r /\
            SF2Q r == (if s then - V else V) /\
            (s = false -> sf_nonneg r).
Proof.
  intros (m & e & -> & Hm & He & Hc & Herr & Hov).
  destruct (Z.le_gt_cases e 971) as [He'|He'].
  - right. exists (inject_Z m * 2 ^ e).
    destruct (SF2Q_SF_of s m e ltac:(lia) He') as [Hf Hv].
    split.
    { apply Qmult_le_0_compat; [|apply Qlt_le_weak, pow2_pos].
      change 0 with (inject_Z 0). rewrite <- Zle_Qle. lia. }
    split; [apply half_ulp_near; [lia | exact Hc | exact Herr]|].
    split; [exact Hf|]. split; [exact Hv|].
    intros ->. unfold SF_of. destruct m as [|p|p]; try lia; [exact I|].
    replace (e <=? emax - prec)%Z with true by (symmetry; apply Z.leb_le; exact He').
    exact I.
  - destruct m as [|p|p]; try lia.
    left. split; [|apply Hov; exact He']. unfold SF_of.
      replace (e <=? emax - prec)%Z with false by (symmetry; apply Z.leb_gt; exact He').
      reflexivity.
Qed.

(** ** Conversion of integers *)

Lemma binary_normalize_small_value (z : Z) :
  (0 <= z < 2 ^ 53)%Z ->
  valid_binary (binary_normalize prec emax z 0 false) = true /\
  sf_nonneg (binary_normalize prec emax z 0 false) /\
  SF2Q (binary_normalize prec emax z 0 false) == inject_Z z /\
  ((0 < z)%Z -> exists m e, binary_normalize prec emax z 0 false
                            = S754_finite false m e /\ (e <= 0)%Z).
Proof.
  intros [H0 H1]. destruct z as [|p|p]; try lia.
  - simpl. repeat split; try reflexivity. intros H. lia.
  - destruct (binary_normalize_small p H1) as (m & e & E & Hv & He & Hm).
    rewrite E. split; [exact Hv|]. split; [exact I|]. split.
    + cbn [SF2Q]. rewrite Hm, inject_Z_mult.
      rewrite <- (pow2_Z (- e)) by lia.
      rewrite <- Qmult_assoc, <- pow2_add.
      replace (- e + e)%Z with 0%Z by lia. change (2 ^ 0) with 1. ring.
    + intros _. exists m, e. split; [reflexivity | lia].
Qed.

(** ** Multiplication *)

Lemma digits_mul (mx my : positive) :
  (Z.pos (digits2_pos mx) + Z.pos (digits2_pos my) - 1
   <= Zdigits2 (Z.pos (mx * my)))%Z.
Proof.
  destruct (digits2_pos_bounds mx) as [H1 _].
  destruct (digits2_pos_bounds my) as [H2 _].
  set (dx := Z.pos (digits2_pos mx)) in *. set (dy := Z.pos (digits2_pos my)) in *.
  assert (Hdx : (1 <= dx)%Z) by (unfold dx; lia).
  assert (Hdy : (1 <= dy)%Z) by (unfold dy; lia).
  assert (H := Zdigits2_ge (Z.pos (mx * my)) (dx + dy - 2)).
  assert (Hp : (2 ^ (dx + dy - 2) <= Z.pos (mx * my))%Z).
  { replace (dx + dy - 2)%Z with ((dx - 1) + (dy - 1))%Z by lia.
    rewrite Z.pow_add_r by lia. rewrite Pos2Z.inj_mul.
    apply Z.mul_le_mono_nonneg; try lia; apply Z.pow_nonneg; lia. }
  specialize (H Hp ltac:(lia)). lia.
Qed.

Lemma SFmul_finite_correct (mx my : positive) (ex ey : Z) :
  valid_binary (S754_finite false mx ex) = true ->
  valid_binary (S754_finite false my ey) = true ->
  rounded false
    (SFmul prec emax (S754_finite false mx ex) (S754_finite false my ey))
    (SF2Q (S754_finite false mx ex) * SF2Q (S754_finite false my ey)).
Proof.
  intros Hx Hy. cbn [SFmul xorb SF2Q].
  destruct (valid_finite _ _ _ Hx) as (Hex & Hmx & Hcx & Hfx).
  destruct (valid_finite _ _ _ Hy) as (Hey & Hmy & Hcy & Hfy).
  assert (Hd := digits_mul mx my).
  apply binary_round_aux_correct; [lia| |].
  - lia.
  - cbn [inbetween]. rewrite Pos2Z.inj_mul, inject_Z_mult, pow2_add.
    assert (Hp := pow2_pos ex). assert (Hq := pow2_pos ey). field. lra.
Qed.

(** The product of two numbers that are zero or positive. *)
Lemma SFmul_nonneg (x y : spec_float) :
  valid_binary x = true -> valid_binary y = true ->
  sf_nonneg x -> sf_nonneg y ->
  SFmul prec emax x y = S754_infinity false /\ 2 ^ 1023 <= SF2Q x * SF2Q y \/
  sf_nonneg (SFmul prec emax x y) /\
  near (SF2Q (SFmul prec emax x y)) (SF2Q x * SF2Q y).
Proof.
  intros Hvx Hvy Hx Hy.
  destruct x as [sx|sx| |[] mx ex]; try (exfalso; exact Hx);
    destruct y as [sy|sy| |[] my ey]; try (exfalso; exact Hy).
  - right. split; [exact I|]. cbn [SFmul SF2Q].
    setoid_replace (0 * 0) with 0 by ring. apply near_refl. lra.
  - right. split; [exact I|]. cbn [SFmul SF2Q].
    setoid_replace (0 * (inject_Z (Z.pos my) * 2 ^ ey)) with 0 by ring.
    apply near_refl. lra.
  - right. split; [exact I|]. cbn [SFmul SF2Q].
    setoid_replace (inject_Z (Z.pos mx) * 2 ^ ex * 0) with 0 by ring.
    apply near_refl. lra.
  - destruct (rounded_cases _ _ _ (SFmul_finite_correct mx my ex ey Hvx Hvy))
      as [[E H]|(V & HV & Hn & Hf & Ev & Hs)].
    + left. split; assumption.
    + right. split; [apply Hs; reflexivity|].
      unfold near in *. rewrite Ev. exact Hn.
Qed.

(** ** Addition and subtraction *)

Lemma shl_align_min (m : positive) (e ez : Z) :
  (ez <= e)%Z ->
  inject_Z (Z.pos (fst (shl_align m e ez))) * 2 ^ ez == inject_Z (Z.pos m) * 2 ^ e.
Proof.
  intros H. assert (Hs := shl_align_value m e ez).
  destruct (shl_align m e ez) as [mz ez']. destruct Hs as (Hv & _ & H1 & _).
  cbn [fst]. rewrite <- (H1 H). exact Hv.
Qed.

Lemma Qabs_inject_Z (z : Z) : Qabs (inject_Z z) == inject_Z (Z.abs z).
Proof. reflexivity. Qed.

(** The difference of two numbers that are zero or positive. *)
Lemma SFsub_nonneg (p c : spec_float) :
  sf_nonneg p -> sf_nonneg c ->
  SF2Q p < 2 ^ 1023 -> SF2Q c < 2 ^ 1023 ->
  sf_finite (SFsub prec emax p c) /\
  snear (SF2Q (SFsub prec emax p c)) (SF2Q p - SF2Q c) /\
  (0 <= SF2Q p - SF2Q c -> 0 <= SF2Q (SFsub prec emax p c)) /\
  (SF2Q p - SF2Q c <= 0 -> SF2Q (SFsub prec emax p c) <= 0).
Proof.
  intros Hp Hc Hpb Hcb.
  assert (Hu := u64_pos). assert (He := eta64_pos).
  assert (Hexact : forall r, sf_finite r -> SF2Q r == SF2Q p - SF2Q c ->
            sf_finite r /\ snear (SF2Q r) (SF2Q p - SF2Q c) /\
            (0 <= SF2Q p - SF2Q c -> 0 <= SF2Q r) /\
            (SF2Q p - SF2Q c <= 0 -> SF2Q r <= 0)).
  { intros r Hf E. split; [exact Hf|]. split.
    - unfold snear. rewrite E.
      setoid_replace (SF2Q p - SF2Q c - (SF2Q p - SF2Q c)) with 0 by ring.
      change (Qabs 0) with 0.
      assert (H0 := Qabs_nonneg (SF2Q p - SF2Q c)).
      set (a := Qabs (SF2Q p - SF2Q c)) in *. clearbody a. nra.
    - rewrite E. split; auto. }
  destruct p as [sp|sp| |[] mp ep]; try (exfalso; exact Hp);
    destruct c as [sc|sc| |[] mc ec]; try (exfalso; exact Hc).
  - apply Hexact; [destruct sp, sc; exact I|].
    destruct sp, sc; cbn [SFsub SF2Q]; ring.
  - apply Hexact; [exact I|]. cbn [SFsub SF2Q negb]. ring.
  - apply Hexact; [exact I|]. cbn [SFsub SF2Q]. ring.
  - cbn [SFsub cond_Zopp].
    set (ez := Z.min ep ec).
    assert (Ep := shl_align_min mp ep ez ltac:(lia)).
    assert (Ec := shl_align_min mc ec ez ltac:(lia)).
    set (ap := Z.pos (fst (shl_align mp ep ez))) in *.
    set (ac := Z.pos (fst (shl_align mc ec ez))) in *.
    assert (EX : SF2Q (S754_finite false mp ep) - SF2Q (S754_finite false mc ec)
                 == inject_Z (ap - ac) * 2 ^ ez).
    { cbn [SF2Q]. unfold Z.sub. rewrite inject_Z_plus, inject_Z_opp. 
      rewrite <- Ep, <- Ec. ring. }
    set (X := SF2Q (S754_finite false mp ep) - SF2Q (S754_finite false mc ec)) in *.
    assert (Hpz := pow2_pos ez).
    destruct (binary_normalize_correct (ap - ac) ez) as [[E0 ->]|[Hne Hr]].
    + apply Hexact; [exact I|]. fold X. rewrite EX, E0. cbn [SF2Q].
      change (inject_Z 0) with 0. ring.
    + assert (HabsX : Qabs X == inject_Z (Z.abs (ap - ac)) * 2 ^ ez).
      { rewrite EX, Qabs_Qmult, Qabs_inject_Z.
        rewrite (Qabs_pos (2 ^ ez)) by lra. reflexivity. }
      assert (HXb : Qabs X < 2 ^ 1023).
      { assert (H1 := sf_nonneg_value _ Hp). assert (H2 := sf_nonneg_value _ Hc).
        apply Qabs_Qlt_condition. unfold X. split; lra. }
      destruct (rounded_cases _ _ _ Hr) as [[_ Hbig]|(V & HV & Hn & Hf & Ev & _)].
      { exfalso. rewrite <- HabsX in Hbig. lra. }
      rewrite <- HabsX in Hn. unfold near in Hn.
      split; [exact Hf|].
      destruct (ap - ac <? 0)%Z eqn:Es.
      * apply Z.ltb_lt in Es.
        assert (HX : X < 0).
        { rewrite EX. 
          assert (Hi : inject_Z (ap - ac) < 0)
            by (change 0 with (inject_Z 0); rewrite <- Zlt_Qlt; exact Es).
          set (a := inject_Z (ap - ac)) in *. set (q := 2 ^ ez) in *.
          clearbody a q. nra. }
        rewrite (Qabs_neg X) in Hn by lra.
        split.
        { unfold snear. rewrite Ev.
          setoid_replace (- V - X) with (- (V - - X)) by lra.
          rewrite Qabs_opp, (Qabs_opp V), (Qabs_pos V) by exact HV. exact Hn. }
        rewrite Ev. split; intros H; lra.
      * apply Z.ltb_ge in Es.
        assert (HX : 0 <= X).
        { rewrite EX.
          assert (Hi : 0 <= inject_Z (ap - ac))
            by (change 0 with (inject_Z 0); rewrite <- Zle_Qle; exact Es).
          set (a := inject_Z (ap - ac)) in *. set (q := 2 ^ ez) in *.
          clearbody a q. nra. }
        rewrite (Qabs_pos X) in Hn by exact HX.
        split.
        { unfold snear. rewrite Ev, (Qabs_pos V) by exact HV. exact Hn. }
        rewrite Ev. split; intros H; [exact HV|].
        assert (X == 0) by lra.
        exfalso. apply Hne.
        assert (Hz : inject_Z (ap - ac) == 0).
        { rewrite EX in H0. 
          set (a := inject_Z (ap - ac)) in *. set (q := 2 ^ ez) in *.
          clearbody a q. 
          destruct (Qmult_integral _ _ H0) as [|Hq]; [assumption|]. lra. }
        apply (proj1 (inject_Z_injective (ap - ac) 0)). exact Hz.
Qed.

(** The sum of two numbers that are zero or positive. *)
Lemma SFadd_nonneg (x y : spec_float) :
  sf_nonneg x -> sf_nonneg y ->
  SFadd prec emax x y = S754_infinity false \/
  sf_nonneg (SFadd prec emax x y) /\
  near (SF2Q (SFadd prec emax x y)) (SF2Q x + SF2Q y).
Proof.
  intros Hx Hy.
  assert (Hexact : forall r, sf_nonneg r -> SF2Q r == SF2Q x + SF2Q y ->
            r = S754_infinity false \/
            sf_nonneg r /\ near (SF2Q r) (SF2Q x + SF2Q y)).
  { intros r Hr E. right. split; [exact Hr|]. rewrite <- E.
    apply near_refl, sf_nonneg_value, Hr. }
  destruct x as [sx|sx| |[] mx ex]; try (exfalso; exact Hx);
    destruct y as [sy|sy| |[] my ey]; try (exfalso; exact Hy).
  - apply Hexact; [destruct sx, sy; exact I|].
    destruct sx, sy; cbn [SFadd SF2Q]; ring.
  - apply Hexact; [exact I|]. cbn [SFadd SF2Q]. ring.
  - apply Hexact; [exact I|]. cbn [SFadd SF2Q]. ring.
  - cbn [SFadd cond_Zopp].
    set (ez := Z.min ex ey).
    assert (Ex := shl_align_min mx ex ez ltac:(lia)).
    assert (Ey := shl_align_min my ey ez ltac:(lia)).
    set (ax := fst (shl_align mx ex ez)) in *.
    set (ay := fst (shl_align my ey ez)) in *.
    change (Z.pos ax + Z.pos ay)%Z with (Z.pos (ax + ay)).
    cbn [binary_normalize].
    assert (Hr := binary_round_correct false (ax + ay) ez).
    assert (EX : inject_Z (Z.pos (ax + ay)) * 2 ^ ez
                 == SF2Q (S754_finite false mx ex) + SF2Q (S754_finite false my ey)).
    { cbn [SF2Q]. rewrite Pos2Z.inj_add, inject_Z_plus, <- Ex, <- Ey. ring. }
    destruct (rounded_cases _ _ _ Hr) as [[E _]|(V & HV & Hn & Hf & Ev & Hs)].
    + left. exact E.
    + right. split; [apply Hs; reflexivity|].
      rewrite <- EX, Ev. exact Hn.
Qed.

Lemma SFadd_infinity_l (y : spec_float) :
  sf_nonneg y \/ y = S754_infinity false ->
  SFadd prec emax (S754_infinity false) y = S754_infinity false.
Proof.
  intros [H| ->]; [|reflexivity].
  destruct y as [s|s| |[] m e]; try (exfalso; exact H); reflexivity.
Qed.

Lemma SFadd_infinity_r (x : spec_float) :
  sf_nonneg x \/ x = S754_infinity false ->
  SFadd prec emax x (S754_infinity false) = S754_infinity false.
Proof.
  intros [H| ->]; [|reflexivity].
  destruct x as [s|s| |[] m e]; try (exfalso; exact H); reflexivity.
Qed.

(** ** Division *)

Lemma inject_Z_pos_lt (z : Z) : (0 < z)%Z -> 0 < inject_Z z.
Proof. intros H. change 0 with (inject_Z 0). now rewrite <- Zlt_Qlt. Qed.

Lemma inject_Z_nonneg (z : Z) : (0 <= z)%Z -> 0 <= inject_Z z.
Proof. intros H. change 0 with (inject_Z 0). now rewrite <- Zle_Qle. Qed.

Lemma frac_half (k nb : Z) :
  (0 < nb)%Z ->
  ((2 * k < nb)%Z -> inject_Z k / inject_Z nb < 1 # 2) /\
  ((2 * k = nb)%Z -> inject_Z k / inject_Z nb == 1 # 2) /\
  ((nb < 2 * k)%Z -> (1 # 2) < inject_Z k / inject_Z nb) /\
  ((0 < k)%Z -> 0 < inject_Z k / inject_Z nb) /\
  ((k < nb)%Z -> inject_Z k / inject_Z nb < 1).
Proof.
  intros Hnb. assert (Hn := inject_Z_pos_lt nb Hnb).
  assert (Hinv : 0 < / inject_Z nb) by now apply Qinv_lt_0_compat.
  assert (E1 : inject_Z nb / inject_Z nb == 1) by (field; lra).
  repeat split; intros H.
  - assert (H' : inject_Z (2 * k) < inject_Z nb) by now rewrite <- Zlt_Qlt.
    rewrite inject_Z_mult in H'. change (inject_Z 2) with 2 in H'.
    unfold Qdiv in *.
    set (a := inject_Z k) in *. set (b := inject_Z nb) in *. set (i := / b) in *.
    clearbody a b i. nra.
  - assert (H' : inject_Z (2 * k) == inject_Z nb) by now rewrite H.
    rewrite inject_Z_mult in H'. change (inject_Z 2) with 2 in H'.
    unfold Qdiv in *.
    set (a := inject_Z k) in *. set (b := inject_Z nb) in *. set (i := / b) in *.
    clearbody a b i. nra.
  - assert (H' : inject_Z nb < inject_Z (2 * k)) by now rewrite <- Zlt_Qlt.
    rewrite inject_Z_mult in H'. change (inject_Z 2) with 2 in H'.
    unfold Qdiv in *.
    set (a := inject_Z k) in *. set (b := inject_Z nb) in *. set (i := / b) in *.
    clearbody a b i. nra.
  - assert (H' := inject_Z_pos_lt k H). unfold Qdiv.
    set (a := inject_Z k) in *. set (b := inject_Z nb) in *. set (i := / b) in *.
    clearbody a b i. nra.
  - assert (H' : inject_Z k < inject_Z nb) by now rewrite <- Zlt_Qlt.
    unfold Qdiv in *.
    set (a := inject_Z k) in *. set (b := inject_Z nb) in *. set (i := / b) in *.
    clearbody a b i. nra.
Qed.

Lemma new_location_inbetween (nb k q : Z) :
  (0 < nb)%Z -> (0 <= k < nb)%Z ->
  inbetween (inject_Z q + inject_Z k / inject_Z nb) q (new_location nb k).
Proof.
  intros Hnb [Hk0 Hk1].
  destruct (frac_half k nb Hnb) as (F1 & F2 & F3 & F4 & F5).
  assert (Hexact : k = 0%Z ->
            inbetween (inject_Z q + inject_Z k / inject_Z nb) q loc_Exact).
  { intros ->. cbn [inbetween]. change (inject_Z 0) with 0. unfold Qdiv. ring. }
  unfold new_location.
  destruct (Z.even nb) eqn:Ev; unfold new_location_even, new_location_odd;
    destruct (Z.eqb_spec k 0) as [E0|Hne]; try (apply Hexact; exact E0);
    specialize (F4 ltac:(lia)); specialize (F5 Hk1);
    set (t := inject_Z k / inject_Z nb) in *.
  - destruct (Z.compare_spec (2 * k) nb) as [E|E|E]; cbn [inbetween];
      set (z := inject_Z q).
    + specialize (F2 E). clearbody t z. lra.
    + specialize (F1 E). clearbody t z. split; lra.
    + specialize (F3 E). clearbody t z. split; lra.
  - assert (Hodd : (2 * k <> nb)%Z).
    { intros E. rewrite <- E, Z.even_mul in Ev. discriminate. }
    destruct (Z.compare_spec (2 * k + 1) nb) as [E|E|E]; cbn [inbetween];
      set (z := inject_Z q).
    + specialize (F1 ltac:(lia)). clearbody t z. split; lra.
    + specialize (F1 ltac:(lia)). clearbody t z. split; lra.
    + specialize (F3 ltac:(lia)). clearbody t z. split; lra.
Qed.

Lemma SFdiv_finite_correct (m1 m2 : positive) (e1 e2 : Z) :
  rounded false
    (SFdiv prec emax (S754_finite false m1 e1) (S754_finite false m2 e2))
    (SF2Q (S754_finite false m1 e1) / SF2Q (S754_finite false m2 e2)).
Proof.
  cbn [SFdiv xorb SF2Q]. unfold SFdiv_core_binary. cbn [Zdigits2].
  rewrite fexp_eq.
  set (d1 := Z.pos (digits2_pos m1)). set (d2 := Z.pos (digits2_pos m2)).
  set (e' := Z.min (Z.max (d1 + e1 - (d2 + e2) - 53) (-1074)) (e1 - e2)).
  set (s := (e1 - e2 - e')%Z).
  assert (Hs : (0 <= s)%Z) by (unfold s, e'; lia).
  set (m' := match s with
             | 0%Z => Z.pos m1
             | Z.pos _ => Z.shiftl (Z.pos m1) s
             | Z.neg _ => 0%Z
             end).
  assert (Em' : m' = (Z.pos m1 * 2 ^ s)%Z).
  { unfold m'. destruct s as [|p|p] eqn:Es; try lia.
    rewrite Z.shiftl_mul_pow2 by lia. reflexivity. }
  assert (Hdiv := Z_div_mod m' (Z.pos m2) ltac:(lia)).
  assert (Hq := Z.div_eucl_eq m' (Z.pos m2) ltac:(lia)).
  destruct (Z.div_eucl m' (Z.pos m2)) as [q r] eqn:Ed.
  destruct Hdiv as [Hm' Hr].
  assert (Hpow : (0 < 2 ^ s)%Z) by (apply Z.pow_pos_nonneg; lia).
  assert (Hm'0 : (0 <= m')%Z) by (rewrite Em'; lia).
  assert (Hq0 : (0 <= q)%Z) by nia.
  apply binary_round_aux_correct; [exact Hq0| |].
  - destruct (Z.le_gt_cases e' (-1074)) as [Hle|Hgt]; [lia|].
    assert (He' : (e' <= d1 + e1 - (d2 + e2) - 53)%Z) by (unfold e' in *; lia).
    destruct (digits2_pos_bounds m1) as [B1 _].
    destruct (digits2_pos_bounds m2) as [_ B2].
    fold d1 in B1. fold d2 in B2.
    assert (Hd1 : (1 <= d1)%Z) by (unfold d1; lia).
    assert (Hd2 : (1 <= d2)%Z) by (unfold d2; lia).
    assert (Hbig : (2 ^ (52 + d2) <= m')%Z).
    { rewrite Em'.
      assert (2 ^ (52 + d2) <= 2 ^ (d1 - 1 + s))%Z
        by (apply Z.pow_le_mono_r; unfold s; lia).
      assert (E : (2 ^ (d1 - 1 + s) = 2 ^ (d1 - 1) * 2 ^ s)%Z)
        by (apply Z.pow_add_r; lia).
      assert (2 ^ (d1 - 1) * 2 ^ s <= Z.pos m1 * 2 ^ s)%Z
        by (apply Z.mul_le_mono_nonneg_r; lia).
      lia. }
    assert (Hq52 : (2 ^ 52 <= q)%Z).
    { rewrite Z.pow_add_r in Hbig by lia.
      assert (Hlt : (2 ^ 52 * Z.pos m2 < 2 ^ 52 * 2 ^ d2)%Z) by nia.
      destruct (Z.le_gt_cases (2 ^ 52) q) as [|Hc]; [assumption|]. exfalso.
      nia. }
    assert (Hdq := Zdigits2_ge q 52 Hq52 ltac:(lia)). lia.
  - assert (H1 := inject_Z_pos_lt (Z.pos m1) ltac:(lia)).
    assert (H2 := inject_Z_pos_lt (Z.pos m2) ltac:(lia)).
    assert (P1 := pow2_pos e1). assert (P2 := pow2_pos e2). assert (P3 := pow2_pos e').
    eapply inbetween_compat; [|apply (new_location_inbetween (Z.pos m2) r q); lia].
    assert (Es : 2 ^ e1 == inject_Z (2 ^ s) * 2 ^ e2 * 2 ^ e').
    { rewrite <- pow2_Z by lia. rewrite <- !pow2_add.
      now replace (s + e2 + e')%Z with e1 by (unfold s; lia). }
    assert (Eq : inject_Z m' == inject_Z (Z.pos m2) * inject_Z q + inject_Z r).
    { rewrite Hm', inject_Z_plus, inject_Z_mult. reflexivity. }
    rewrite Em', inject_Z_mult in Eq.
    rewrite Es.
    set (a1 := inject_Z (Z.pos m1)) in *. set (a2 := inject_Z (Z.pos m2)) in *.
    set (ps := inject_Z (2 ^ s)) in *. set (p2 := 2 ^ e2) in *. set (p' := 2 ^ e') in *.
    set (zq := inject_Z q) in *. set (zr := inject_Z r) in *.
    clearbody a1 a2 ps p2 p' zq zr.
    setoid_replace (a1 * (ps * p2 * p') / (a2 * p2) / p') with ((a1 * ps) / a2)
      by (field; repeat split; lra).
    rewrite Eq. field. lra.
Qed.

(** The quotient of a number that is zero or positive by a positive one. *)
Lemma SFdiv_nonneg (x : spec_float) (m : positive) (e : Z) :
  sf_nonneg x ->
  SFdiv prec emax x (S754_finite false m e) = S754_infinity false \/
  sf_nonneg (SFdiv prec emax x (S754_finite false m e)) /\
  near (SF2Q (SFdiv prec emax x (S754_finite false m e)))
       (SF2Q x / SF2Q (S754_finite false m e)).
Proof.
  intros Hx.
  destruct x as [sx|sx| |[] mx ex]; try (exfalso; exact Hx).
  - right. split; [exact I|]. cbn [SFdiv]. 
    change (SF2Q (S754_zero (xorb sx false))) with 0.
    change (SF2Q (S754_zero sx)) with 0.
    setoid_replace (0 / SF2Q (S754_finite false m e)) with 0
      by (unfold Qdiv; ring).
    apply near_refl. lra.
  - destruct (rounded_cases _ _ _ (SFdiv_finite_correct mx m ex e))
      as [[E _]|(V & HV & Hn & Hf & Ev & Hs)].
    + left. exact E.
    + right. split; [apply Hs; reflexivity|]. rewrite Ev. exact Hn.
Qed.

(** ** The order of binary64 is the order of the values *)

Lemma canonical_lt (m1 m2 : positive) (e1 e2 : Z) (s1 s2 : bool) :
  valid_binary (S754_finite s1 m1 e1) = true ->
  valid_binary (S754_finite s2 m2 e2) = true ->
  (e1 < e2)%Z ->
  inject_Z (Z.pos m1) * 2 ^ e1 < inject_Z (Z.pos m2) * 2 ^ e2.
Proof.
  intros H1 H2 He.
  destruct (valid_finite _ _ _ H1) as (He1 & Hm1 & _ & _).
  destruct (valid_finite _ _ _ H2) as (He2 & _ & Hc2 & _).
  destruct Hc2 as [[Hm2 _]|E]; [|lia].
  assert (A : inject_Z (Z.pos m1) < 2 ^ 53).
  { rewrite pow2_Z by lia. now rewrite <- Zlt_Qlt. }
  assert (B : 2 ^ 52 <= inject_Z (Z.pos m2)).
  { rewrite pow2_Z by lia. now rewrite <- Zle_Qle. }
  assert (C : 2 ^ 53 * 2 ^ e1 <= 2 ^ 52 * 2 ^ e2).
  { rewrite <- !pow2_add. apply pow2_le. lia. }
  assert (P1 := pow2_pos e1). assert (P2 := pow2_pos e2).
  assert (D : inject_Z (Z.pos m1) * 2 ^ e1 < 2 ^ 53 * 2 ^ e1)
    by (apply Qmult_lt_compat_r; assumption).
  assert (F : 2 ^ 52 * 2 ^ e2 <= inject_Z (Z.pos m2) * 2 ^ e2)
    by (apply Qmult_le_compat_r; lra).
  lra.
Qed.

Lemma finite_compare (m1 m2 : positive) (e1 e2 : Z) (s1 s2 : bool) :
  valid_binary (S754_finite s1 m1 e1) = true ->
  valid_binary (S754_finite s2 m2 e2) = true ->
  match (e1 ?= e2)%Z with
  | Lt => inject_Z (Z.pos m1) * 2 ^ e1 < inject_Z (Z.pos m2) * 2 ^ e2
  | Gt => inject_Z (Z.pos m2) * 2 ^ e2 < inject_Z (Z.pos m1) * 2 ^ e1
  | Eq =>
      match Pos.compare_cont Eq m1 m2 with
      | Lt => inject_Z (Z.pos m1) * 2 ^ e1 < inject_Z (Z.pos m2) * 2 ^ e2
      | Gt => inject_Z (Z.pos m2) * 2 ^ e2 < inject_Z (Z.pos m1) * 2 ^ e1
      | Eq => inject_Z (Z.pos m1) * 2 ^ e1 == inject_Z (Z.pos m2) * 2 ^ e2
      end
  end.
Proof.
  intros H1 H2.
  destruct (Z.compare_spec e1 e2) as [E|E|E].
  - subst e2. change (Pos.compare_cont Eq m1 m2) with (m1 ?= m2)%positive.
    assert (P := pow2_pos e1).
    destruct (Pos.compare_spec m1 m2) as [Em|Em|Em].
    + subst m2. reflexivity.
    + apply Qmult_lt_compat_r; [exact P|]. rewrite <- Zlt_Qlt. lia.
    + apply Qmult_lt_compat_r; [exact P|]. rewrite <- Zlt_Qlt. lia.
  - now apply (canonical_lt m1 m2 e1 e2 s1 s2).
  - now apply (canonical_lt m2 m1 e2 e1 s2 s1).
Qed.

Lemma SFltb_value (a b : spec_float) :
  valid_binary a = true -> valid_binary b = true ->
  sf_finite a -> sf_finite b ->
  (SFltb a b = true <-> SF2Q a < SF2Q b).
Proof.
  intros Va Vb Fa Fb. unfold SFltb.
  destruct a as [sa|sa| |sa ma ea]; try (exfalso; exact Fa);
    destruct b as [sb|sb| |sb mb eb]; try (exfalso; exact Fb);
    cbn [SFcompare SF2Q].
  - split; [discriminate | lra].
  - assert (P := pow2_pos eb). assert (M := inject_Z_pos_lt (Z.pos mb) ltac:(lia)).
    set (a := inject_Z (Z.pos mb)) in *. set (p := 2 ^ eb) in *. clearbody a p.
    destruct sb; split; intros H; try discriminate; try reflexivity; nra.
  - assert (P := pow2_pos ea). assert (M := inject_Z_pos_lt (Z.pos ma) ltac:(lia)).
    set (a := inject_Z (Z.pos ma)) in *. set (p := 2 ^ ea) in *. clearbody a p.
    destruct sa; split; intros H; try discriminate; try reflexivity; nra.
  - assert (C := finite_compare ma mb ea eb sa sb Va Vb).
    assert (Pa := pow2_pos ea). assert (Pb := pow2_pos eb).
    assert (Ma := inject_Z_pos_lt (Z.pos ma) ltac:(lia)).
    assert (Mb := inject_Z_pos_lt (Z.pos mb) ltac:(lia)).
    assert (Xa : 0 < inject_Z (Z.pos ma) * 2 ^ ea) by nra.
    assert (Xb : 0 < inject_Z (Z.pos mb) * 2 ^ eb) by nra.
    assert (Na : - inject_Z (Z.pos ma) * 2 ^ ea == - (inject_Z (Z.pos ma) * 2 ^ ea))
      by ring.
    assert (Nb : - inject_Z (Z.pos mb) * 2 ^ eb == - (inject_Z (Z.pos mb) * 2 ^ eb))
      by ring.
    revert C.
    destruct sa, sb; rewrite ?Na, ?Nb;
      set (xa := inject_Z (Z.pos ma) * 2 ^ ea) in *;
      set (xb := inject_Z (Z.pos mb) * 2 ^ eb) in *;
      clearbody xa xb;
      destruct (ea ?= eb)%Z;
      try destruct (Pos.compare_cont Eq ma mb); cbn [CompOpp];
      intros C; split; intros H; try discriminate; try reflexivity; lra.
Qed.

(** ** Sums and quotients of numbers that are not negative *)

(** The outcomes of the rounding of a multiple of 2^-1074: the error is
    relative, without the absolute term. *)
Lemma rounded_rel (s : bool) (r : spec_float) (x : Q) (K : Z) :
  rounded s r x -> x == inject_Z K * 2 ^ (-1074) ->
  r = S754_infinity s /\ 2 ^ 1023 <= x \/
  exists V, 0 <= V /\ Qabs (V - x) <= u64 * V /\ sf_finite r /\
            SF2Q r == (if s then - V else V) /\
            (s = false -> sf_nonneg r).
Proof.
  intros Hr EK.
  destruct (rounded_cases s r x Hr) as [E|(V & HV & Hn & Hf & Ev & Hs)];
    [now left|]. right.
  destruct Hr as (m & e & Er & Hm & He & Hc & Herr & Hov).
  destruct (Z.le_gt_cases e 971) as [He'|He'].
  2:{ exfalso. subst r. destruct m as [|p|p]; try lia.
      unfold SF_of in Hf.
      replace (e <=? emax - prec)%Z with false in Hf
        by (symmetry; apply Z.leb_gt; exact He').
      exact Hf. }
  destruct (SF2Q_SF_of s m e ltac:(lia) He') as [_ Hv]. rewrite <- Er in Hv.
  exists (inject_Z m * 2 ^ e).
  assert (Hp := pow2_pos e).
  assert (Hm' := inject_Z_nonneg m ltac:(lia)).
  assert (Hu := u64_pos).
  split; [apply Qmult_le_0_compat; lra|].
  split; [|split; [exact Hf|split; [exact Hv|]]].
  - destruct Hc as [Hc| ->].
    + eapply Qle_trans; [exact Herr|].
      assert (E : 2 ^ (e - 1) == u64 * (2 ^ 52 * 2 ^ e)).
      { unfold u64. rewrite <- !pow2_add.
        now replace (-53 + (52 + e))%Z with (e - 1)%Z by lia. }
      rewrite E.
      assert (H52 : 2 ^ 52 <= inject_Z m).
      { rewrite pow2_Z by lia. rewrite <- Zle_Qle. exact Hc. }
      assert (Hcp : 2 ^ 52 * 2 ^ e <= inject_Z m * 2 ^ e)
        by (apply Qmult_le_compat_r; lra).
      set (ap := inject_Z m * 2 ^ e) in *. set (cp := 2 ^ 52 * 2 ^ e) in *.
      clearbody ap cp. nra.
    + (* both are multiples of 2^-1074 and half a unit apart at most *)
      assert (Em : m = K).
      { rewrite EK in Herr.
        setoid_replace (inject_Z m * 2 ^ (-1074) - inject_Z K * 2 ^ (-1074))
          with (inject_Z (m - K) * 2 ^ (-1074)) in Herr
          by (unfold Z.sub; rewrite inject_Z_plus, inject_Z_opp; ring).
        rewrite Qabs_Qmult, (Qabs_pos (2 ^ (-1074))) in Herr by lra.
        change (2 ^ (-1074 - 1)) with ((1 # 2) * 2 ^ (-1074)) in Herr.
        assert (Hd : Qabs (inject_Z (m - K)) <= 1 # 2).
        { apply (Qmult_le_r _ _ (2 ^ (-1074))); [exact Hp | exact Herr]. }
        rewrite Qabs_inject_Z in Hd.
        assert (Hz : (Z.abs (m - K) < 1)%Z).
        { rewrite Zlt_Qlt. change (inject_Z 1) with 1. lra. }
        lia. }
      rewrite EK, Em.
      setoid_replace (inject_Z K * 2 ^ (-1074) - inject_Z K * 2 ^ (-1074)) with 0
        by ring.
      change (Qabs 0) with 0.
      apply Qmult_le_0_compat; [lra|]. rewrite <- Em.
      apply Qmult_le_0_compat; lra.
  - intros ->. apply Hs. reflexivity.
Qed.

(** The sum of two numbers that are zero or positive: the computed sum is
    infinite or within the relative rounding error of the exact one. *)
Lemma SFadd_nonneg_rel (x y : spec_float) :
  valid_binary x = true -> valid_binary y = true ->
  sf_nonneg x -> sf_nonneg y ->
  SFadd prec emax x y = S754_infinity false /\
  2 ^ 1023 <= SF2Q x + SF2Q y \/
  sf_nonneg (SFadd prec emax x y) /\
  Qabs (SF2Q (SFadd prec emax x y) - (SF2Q x + SF2Q y))
  <= u64 * SF2Q (SFadd prec emax x y).
Proof.
  intros Vx Vy Hx Hy.
  assert (Hu := u64_pos).
  assert (Hexact : forall r, sf_nonneg r -> SF2Q r == SF2Q x + SF2Q y ->
            r = S754_infinity false /\ 2 ^ 1023 <= SF2Q x + SF2Q y \/
            sf_nonneg r /\ Qabs (SF2Q r - (SF2Q x + SF2Q y)) <= u64 * SF2Q r).
  { intros r Hr E. right. split; [exact Hr|]. rewrite <- E.
    setoid_replace (SF2Q r - SF2Q r) with 0 by ring. change (Qabs 0) with 0.
    apply Qmult_le_0_compat; [lra|]. apply sf_nonneg_value, Hr. }
  destruct x as [sx|sx| |[] mx ex]; try (exfalso; exact Hx);
    destruct y as [sy|sy| |[] my ey]; try (exfalso; exact Hy).
  - apply Hexact; [destruct sx, sy; exact I|].
    destruct sx, sy; cbn [SFadd SF2Q]; ring.
  - apply Hexact; [exact I|]. cbn [SFadd SF2Q]. ring.
  - apply Hexact; [exact I|]. cbn [SFadd SF2Q]. ring.
  - destruct (valid_finite _ _ _ Vx) as (Hex & _).
    destruct (valid_finite _ _ _ Vy) as (Hey & _).
    cbn [SFadd cond_Zopp].
    set (ez := Z.min ex ey).
    assert (Ex := shl_align_min mx ex ez ltac:(lia)).
    assert (Ey := shl_align_min my ey ez ltac:(lia)).
    set (ax := fst (shl_align mx ex ez)) in *.
    set (ay := fst (shl_align my ey ez)) in *.
    change (Z.pos ax + Z.pos ay)%Z with (Z.pos (ax + ay)).
    cbn [binary_normalize].
    assert (Hr := binary_round_correct false (ax + ay) ez).
    assert (EX : inject_Z (Z.pos (ax + ay)) * 2 ^ ez
                 == SF2Q (S754_finite false mx ex) + SF2Q (S754_finite false my ey)).
    { cbn [SF2Q]. rewrite Pos2Z.inj_add, inject_Z_plus, <- Ex, <- Ey. ring. }
    assert (EK : inject_Z (Z.pos (ax + ay)) * 2 ^ ez
                 == inject_Z (Z.pos (ax + ay) * 2 ^ (ez + 1074)) * 2 ^ (-1074)).
    { rewrite inject_Z_mult, <- pow2_Z by lia.
      rewrite <- Qmult_assoc, <- pow2_add.
      now replace (ez + 1074 + -1074)%Z with ez by lia. }
    destruct (rounded_rel _ _ _ _ Hr EK) as [[E Hb]|(V & HV & Hn & Hf & Ev & Hs)].
    + left. split; [exact E|]. rewrite <- EX. exact Hb.
    + right. split; [apply Hs; reflexivity|].
      rewrite <- EX, Ev. exact Hn.
Qed.

(** The quotient of a number that is zero or positive by a positive one,
    with the size of a quotient that overflows. *)
Lemma SFdiv_nonneg_cases (x : spec_float) (m : positive) (e : Z) :
  sf_nonneg x ->
  SFdiv prec emax x (S754_finite false m e) = S754_infinity false /\
  2 ^ 1023 <= SF2Q x / SF2Q (S754_finite false m e) \/
  sf_nonneg (SFdiv prec emax x (S754_finite false m e)) /\
  near (SF2Q (SFdiv prec emax x (S754_finite false m e)))
       (SF2Q x / SF2Q (S754_finite false m e)).
Proof.
  intros Hx.
  destruct x as [sx|sx| |[] mx ex]; try (exfalso; exact Hx).
  - right. split; [exact I|]. cbn [SFdiv].
    change (SF2Q (S754_zero (xorb sx false))) with 0.
    change (SF2Q (S754_zero sx)) with 0.
    setoid_replace (0 / SF2Q (S754_finite false m e)) with 0
      by (unfold Qdiv; ring).
    apply near_refl. lra.
  - destruct (rounded_cases _ _ _ (SFdiv_finite_correct mx m ex e))
      as [[E Hb]|(V & HV & Hn & Hf & Ev & Hs)].
    + left. split; [exact E | exact Hb].
    + right. split; [apply Hs; reflexivity|]. rewrite Ev. exact Hn.
Qed.

Close Scope Q_scope.
Close Scope Z_scope.
Set Implicit Arguments.

(** ** The index builder *)

Lemma nth_error_of_firstn {A : Type} (l1 l2 : list A) (n i : nat) :
  firstn n l1 = firstn n l2 -> i < n -> nth_error l1 i = nth_error l2 i.
Proof.
  intros H Hi.
  assert (E1 := nth_error_firstn n l1 i). assert (E2 := nth_error_firstn n l2 i).
  apply Nat.ltb_lt in Hi. rewrite Hi in E1, E2. congruence.
Qed.

Section Positions.

Context {R : Type} {NR : Num R}.

(** What the build does at position [i]: from the state [st] reached
    after [i] positions it picks a source [k], whose counter is [c], and
    the final arrays hold [k] and [c] at [i]. *)
Lemma build_position (weights : list R) (N S : nat) (di0 si0 : list nat)
    (final : state) (i : nat) :
  1 <= N -> length weights = N -> length di0 = S -> length si0 = S ->
  _build_blending_indices di0 si0 weights N S = Ok final -> i < S ->
  exists st k c,
    prefix_state weights N di0 si0 i = Ok st /\ inv N S i st /\
    firstn i (dataset_index final) = firstn i (dataset_index st) /\
    pick weights N (current_samples st) i = Ok k /\ k < N /\
    nth_error (current_samples st) k = Some c /\
    step weights N st i
    = Ok (mkState (update (dataset_index st) i k)
                  (update (dataset_sample_index st) i c)
                  (update (current_samples st) k (c + 1))) /\
    nth_error (dataset_index final) i = Some k /\
    nth_error (dataset_sample_index final) i = Some c.
Proof.
  intros HN Hw Hd Hs E Hi.
  destruct (@build_prefixes R NR weights N S di0 si0 HN Hw Hd Hs)
    as (final' & E' & _ & Hpre).
  rewrite E in E'. injection E' as <-.
  destruct (Hpre i ltac:(lia)) as (st & Est & Hinv & F1 & F2).
  destruct (Hpre (Datatypes.S i) ltac:(lia)) as (st' & Est' & _ & G1 & G2).
  destruct (@step_inv R NR weights N S i st HN Hw Hi Hinv)
    as (k & c & Ek & Hk & Ec & Estep & _).
  rewrite prefix_state_succ, Est in Est'. simpl in Est'.
  rewrite Estep in Est'. injection Est' as <-.
  cbn [dataset_index dataset_sample_index current_samples] in G1, G2.
  exists st, k, c.
  repeat (split; [assumption|]). split.
  - rewrite (nth_error_of_firstn _ _ G1 (Nat.lt_succ_diag_r i)).
    apply nth_error_update_eq. rewrite (inv_di Hinv). exact Hi.
  - rewrite (nth_error_of_firstn _ _ G2 (Nat.lt_succ_diag_r i)).
    apply nth_error_update_eq. rewrite (inv_si Hinv). exact Hi.
Qed.

End Positions.

Section Builder.

Context {R : Type} {NR : Num R} (valid : R -> Prop) {NO : NumOrder valid}
  (bound : Z) {EV : ErrorsValid valid bound}.

(** The scale the code computes, [max(sample_idx, 1.0)], is the
    specification's [max(i, 1)]. *)
Lemma sample_idx_double_max (i : nat) :
  sample_idx_double i = of_int (Z.of_nat (Nat.max i 1)) :> R.
Proof.
  unfold sample_idx_double. destruct (i <? 1) eqn:E.
  - apply Nat.ltb_lt in E. replace (Nat.max i 1) with 1 by lia. reflexivity.
  - apply Nat.ltb_ge in E. replace (Nat.max i 1) with i by lia. reflexivity.
Qed.

(** The error the code computes for source [j] is the specification's. *)
Lemma error_at_spec (weights : list R) (cur : list nat) (i j : nat)
    (w : R) (c : nat) :
  nth_error weights j = Some w -> nth_error cur j = Some c ->
  error_at weights (sample_idx_double i) cur j = Ok (spec_error w i c).
Proof.
  intros Hw Hc. unfold error_at, spec_error.
  apply lookup_Ok in Hw, Hc. rewrite Hw, Hc, sample_idx_double_max. reflexivity.
Qed.

(** C2.  For [N >= 1] sources the builder succeeds, and at every virtual
    position [i < S], writing [allocated[j]] for the number of positions
    before [i] given to source [j] (which is what the counter of [j]
    holds when position [i] is reached): the source [k] recorded in
    [dataset_index[i]] is below [N]; no source has an error
    [weights[j] * max(i, 1) - allocated[j]] greater than that of [k], and
    the error of [k] is strictly greater than that of every source of
    lower index (whose weight is valid, that is, for binary64, not NaN);
    [sample_index[i]] is [allocated[k]], the count before the increment;
    and the counters after position [i] are those before it with the one
    of [k] incremented by 1.  Hence every value of [dataset_index] lies
    in [0, N) and [sample_index[i]] is the number of positions [j < i]
    with [dataset_index[j] = dataset_index[i]]. *)
Theorem build_greedy_step (weights : list R) (N S : nat) (di0 si0 : list nat) :
  1 <= N -> length weights = N -> length di0 = S -> length si0 = S ->
  (Z.of_nat S <= bound)%Z ->
  exists final,
    _build_blending_indices di0 si0 weights N S = Ok final /\
    length (dataset_index final) = S /\
    length (dataset_sample_index final) = S /\
    forall i, i < S ->
      exists st k wk st',
        prefix_state weights N di0 si0 i = Ok st /\
        (forall j, j < N ->
           nth_error (current_samples st) j
           = Some (allocated (dataset_index final) i j)) /\
        k < N /\ nth_error weights k = Some wk /\
        (forall j wj, nth_error weights j = Some wj ->
           fgt (spec_error wj i (allocated (dataset_index final) i j))
               (spec_error wk i (allocated (dataset_index final) i k))
           = false) /\
        (forall j wj, j < k -> nth_error weights j = Some wj -> valid wj ->
           fgt (spec_error wk i (allocated (dataset_index final) i k))
               (spec_error wj i (allocated (dataset_index final) i j))
           = true) /\
        nth_error (dataset_index final) i = Some k /\
        nth_error (dataset_sample_index final) i
        = Some (allocated (dataset_index final) i k) /\
        prefix_state weights N di0 si0 (Datatypes.S i) = Ok st' /\
        current_samples st'
        = update (current_samples st) k
                 (allocated (dataset_index final) i k + 1).
Proof.
  intros HN Hw Hd Hs Hb.
  destruct (@build_prefixes R NR weights N S di0 si0 HN Hw Hd Hs)
    as (final & E & Hfin & _).
  exists final. split; [exact E|].
  split; [apply Hfin|]. split; [apply Hfin|].
  intros i Hi.
  destruct (@build_position R NR weights N S di0 si0 final i HN Hw Hd Hs E Hi)
    as (st & k & c & Est & Hinv & F1 & Ek & Hk & Ec & Estep & Edi & Esi).
  assert (Hcur : forall j, j < N ->
            nth_error (current_samples st) j
            = Some (allocated (dataset_index final) i j)).
  { intros j Hj. unfold allocated. rewrite F1. now apply (inv_cur Hinv). }
  assert (Hc : c = allocated (dataset_index final) i k).
  { rewrite (Hcur k Hk) in Ec. congruence. }
  subst c.
  destruct (nth_error weights k) as [wk|] eqn:Ewk;
    [|apply nth_error_None in Ewk; lia].
  destruct (@pick_lowest_argmax R NR valid NO weights N (current_samples st) i k
              Hw (inv_cur_len Hinv) Ek Hk) as (_ & e & Ee & Hall).
  rewrite (error_at_spec weights (current_samples st) i k Ewk (Hcur k Hk)) in Ee.
  injection Ee as <-.
  assert (Herr : forall j wj, nth_error weights j = Some wj ->
            j < N /\
            fgt (spec_error wj i (allocated (dataset_index final) i j))
                (spec_error wk i (allocated (dataset_index final) i k))
            = false /\
            (j < k -> valid (spec_error wj i (allocated (dataset_index final) i j)) ->
             fgt (spec_error wk i (allocated (dataset_index final) i k))
                 (spec_error wj i (allocated (dataset_index final) i j))
             = true)).
  { intros j wj Ewj.
    assert (Hj : j < N) by (rewrite <- Hw; apply nth_error_Some; congruence).
    destruct (Hall j Hj) as (ej & Ej & H1 & H2).
    rewrite (error_at_spec weights (current_samples st) i j Ewj (Hcur j Hj)) in Ej.
    injection Ej as <-. auto. }
  exists st, k, wk,
    (mkState (update (dataset_index st) i k)
             (update (dataset_sample_index st) i
                     (allocated (dataset_index final) i k))
             (update (current_samples st) k
                     (allocated (dataset_index final) i k + 1))).
  split; [exact Est|]. split; [exact Hcur|]. split; [exact Hk|].
  split; [exact Ewk|].
  split; [intros j wj Ewj; apply (Herr j wj Ewj)|].
  split.
  { intros j wj Hjk Ewj Hv.
    destruct (Herr j wj Ewj) as (Hj & _ & H2). apply H2; [exact Hjk|].
    assert (Hle := allocated_le (dataset_index final) i j).
    apply EV; [lia | lia | exact Hv]. }
  split; [exact Edi|]. split; [exact Esi|].
  split; [|reflexivity].
  rewrite prefix_state_succ, Est. simpl. exact Estep.
Qed.

End Builder.

(** The builder on two equal weights, in binary64: at position 3 the
    errors are [0.5 * 3 - 2] for source 0 and [0.5 * 3 - 1] for source 1,
    and position 3 goes to source 1 as its second position. *)
Lemma build_greedy_step_witness :
  exists final,
    _build_blending_indices [0; 0; 0; 0] [0; 0; 0; 0]
      [0.5%float; 0.5%float] 2 4 = Ok final /\
    nth_error (dataset_index final) 3 = Some 1 /\
    nth_error (dataset_sample_index final) 3 = Some 1 /\
    fgt (spec_error 0.5%float 3 1) (spec_error 0.5%float 3 2) = true.
Proof.
  destruct (@build_greedy_step float float_Num float_valid float_NumOrder
              (2 ^ 53)%Z float_ErrorsValid
              [0.5%float; 0.5%float] 2 4 [0; 0; 0; 0] [0; 0; 0; 0])
    as (final & E & _ & _ & H); try reflexivity; try lia.
  destruct (H 3 ltac:(lia))
    as (st & k & wk & st' & _ & _ & _ & Ewk & _ & Hlow & Edi & Esi & _).
  exists final. split; [exact E|].
  vm_compute in E. injection E as <-.
  vm_compute in Edi. injection Edi as <-.
  vm_compute in Ewk. injection Ewk as <-.
  split; [reflexivity|]. split; [reflexivity|].
  exact (Hlow 0 0.5%float ltac:(lia) eq_refl I).
Defined.

(** C7.  Two sources with weights [0.5, 0.5] and [S = 4]: at position 0
    both errors are the weight times 1, the lowest index wins the tie, and
    the picks alternate: [dataset_index = [0, 1, 0, 1]].  The run is the
    same in binary64 and in exact arithmetic. *)
Theorem tie_break_alternation :
  error_at [0.5%float; 0.5%float] (sample_idx_double 0) [0; 0] 0
    = Ok (0.5 * 1)%float /\
  error_at [0.5%float; 0.5%float] (sample_idx_double 0) [0; 0] 1
    = Ok (0.5 * 1)%float /\
  pick [0.5%float; 0.5%float] 2 [0; 0] 0 = Ok 0 /\
  _build_blending_indices (repeat 0 4) (repeat 0 4) [0.5%float; 0.5%float] 2 4
    = Ok (mkState [0; 1; 0; 1] [0; 0; 1; 1] [2; 2]) /\
  _build_blending_indices (repeat 0 4) (repeat 0 4) [(1 # 2)%Q; (1 # 2)%Q] 2 4
    = Ok (mkState [0; 1; 0; 1] [0; 0; 1; 1] [2; 2]).
Proof.
  repeat split; vm_compute; reflexivity.
Qed.

(** ** Coverage: every position is given to exactly one source *)

Section Coverage.

Context {R : Type} {NR : Num R}.


End Coverage.

(** ** Discrepancy *)

Section Counts.

Context {R : Type} {NR : Num R}.


End Counts.



(** ** Construction *)

Section Construction.

Context {R : Type} {NR : Num R} {A : Type}.

Lemma normalize_length (weights weights' : list R) :
  _normalize_weight weights = Ok weights' -> length weights' = length weights.
Proof.
  unfold _normalize_weight. destruct (fgt _ _); [|discriminate].
  intros [= <-]. apply length_map.
Qed.

(** What a successful construction stores. *)
Lemma init_conforms (cpp_utils : option (@native_builder R))
    (ds : list (Dataset A)) (w : option (list R)) :
  conforms cpp_utils -> __init__ cpp_utils ds w = __init__ None ds w.
Proof.
  intros Hc. unfold __init__.
  destruct (match w with
            | Some weights => Ok weights
            | None => mapM (fun length => truediv length
                              (list_sum (map (@len A) ds)))
                           (map (@len A) ds)
            end) as [raw|e]; simpl; [|reflexivity].
  destruct (negb (length ds =? length raw)); [reflexivity|].
  destruct (_normalize_weight raw) as [weights|e]; simpl; [|reflexivity].
  now rewrite Hc.
Qed.

Lemma init_Ok_inv (ds : list (Dataset A)) (w : option (list R))
    (b : DatasetBlender A) :
  __init__ None ds w = Ok b ->
  datasets b = ds /\ size b = list_sum (map (@len A) ds) /\
  exists weights st,
    length weights = length ds /\
    _build_blending_indices (repeat 0 (size b)) (repeat 0 (size b))
      weights (length ds) (size b) = Ok st /\
    blend_dataset_index b = dataset_index st /\
    blend_sample_index b = dataset_sample_index st.
Proof.
  unfold __init__. intros H.
  apply bind_Ok_inv in H as (raw & Eraw & H).
  destruct (length ds =? length raw) eqn:El; simpl in H; [|discriminate].
  apply Nat.eqb_eq in El.
  apply bind_Ok_inv in H as (weights & Enorm & H).
  apply bind_Ok_inv in H as (arrays & Earr & H).
  simpl in Earr. apply bind_Ok_inv in Earr as (st & Est & Earr).
  injection Earr as <-. injection H as <-.
  simpl. split; [reflexivity|]. split; [reflexivity|].
  exists weights, st. split; [|auto].
  rewrite (normalize_length _ Enorm). congruence.
Qed.

(** The two arrays of a constructed view: both have the virtual length,
    every source index names a source, and every sample index is the
    number of earlier positions given to the same source. *)
Lemma init_arrays (ds : list (Dataset A)) (w : option (list R))
    (b : DatasetBlender A) :
  __init__ None ds w = Ok b ->
  length (blend_dataset_index b) = size b /\
  length (blend_sample_index b) = size b /\
  forall i, i < size b ->
    exists k, nth_error (blend_dataset_index b) i = Some k /\
      k < length ds /\
      nth_error (blend_sample_index b) i
      = Some (allocated (blend_dataset_index b) i k).
Proof.
  intros H.
  destruct (init_Ok_inv _ _ H) as (_ & Esz & weights & st & Hw & Est & -> & ->).
  destruct (length ds) as [|n] eqn:En.
  - assert (E0 : size b = 0).
    { rewrite Esz. apply length_zero_iff_nil in En. now subst ds. }
    rewrite E0 in *. vm_compute in Est. injection Est as <-.
    simpl. repeat split; auto. intros i Hi. lia.
  - destruct (@build_prefixes R NR weights (Datatypes.S n) (size b)
                (repeat 0 (size b)) (repeat 0 (size b)))
      as (final & E & Hinv & _);
      try lia; try apply repeat_length.
    rewrite Est in E. injection E as <-.
    split; [apply Hinv|]. split; [apply Hinv|].
    intros i Hi. exact (inv_slot Hinv Hi).
Qed.

End Construction.

(** ** Lookup *)

Lemma getitem_nonneg {A : Type} (l : list A) (idx : Z) :
  (0 <= idx)%Z -> getitem l idx = lookup l (Z.to_nat idx).
Proof.
  intros H. unfold getitem. apply Z.leb_le in H. now rewrite H.
Qed.

Lemma getitem_out_of_range {A : Type} (l : list A) (idx : Z) :
  (Z.of_nat (length l) <= idx \/ idx < - Z.of_nat (length l))%Z ->
  getitem l idx = Raise IndexError.
Proof.
  intros H. unfold getitem.
  destruct (0 <=? idx)%Z eqn:E0.
  - apply Z.leb_le in E0. apply lookup_ge. lia.
  - apply Z.leb_gt in E0.
    destruct (- Z.of_nat (length l) <=? idx)%Z eqn:E1; [|reflexivity].
    apply Z.leb_le in E1. lia.
Qed.

Lemma getitem_negative {A : Type} (l : list A) (idx : Z) :
  (- Z.of_nat (length l) <= idx < 0)%Z ->
  getitem l idx = getitem l (Z.of_nat (length l) + idx).
Proof.
  intros [H1 H2]. unfold getitem.
  replace (0 <=? idx)%Z with false by (symmetry; apply Z.leb_gt; lia).
  replace (- Z.of_nat (length l) <=? idx)%Z with true
    by (symmetry; apply Z.leb_le; lia).
  replace (0 <=? Z.of_nat (length l) + idx)%Z with true
    by (symmetry; apply Z.leb_le; lia).
  reflexivity.
Qed.

Lemma nth_error_combine {A B : Type} (l : list A) (l' : list B) (i : nat)
    (a : A) (b : B) :
  nth_error l i = Some a -> nth_error l' i = Some b ->
  nth_error (combine l l') i = Some (a, b).
Proof.
  revert l' i; induction l as [|x l IH]; intros [|y l'] [|i]; simpl;
    try discriminate.
  - congruence.
  - apply IH.
Qed.

(** The sample indices recorded for source [k], in the order of their
    positions, count up from zero. *)
Lemma slots_count_up (di si : list nat) (n k : nat) :
  (forall i, i < n ->
     exists k', nth_error di i = Some k' /\
                nth_error si i = Some (allocated di i k')) ->
  forall P, P <= n ->
    map snd (filter (fun p => fst p =? k) (firstn P (combine di si)))
    = seq 0 (allocated di P k).
Proof.
  intros H. induction P as [|P IH]; intros HP.
  - reflexivity.
  - destruct (H P ltac:(lia)) as (k' & E1 & E2).
    rewrite (firstn_succ_nth _ _ (nth_error_combine _ _ _ E1 E2)).
    rewrite filter_app, map_app, IH by lia.
    rewrite (allocated_succ _ _ k E1). simpl.
    destruct (Nat.eq_dec k' k) as [->|Hne].
    + rewrite Nat.eqb_refl. simpl.
      rewrite Nat.add_1_r, seq_S. reflexivity.
    + apply Nat.eqb_neq in Hne. rewrite Hne. simpl.
      now rewrite Nat.add_0_r, app_nil_r.
Qed.

Section Lookup.

Context {R : Type} {NR : Num R} {A : Type}.

(** C3.  On a constructed view, [get(i)] for [0 <= i < S] is
    [source[dataset_index[i]][sample_index[i] mod max(len, 1)]]; and the
    local indices handed to a source of length [L > 0] that received [m]
    positions are [0 mod L, 1 mod L, ..., (m - 1) mod L]: they run through
    [0 .. L-1] cyclically. *)
Theorem getitem_wraps (cpp_utils : option (@native_builder R))
    (ds : list (Dataset A)) (w : option (list R)) (b : DatasetBlender A) :
  conforms cpp_utils ->
  __init__ cpp_utils ds w = Ok b ->
  (forall i : Z, (0 <= i < Z.of_nat (__len__ b))%Z ->
     exists k local d,
       nth_error (blend_dataset_index b) (Z.to_nat i) = Some k /\
       nth_error (blend_sample_index b) (Z.to_nat i) = Some local /\
       nth_error ds k = Some d /\
       __getitem__ b i = item d (Z.of_nat (local mod Nat.max (len d) 1))) /\
  (forall k d, nth_error ds k = Some d -> 0 < len d ->
     local_indices b k (len d)
     = map (fun t => t mod len d)
           (seq 0 (allocated (blend_dataset_index b) (__len__ b) k))).
Proof.
  intros Hc H. rewrite (init_conforms ds w Hc) in H.
  destruct (init_arrays _ _ H) as (Hdi & Hsi & Hslot).
  destruct (init_Ok_inv _ _ H) as (Hds & _).
  split.
  - intros i [Hi0 Hi1]. unfold __len__ in Hi1.
    destruct (Hslot (Z.to_nat i) ltac:(lia)) as (k & Ek & Hk & Ec).
    destruct (lookup_lt ds Hk) as (d & Ed & Ed').
    exists k, (allocated (blend_dataset_index b) (Z.to_nat i) k), d.
    split; [exact Ek|]. split; [exact Ec|]. split; [exact Ed'|].
    unfold __getitem__. rewrite !getitem_nonneg by assumption.
    apply lookup_Ok in Ek, Ec. rewrite Ek. simpl.
    rewrite Hds, Ed. simpl. rewrite Ec. reflexivity.
  - intros k d Ed HL. unfold local_indices, __len__.
    rewrite Nat.max_l by lia.
    assert (Hrec : forall i, i < size b ->
              exists k', nth_error (blend_dataset_index b) i = Some k' /\
                nth_error (blend_sample_index b) i
                = Some (allocated (blend_dataset_index b) i k')).
    { intros i Hi. destruct (Hslot i Hi) as (k' & E1 & _ & E2). eauto. }
    rewrite <- (@slots_count_up (blend_dataset_index b) (blend_sample_index b)
                  (size b) k Hrec (size b) (Nat.le_refl _)).
    rewrite firstn_all2 by (rewrite length_combine; lia).
    now rewrite map_map.
Qed.

End Lookup.

(** A source of length 3 that receives all 7 positions of a view is read
    at the local indices 0, 1, 2, 0, 1, 2, 0. *)
Lemma getitem_wraps_witness :
  exists b : DatasetBlender nat,
    __init__ None [list_dataset [10; 11; 12]; list_dataset [20; 21; 22; 23]]
             (Some [1%float; 0%float]) = Ok b /\
    local_indices b 0 3 = [0; 1; 2; 0; 1; 2; 0] /\
    __getitem__ b 6 = Ok 10.
Proof.
  destruct (__init__ None
              [list_dataset [10; 11; 12]; list_dataset [20; 21; 22; 23]]
              (Some [1%float; 0%float])) as [b|e] eqn:E;
    [|vm_compute in E; discriminate].
  exists b. split; [reflexivity|].
  destruct (@getitem_wraps float float_Num nat None _ _ b
              (fun _ _ _ _ _ => eq_refl) E) as [_ H].
  specialize (H 0 (list_dataset [10; 11; 12]) eq_refl ltac:(simpl; lia)).
  vm_compute in E. injection E as <-.
  split; [exact H | reflexivity].
Defined.

Section Boundaries.

Context {R : Type} {NR : Num R} {A : Type}.

(** C9, as the code has it.  On a constructed view of length [S], [get(i)]
    raises [IndexError] for every [i >= S] and every [i < -S]; an index in
    [-S, 0) is not an error: it reads position [S + i], as Python's
    negative indices do. *)
Theorem getitem_out_of_bounds (cpp_utils : option (@native_builder R))
    (ds : list (Dataset A)) (w : option (list R))
    (b : DatasetBlender A) (idx : Z) :
  conforms cpp_utils ->
  __init__ cpp_utils ds w = Ok b ->
  ((Z.of_nat (__len__ b) <= idx \/ idx < - Z.of_nat (__len__ b))%Z ->
   __getitem__ b idx = Raise IndexError) /\
  ((- Z.of_nat (__len__ b) <= idx < 0)%Z ->
   __getitem__ b idx = __getitem__ b (Z.of_nat (__len__ b) + idx)).
Proof.
  intros Hc H. rewrite (init_conforms ds w Hc) in H.
  destruct (init_arrays _ _ H) as (Hdi & Hsi & _).
  unfold __len__, __getitem__. split; intros Hidx.
  - rewrite getitem_out_of_range by (rewrite Hdi; exact Hidx). reflexivity.
  - assert (E1 := @getitem_negative _ (blend_dataset_index b) idx).
    assert (E2 := @getitem_negative _ (blend_sample_index b) idx).
    rewrite Hdi in E1. rewrite Hsi in E2.
    rewrite <- (E1 Hidx), <- (E2 Hidx). reflexivity.
Qed.

Lemma mapM_truediv (lengths : list nat) (size : nat) :
  size <> 0 ->
  mapM (fun length => truediv length size) lengths
  = Ok (map (fun l => fdiv (of_int (Z.of_nat l)) (of_int (Z.of_nat size)))
            lengths).
Proof.
  intros H. unfold truediv. apply Nat.eqb_neq in H. rewrite H.
  induction lengths as [|l ls IH]; simpl; auto. rewrite IH. reflexivity.
Qed.

(** C6.  Whatever the weights and whichever builder is selected, a
    constructed view has the sum of the source lengths as its length; and
    construction succeeds whenever the weights pass the two checks (for
    absent weights: whenever the sources are not all empty and the
    automatic weights pass the sum check). *)
Theorem len_is_total_length (cpp_utils : option (@native_builder R))
    (ds : list (Dataset A)) (w : option (list R)) :
  (forall b, __init__ cpp_utils ds w = Ok b ->
     __len__ b = list_sum (map (@len A) ds)) /\
  (conforms cpp_utils ->
   match w with
   | Some ws => length ws = length ds /\ fgt (np_sum ws) (of_int 0) = true
   | None =>
       list_sum (map (@len A) ds) <> 0 /\
       fgt (np_sum (map (fun l => fdiv (of_int (Z.of_nat l))
                                       (of_int (Z.of_nat
                                          (list_sum (map (@len A) ds)))))
                        (map (@len A) ds)))
           (of_int 0) = true
   end ->
   exists b, __init__ cpp_utils ds w = Ok b /\
     __len__ b = list_sum (map (@len A) ds)).
Proof.
  split.
  - intros b H. unfold __init__ in H.
    apply bind_Ok_inv in H as (raw & _ & H).
    destruct (negb (length ds =? length raw)); [discriminate|].
    apply bind_Ok_inv in H as (weights & _ & H).
    apply bind_Ok_inv in H as (arrays & _ & H).
    injection H as <-. reflexivity.
  - intros Hc Hv. rewrite (init_conforms ds w Hc).
    assert (Hraw : exists raw,
              match w with
              | None => mapM (fun l => truediv l (list_sum (map (@len A) ds)))
                             (map (@len A) ds)
              | Some ws => Ok ws
              end = Ok raw /\
              length raw = length ds /\ fgt (np_sum raw) (of_int 0) = true).
    { destruct w as [ws|].
      - exists ws. tauto.
      - destruct Hv as [Hnz Hgt]. eexists. split; [|split; [|exact Hgt]].
        + apply mapM_truediv. exact Hnz.
        + now rewrite !length_map. }
    destruct Hraw as (raw & Eraw & Hlen & Hgt).
    set (S := list_sum (map (@len A) ds)) in *.
    assert (Hbuild : exists st,
              _build_blending_indices (repeat 0 S) (repeat 0 S)
                (map (fun x => fdiv x (np_sum raw)) raw) (length ds) S = Ok st).
    { destruct (length ds) as [|n] eqn:En.
      - apply length_zero_iff_nil in En. subst ds. simpl in S. subst S.
        eexists. reflexivity.
      - destruct (@build_prefixes R NR (map (fun x => fdiv x (np_sum raw)) raw)
                    (Datatypes.S n) S (repeat 0 S) (repeat 0 S))
          as (final & E & _);
          try lia; try apply repeat_length; eauto.
        rewrite length_map. exact Hlen. }
    destruct Hbuild as (st & Est).
    exists (mkBlender ds S (dataset_index st) (dataset_sample_index st)).
    split; [|reflexivity].
    unfold __init__. fold S. rewrite Eraw. simpl.
    rewrite Hlen, Nat.eqb_refl. simpl.
    unfold _normalize_weight. rewrite Hgt. simpl.
    rewrite Est. reflexivity.
Qed.

(** C8.  An explicit weight list whose length is not the number of
    sources makes construction fail at the count check, before the
    weights are normalised and before any index is built. *)
Theorem weight_count_mismatch (cpp_utils : option (@native_builder R))
    (ds : list (Dataset A)) (ws : list R) :
  length ws <> length ds ->
  __init__ cpp_utils ds (Some ws) = Raise ConfigurationError.
Proof.
  intros H. unfold __init__. simpl.
  replace (length ds =? length ws) with false
    by (symmetry; apply Nat.eqb_neq; congruence).
  reflexivity.
Qed.

(** C10, as the code has it.  With the weights absent and a total source
    length of 0: if there is at least one source, construction fails with
    [ZeroDivisionError] while deriving the automatic weights, before the
    sum check; if the source list is empty no division takes place and
    construction fails at the sum check. *)
Theorem absent_weights_empty_sources (cpp_utils : option (@native_builder R))
    (ds : list (Dataset A)) :
  list_sum (map (@len A) ds) = 0 ->
  (ds <> [] -> __init__ cpp_utils ds None = Raise ZeroDivisionError) /\
  (ds = [] -> fgt (of_int 0 : R) (of_int 0) = false ->
   __init__ cpp_utils ds None = Raise InvalidWeightError).
Proof.
  intros H0. split.
  - intros Hne. destruct ds as [|d ds]; [congruence|].
    unfold __init__. rewrite H0. reflexivity.
  - intros -> Hirr. unfold __init__. simpl.
    unfold _normalize_weight, np_sum. simpl. rewrite Hirr. reflexivity.
Qed.

End Boundaries.

(** A view of length 2: index 5 raises, index -1 reads position 1. *)
Lemma getitem_out_of_bounds_witness :
  exists b : DatasetBlender nat,
    __init__ None [list_dataset [7; 8]] (@None (list float)) = Ok b /\
    __getitem__ b 5 = Raise IndexError /\
    __getitem__ b (-1) = __getitem__ b 1.
Proof.
  destruct (__init__ None [list_dataset [7; 8]] (@None (list float)))
    as [b|e] eqn:E; [|vm_compute in E; discriminate].
  exists b. split; [reflexivity|].
  assert (Hlen : __len__ b = 2) by (vm_compute in E; now injection E as <-).
  split.
  - apply (@getitem_out_of_bounds float float_Num nat None _ _ b 5%Z
             (fun _ _ _ _ _ => eq_refl) E).
    rewrite Hlen. simpl. lia.
  - destruct (@getitem_out_of_bounds float float_Num nat None _ _ b (-1)%Z
                (fun _ _ _ _ _ => eq_refl) E) as [_ H].
    rewrite Hlen in H. apply H. simpl. lia.
Defined.

(** C9 fails as stated: on a view of length 1, [get(-1)] is outside
    [0, 1) and yet returns the sample at position 0. *)
Lemma negative_index_counterexample :
  exists b : DatasetBlender nat,
    __init__ None [list_dataset [7]] (@None (list float)) = Ok b /\
    __len__ b = 1 /\
    ~ (0 <= -1 < Z.of_nat (__len__ b))%Z /\
    __getitem__ b (-1) = Ok 7 /\
    __getitem__ b (-1) <> Raise IndexError.
Proof.
  eexists. split; [vm_compute; reflexivity|].
  split; [reflexivity|]. split; [simpl; lia|].
  split; [reflexivity | discriminate].
Qed.

Lemma len_is_total_length_witness :
  exists b : DatasetBlender nat,
    __init__ None [list_dataset [1; 2]; list_dataset [3; 4; 5]]
             (@None (list float)) = Ok b /\
    __len__ b = 5.
Proof.
  destruct (@len_is_total_length float float_Num nat None
              [list_dataset [1; 2]; list_dataset [3; 4; 5]] None) as [_ H].
  apply H; [intros di si weights n size; reflexivity|].
  split; [simpl; lia | vm_compute; reflexivity].
Defined.

Lemma weight_count_mismatch_witness :
  __init__ None [list_dataset [1; 2]] (Some [1%float; 2%float])
  = Raise ConfigurationError.
Proof.
  apply weight_count_mismatch. simpl. lia.
Defined.

Lemma absent_weights_empty_sources_witness :
  __init__ None [list_dataset (@nil nat); list_dataset (@nil nat)]
           (@None (list float)) = Raise ZeroDivisionError /\
  __init__ None (@nil (Dataset nat)) (@None (list float))
  = Raise InvalidWeightError.
Proof.
  split.
  - apply (@absent_weights_empty_sources float float_Num nat None
             [list_dataset (@nil nat); list_dataset (@nil nat)] eq_refl).
    discriminate.
  - apply (@absent_weights_empty_sources float float_Num nat None [] eq_refl);
      reflexivity.
Defined.

(** C10 fails as stated for an empty source list: the total length is 0,
    no division is evaluated, and construction fails at the sum check
    instead, in binary64 and in exact arithmetic alike. *)
Lemma empty_source_list_counterexample :
  list_sum (map (@len nat) []) = 0 /\
  __init__ None (@nil (Dataset nat)) (@None (list float))
  = Raise InvalidWeightError /\
  __init__ None (@nil (Dataset nat)) (@None (list Q))
  = Raise InvalidWeightError /\
  __init__ None (@nil (Dataset nat)) (@None (list float))
  <> Raise ZeroDivisionError.
Proof.
  split; [reflexivity|]. split; [reflexivity|]. split; [reflexivity|].
  discriminate.
Qed.

(** ** Determinism *)

Section Determinism.

Context {R : Type} {NR : Num R}.

Variables (weights : list R) (N : nat).

Lemma step_agree (P : nat) (st1 st2 : state) :
  agree P st1 st2 ->
  both (agree (Datatypes.S P)) (step weights N st1 P) (step weights N st2 P).
Proof.
  destruct st1 as [di1 si1 cur1], st2 as [di2 si2 cur2].
  intros (Hc & Hd & Hs & Fd & Fs). simpl in *. subst cur2.
  unfold step. simpl.
  destruct (pick weights N cur1 P) as [k|e]; simpl; [|reflexivity].
  unfold store. rewrite Hd.
  destruct (P <? length di2) eqn:Ed; simpl; [|reflexivity].
  destruct (lookup cur1 k) as [c|e]; simpl; [|reflexivity].
  rewrite Hs.
  destruct (P <? length si2) eqn:Es; simpl; [|reflexivity].
  destruct (k <? length cur1); simpl; [|reflexivity].
  apply Nat.ltb_lt in Ed, Es.
  unfold agree. cbn [dataset_index dataset_sample_index current_samples].
  rewrite !length_update.
  rewrite !firstn_succ_update by lia. rewrite Fd, Fs. auto.
Qed.

Lemma loop_agree (n : nat) :
  forall P st1 st2,
    agree P st1 st2 ->
    both (agree (P + n)) (loop weights N (seq P n) st1)
                         (loop weights N (seq P n) st2).
Proof.
  induction n as [|n IH]; intros P st1 st2 H; simpl.
  - now rewrite Nat.add_0_r.
  - assert (Hs := step_agree H).
    destruct (step weights N st1 P) as [a|e1], (step weights N st2 P) as [b|e2];
      simpl in *; try contradiction; auto.
    replace (P + Datatypes.S n) with (Datatypes.S P + n) by lia.
    now apply IH.
Qed.

Lemma step_lengths (st st' : state) (i : nat) :
  step weights N st i = Ok st' ->
  length (dataset_index st') = length (dataset_index st) /\
  length (dataset_sample_index st') = length (dataset_sample_index st).
Proof.
  unfold step, store. intros H.
  apply bind_Ok_inv in H as (k & _ & H).
  destruct (i <? length (dataset_index st)); simpl in H; [|discriminate].
  apply bind_Ok_inv in H as (c & _ & H).
  destruct (i <? length (dataset_sample_index st)); simpl in H; [|discriminate].
  destruct (k <? length (current_samples st)); simpl in H; [|discriminate].
  injection H as <-. simpl. now rewrite !length_update.
Qed.

Lemma loop_lengths (range : list nat) :
  forall st st',
    loop weights N range st = Ok st' ->
    length (dataset_index st') = length (dataset_index st) /\
    length (dataset_sample_index st') = length (dataset_sample_index st).
Proof.
  induction range as [|i range IH]; simpl; intros st st' H.
  - injection H as <-. auto.
  - apply bind_Ok_inv in H as (st1 & E1 & H).
    destruct (step_lengths _ _ E1) as [<- <-]. now apply IH.
Qed.

(** The arrays handed to the builder only provide room: what they hold
    does not reach the result. *)
Lemma build_ignores_initial_contents (S : nat) (di0 si0 di0' si0' : list nat) :
  length di0 = S -> length si0 = S -> length di0' = S -> length si0' = S ->
  _build_blending_indices di0 si0 weights N S
  = _build_blending_indices di0' si0' weights N S.
Proof.
  intros H1 H2 H3 H4. unfold _build_blending_indices.
  set (st1 := mkState di0 si0 (repeat 0 N)).
  set (st2 := mkState di0' si0' (repeat 0 N)).
  assert (H0 : agree 0 st1 st2).
  { unfold agree. simpl. repeat split; congruence. }
  assert (H := loop_agree S H0). simpl in H.
  destruct (loop weights N (seq 0 S) st1) as [a|e1] eqn:Ea,
           (loop weights N (seq 0 S) st2) as [b|e2] eqn:Eb;
    simpl in H; try contradiction; [|congruence].
  destruct (loop_lengths _ _ Ea) as [La Ma].
  destruct (loop_lengths _ _ Eb) as [Lb Mb].
  destruct H as (Hc & _ & _ & Fd & Fs). simpl in *.
  rewrite !firstn_all2 in Fd, Fs by lia.
  destruct a, b. simpl in *. congruence.
Qed.

End Determinism.

Section Purity.

Context {R : Type} {NR : Num R} {A : Type}.

Lemma getitem_resolve (self : DatasetBlender A) (idx : Z) :
  __getitem__ self idx
  = (r <- resolve self idx ;;
     d <- lookup (datasets self) (fst r) ;;
     item d (Z.of_nat (snd r))).
Proof.
  unfold __getitem__, resolve.
  destruct (getitem (blend_dataset_index self) idx) as [k|e]; simpl; auto.
  destruct (lookup (datasets self) k) as [d|e] eqn:E; simpl; auto.
  destruct (getitem (blend_sample_index self) idx) as [c|e]; simpl; auto.
  now rewrite E.
Qed.

Lemma lookup_same_len (ds1 ds2 : list (Dataset A)) (k : nat) :
  map (@len A) ds1 = map (@len A) ds2 ->
  both (fun d1 d2 => len d1 = len d2) (lookup ds1 k) (lookup ds2 k).
Proof.
  intros H. apply (f_equal (fun l => nth_error l k)) in H.
  rewrite !nth_error_map in H. unfold lookup.
  destruct (nth_error ds1 k), (nth_error ds2 k); simpl in *; congruence.
Qed.

(** C5.  Index building and lookup are deterministic.  (1) The builder's
    result depends on the weights, the number of sources and the size
    only, not on what the two arrays it fills held before.  (2) Two
    constructions from sources of the same lengths and the same weight
    argument end alike, and when they succeed the two views have the same
    index arrays and resolve every [i] to the same source and the same
    local index, whatever the sources contain.  (3) [get(i)] is that
    resolution followed by the access to the source. *)
Theorem blend_deterministic :
  (forall (weights : list R) (N S : nat) (di0 si0 di0' si0' : list nat),
     length di0 = S -> length si0 = S -> length di0' = S -> length si0' = S ->
     _build_blending_indices di0 si0 weights N S
     = _build_blending_indices di0' si0' weights N S) /\
  (forall (cpp_utils : option (@native_builder R))
          (ds1 ds2 : list (Dataset A)) (w : option (list R)),
     map (@len A) ds1 = map (@len A) ds2 ->
     both (fun b1 b2 =>
             __len__ b1 = __len__ b2 /\
             blend_dataset_index b1 = blend_dataset_index b2 /\
             blend_sample_index b1 = blend_sample_index b2 /\
             forall idx, resolve b1 idx = resolve b2 idx)
          (__init__ cpp_utils ds1 w) (__init__ cpp_utils ds2 w)) /\
  (forall (b : DatasetBlender A) (idx : Z),
     __getitem__ b idx
     = (r <- resolve b idx ;;
        d <- lookup (datasets b) (fst r) ;;
        item d (Z.of_nat (snd r)))).
Proof.
  split; [|split].
  - intros. now apply build_ignores_initial_contents.
  - intros cpp_utils ds1 ds2 w H.
    assert (HN : length ds1 = length ds2).
    { apply (f_equal (@length nat)) in H. now rewrite !length_map in H. }
    unfold __init__. rewrite H, HN.
    destruct (match w with
              | Some weights => Ok weights
              | None => mapM (fun length => truediv length
                                (list_sum (map (@len A) ds2)))
                             (map (@len A) ds2)
              end) as [raw|e]; simpl; [|reflexivity].
    destruct (negb (length ds2 =? length raw)); [reflexivity|].
    destruct (_normalize_weight raw) as [weights|e]; simpl; [|reflexivity].
    destruct (build_blending_indices cpp_utils _ _ weights (length ds2) _)
      as [arrays|e]; simpl; [|reflexivity].
    repeat split. intros idx. unfold resolve. simpl.
    destruct (getitem (fst arrays) idx) as [k|e]; simpl; [|reflexivity].
    assert (Hk := @lookup_same_len ds1 ds2 k H).
    destruct (lookup ds1 k) as [d1|e1], (lookup ds2 k) as [d2|e2];
      simpl in *; try contradiction; [|congruence].
    now rewrite Hk.
  - apply getitem_resolve.
Qed.

End Purity.

(** Two sources with the contents swapped for others of the same
    lengths: the views resolve position 3 alike. *)
Lemma blend_deterministic_witness :
  both (fun b1 b2 : DatasetBlender nat => resolve b1 3 = resolve b2 3)
       (__init__ None [list_dataset [1; 2]; list_dataset [3; 4; 5]]
                 (@None (list float)))
       (__init__ None [list_dataset [6; 7]; list_dataset [8; 9; 0]]
                 (@None (list float))) /\
  _build_blending_indices [0; 0] [0; 0] [1%float] 1 2
  = _build_blending_indices [5; 6] [7; 8] [1%float] 1 2.
Proof.
  destruct (@blend_deterministic float float_Num nat) as (H1 & H2 & _).
  split.
  - specialize (H2 None [list_dataset [1; 2]; list_dataset [3; 4; 5]]
                   [list_dataset [6; 7]; list_dataset [8; 9; 0]]
                   None eq_refl).
    destruct (__init__ None [list_dataset [1; 2]; list_dataset [3; 4; 5]] None),
             (__init__ None [list_dataset [6; 7]; list_dataset [8; 9; 0]] None);
      simpl in *; try assumption.
    destruct H2 as (_ & _ & _ & H). apply H.
  - apply H1; reflexivity.
Defined.

(** ** Weight normalisation *)

Section Summation.

Context {R : Type} {NR : Num R}.

Lemma pairwise_sum_eq (fuel : nat) (a : list R) :
  pairwise_sum fuel a
  = if length a <? 8 then fold_left fadd a (of_int 0)
    else if length a <=? PW_BLOCKSIZE then
      let (r, rest) := unrolled (length a / 8 - 1) (firstn 8 a) (skipn 8 a) in
      fold_left fadd rest (lanes_total r)
    else
      match fuel with
      | 0 => of_int 0
      | S fuel' =>
          let n2 := length a / 2 - (length a / 2) mod 8 in
          fadd (pairwise_sum fuel' (firstn n2 a))
               (pairwise_sum fuel' (skipn n2 a))
      end.
Proof.
  destruct fuel; reflexivity.
Qed.

Lemma split_point (n : nat) :
  PW_BLOCKSIZE < n ->
  1 <= n / 2 - (n / 2) mod 8 /\ n / 2 - (n / 2) mod 8 < n.
Proof.
  unfold PW_BLOCKSIZE. intros H.
  assert (H1 : n / 2 < n) by (apply Nat.div_lt; lia).
  assert (H2 : 64 <= n / 2) by (apply Nat.div_le_lower_bound; lia).
  assert (H3 : (n / 2) mod 8 < 8) by (apply Nat.mod_upper_bound; lia).
  lia.
Qed.

(** The recursion of the pairwise sum halves the array: fuel equal to the
    length of the array is never used up, and more fuel changes nothing. *)
Lemma pairwise_sum_fuel (fuel : nat) :
  forall (a : list R) (fuel' : nat),
    length a <= fuel -> length a <= fuel' ->
    pairwise_sum fuel a = pairwise_sum fuel' a.
Proof.
  induction fuel as [|fuel IH]; intros a fuel' H H'.
  - destruct a; [|simpl in H; lia]. destruct fuel'; reflexivity.
  - rewrite (pairwise_sum_eq (Datatypes.S fuel) a), (pairwise_sum_eq fuel' a).
    destruct (length a <? 8); [reflexivity|].
    destruct (length a <=? PW_BLOCKSIZE) eqn:E; [reflexivity|].
    apply Nat.leb_gt in E.
    destruct (@split_point (length a) E) as [H1 H2].
    destruct fuel' as [|fuel']; [unfold PW_BLOCKSIZE in E; lia|].
    cbv zeta. f_equal; apply IH;
      rewrite ?length_firstn, ?length_skipn; lia.
Qed.
End Summation.

(** ** The summation order of [np.sum] keeps an invariant *)

Lemma Qsum_app (l l' : list Q) : (Qsum (l ++ l') == Qsum l + Qsum l')%Q.
Proof.
  induction l as [|x l IH]; simpl; [ring|]. rewrite IH. ring.
Qed.

Lemma firstn_add {A : Type} (n m : nat) (l : list A) :
  firstn (n + m) l = firstn n l ++ firstn m (skipn n l).
Proof.
  revert l. induction n as [|n IH]; intros l; [reflexivity|].
  destruct l as [|x l]; simpl; [now rewrite firstn_nil|]. now rewrite IH.
Qed.

Lemma Forall_firstn {A : Type} (Q : A -> Prop) (n : nat) (l : list A) :
  Forall Q l -> Forall Q (firstn n l).
Proof.
  intros H. revert n. induction H; intros [|n]; simpl; auto.
Qed.

Lemma Forall_skipn {A : Type} (Q : A -> Prop) (n : nat) (l : list A) :
  Forall Q l -> Forall Q (skipn n l).
Proof.
  intros H. revert n. induction H; intros [|n]; simpl; auto.
Qed.

Section PairwiseInvariant.

Context {R : Type} {NR : Num R}.

(** An invariant [P x t c] of the partial sums: [x] is the computed sum
    of numbers of exact sum [t], through at most [c] nested additions.
    It holds of zero and of every number to be added, and one addition
    keeps it as long as the depth [ok]. *)
Variables (val : R -> Q) (leaf : R -> Prop) (P : R -> Q -> nat -> Prop)
          (ok : nat -> Prop).

Hypotheses
  (ok_le : forall c c', c <= c' -> ok c' -> ok c)
  (P_zero : P (of_int 0) 0%Q 0)
  (P_leaf : forall w, leaf w -> P w (val w) 0)
  (P_le : forall x t c c', P x t c -> c <= c' -> P x t c')
  (P_eq : forall x t t' c, P x t c -> (t == t')%Q -> P x t' c)
  (P_add : forall a b ta tb c,
      ok (c + 1) -> P a ta c -> P b tb c -> P (fadd a b) (ta + tb)%Q (c + 1)).

Lemma add_lanes_length (r a : list R) : length (add_lanes r a) = length r.
Proof.
  revert a. induction r as [|x r IH]; intros [|y a]; simpl; auto.
Qed.

Lemma fold_left_P (l : list R) :
  forall acc t c,
    Forall leaf l -> P acc t c -> ok (c + length l) ->
    P (fold_left fadd l acc) (t + Qsum (map val l))%Q (c + length l).
Proof.
  induction l as [|w l IH]; intros acc t c Hl Hacc Hok.
  - simpl. rewrite Nat.add_0_r. apply (P_eq Hacc). simpl. ring.
  - inversion Hl as [|? ? Hw Hl']; subst. cbn [fold_left map Qsum fold_right length].
    cbn [length] in Hok.
    replace (c + S (length l)) with (c + 1 + length l) in * by lia.
    assert (Hstep : P (fadd acc w) (t + val w)%Q (c + 1)).
    { apply P_add; [apply (@ok_le _ (c + 1 + length l)); [lia|exact Hok]
                   | exact Hacc |].
      apply (@P_le _ _ 0); [now apply P_leaf | lia]. }
    apply (P_eq (IH _ _ _ Hl' Hstep Hok)).
    change (fold_right Qplus 0%Q (map val l)) with (Qsum (map val l)). ring.
Qed.

Lemma lanes_ok_leaves (r : list R) :
  Forall leaf r -> lanes_ok P r (Qsum (map val r)) 0.
Proof.
  intros H. exists (map val r). split; [|reflexivity].
  induction H as [|w r Hw Hr IH]; simpl; constructor; auto.
Qed.

Lemma add_lanes_P (r : list R) :
  forall ts blk c,
    Forall2 (fun x t => P x t c) r ts -> Forall leaf blk ->
    length blk = length r -> ok (c + 1) ->
    exists ts', Forall2 (fun x t => P x t (c + 1)) (add_lanes r blk) ts' /\
                (Qsum ts' == Qsum ts + Qsum (map val blk))%Q.
Proof.
  induction r as [|x r IH]; intros ts blk c Hr Hb Hlen Hok.
  - destruct blk; [|discriminate]. inversion Hr; subst.
    exists []. split; [constructor | simpl; ring].
  - destruct blk as [|y blk]; [discriminate|].
    inversion Hr as [|? t ? ts0 Hx Hr']; subst.
    inversion Hb as [|? ? Hy Hb']; subst.
    destruct (IH ts0 blk c Hr' Hb' ltac:(simpl in Hlen; lia) Hok)
      as (ts' & H' & E').
    exists ((t + val y)%Q :: ts'). split.
    + cbn [add_lanes]. constructor; [|exact H'].
      apply P_add; [exact Hok | exact Hx |].
      apply (@P_le _ _ 0); [now apply P_leaf | lia].
    + simpl. simpl in E'. rewrite E'. ring.
Qed.

Lemma unrolled_P (blocks : nat) :
  forall r a T c,
    lanes_ok P r T c -> length r = 8 -> Forall leaf a ->
    8 * blocks <= length a -> ok (c + blocks) ->
    lanes_ok P (fst (unrolled blocks r a))
             (T + Qsum (map val (firstn (8 * blocks) a)))%Q (c + blocks) /\
    length (fst (unrolled blocks r a)) = 8 /\
    snd (unrolled blocks r a) = skipn (8 * blocks) a.
Proof.
  induction blocks as [|b IH]; intros r a T c Hr Hlen Ha Hn Hok.
  - cbn [unrolled fst snd]. rewrite Nat.mul_0_r, Nat.add_0_r.
    split; [|split; [exact Hlen | reflexivity]].
    destruct Hr as (ts & Hts & E). exists ts. split; [exact Hts|].
    rewrite E. simpl. ring.
  - cbn [unrolled].
    replace (8 * S b) with (8 + 8 * b) in * by lia.
    replace (c + S b) with (c + 1 + b) in * by lia.
    destruct Hr as (ts & Hts & E).
    assert (Hblk : length (firstn 8 a) = 8) by (rewrite length_firstn; lia).
    destruct (@add_lanes_P r ts (firstn 8 a) c Hts
                (Forall_firstn 8 Ha) ltac:(lia)
                (@ok_le (c + 1) (c + 1 + b) ltac:(lia) Hok)) as (ts' & Hts' & E').
    assert (Hlen' : length (add_lanes r (firstn 8 a)) = 8).
    { now rewrite add_lanes_length. }
    destruct (IH (add_lanes r (firstn 8 a)) (skipn 8 a)
                (T + Qsum (map val (firstn 8 a)))%Q (c + 1)) as (H1 & H2 & H3).
    + exists ts'. split; [exact Hts'|]. rewrite E', E. reflexivity.
    + exact Hlen'.
    + now apply Forall_skipn.
    + rewrite length_skipn. lia.
    + exact Hok.
    + split; [|split; [exact H2|]].
      * destruct H1 as (ts1 & Hts1 & E1). exists ts1. split; [exact Hts1|].
        rewrite E1, firstn_add, map_app, Qsum_app. ring.
      * rewrite H3, skipn_skipn. f_equal. lia.
Qed.

Lemma lanes_total_P (r : list R) (T : Q) (c : nat) :
  lanes_ok P r T c -> length r = 8 -> ok (c + 3) ->
  P (lanes_total r) T (c + 3).
Proof.
  intros (ts & Hts & E) Hlen Hok.
  destruct r as [|r0 [|r1 [|r2 [|r3 [|r4 [|r5 [|r6 [|r7 [|]]]]]]]]];
    try discriminate.
  repeat match goal with
         | H : Forall2 _ (_ :: _) _ |- _ => inversion H; clear H; subst
         | H : Forall2 _ [] _ |- _ => inversion H; clear H; subst
         end.
  cbn [lanes_total].
  assert (ok1 : ok (c + 1)) by (apply (@ok_le _ (c + 3)); [lia | exact Hok]).
  assert (ok2 : ok (c + 1 + 1)) by (apply (@ok_le _ (c + 3)); [lia | exact Hok]).
  assert (ok3 : ok (c + 1 + 1 + 1))
    by (apply (@ok_le _ (c + 3)); [lia | exact Hok]).
  replace (c + 3) with (c + 1 + 1 + 1) by lia.
  eapply P_eq; [apply P_add; [exact ok3| |];
                (apply P_add; [exact ok2| |]);
                (apply P_add; [exact ok1| |]); eassumption|].
  rewrite <- E. simpl. ring.
Qed.

Lemma pairwise_sum_P (fuel : nat) :
  forall a,
    Forall leaf a -> length a <= fuel -> ok (length a) ->
    P (pairwise_sum fuel a) (Qsum (map val a)) (length a).
Proof.
  induction fuel as [|fuel IH]; intros a Ha Hf Hok.
  - destruct a; [|simpl in Hf; lia]. exact P_zero.
  - rewrite pairwise_sum_eq.
    destruct (length a <? 8) eqn:E8.
    + apply (P_eq (@fold_left_P a _ _ 0 Ha P_zero Hok)). ring.
    + apply Nat.ltb_ge in E8.
      destruct (length a <=? PW_BLOCKSIZE) eqn:E128.
      * set (n := length a) in *. set (b := n / 8 - 1).
        assert (Hdiv := Nat.div_mod_eq n 8).
        assert (Hmod := Nat.mod_upper_bound n 8 ltac:(lia)).
        assert (Hq : 1 <= n / 8) by (apply Nat.div_le_lower_bound; lia).
        assert (Hfirst : length (firstn 8 a) = 8)
          by (rewrite length_firstn; fold n; lia).
        destruct (@unrolled_P b (firstn 8 a) (skipn 8 a)
                    (Qsum (map val (firstn 8 a))) 0) as (H1 & H2 & H3).
        -- apply lanes_ok_leaves, Forall_firstn, Ha.
        -- exact Hfirst.
        -- apply Forall_skipn, Ha.
        -- rewrite length_skipn. fold n. unfold b. lia.
        -- apply (@ok_le _ n); [unfold b; lia | exact Hok].
        -- destruct (unrolled b (firstn 8 a) (skipn 8 a)) as [r rest] eqn:Eu.
           cbn [fst snd] in H1, H2, H3. cbn [Nat.add] in H1.
           assert (Hrest : rest = skipn (8 + 8 * b) a).
           { rewrite H3, skipn_skipn. f_equal. lia. }
           assert (Hlr : length rest = n mod 8).
           { rewrite Hrest, length_skipn. fold n. unfold b. lia. }
           assert (Hc : b + 3 + length rest <= n) by (rewrite Hlr; unfold b; lia).
           assert (Ht := @lanes_total_P r _ b H1 H2
                           (@ok_le (b + 3) n ltac:(lia) Hok)).
           assert (Hfold := @fold_left_P rest _ _ _
                              ltac:(rewrite Hrest; apply Forall_skipn, Ha)
                              Ht (@ok_le _ n Hc Hok)).
           apply (@P_le _ _ (b + 3 + length rest)); [|exact Hc].
           apply (P_eq Hfold).
           rewrite Hrest.
           rewrite <- (firstn_skipn (8 + 8 * b) a) at 4.
           rewrite map_app, Qsum_app, firstn_add, map_app, Qsum_app. ring.
      * apply Nat.leb_gt in E128.
        destruct (@split_point (length a) E128) as [H1 H2].
        set (n := length a) in *. set (n2 := n / 2 - (n / 2) mod 8) in *.
        assert (L1 : length (firstn n2 a) = n2)
          by (rewrite length_firstn; fold n; lia).
        assert (L2 : length (skipn n2 a) = n - n2)
          by (rewrite length_skipn; reflexivity).
        assert (Hl := IH (firstn n2 a) (Forall_firstn n2 Ha) ltac:(lia)
                        (@ok_le (length (firstn n2 a)) n ltac:(lia) Hok)).
        assert (Hr := IH (skipn n2 a) (Forall_skipn n2 Ha) ltac:(lia)
                        (@ok_le (length (skipn n2 a)) n ltac:(lia) Hok)).
        rewrite L1 in Hl. rewrite L2 in Hr.
        apply (@P_le _ _ (n - 1 + 1)); [|lia].
        eapply P_eq;
          [apply P_add;
           [apply (@ok_le _ n); [lia | exact Hok]
           | apply (P_le Hl); lia | apply (P_le Hr); lia]|].
        rewrite <- (firstn_skipn n2 a) at 3. rewrite map_app, Qsum_app.
        reflexivity.
Qed.

Lemma np_sum_P (a : list R) :
  Forall leaf a -> ok (length a + 1) ->
  P (np_sum a) (Qsum (map val a)) (length a + 1).
Proof.
  intros Ha Hok. unfold np_sum. destruct a as [|x a'] eqn:Ea.
  - apply (@P_le _ _ 0); [exact P_zero | lia].
  - rewrite <- Ea in *. clear Ea.
    eapply P_eq;
      [apply P_add;
       [exact Hok
       | apply (@P_le _ _ 0); [exact P_zero | lia]
       | apply pairwise_sum_P;
         [exact Ha | lia | apply (@ok_le _ (length a + 1)); [lia | exact Hok]]]|].
    ring.
Qed.

End PairwiseInvariant.

(** ** The computed sum and the quotients in binary64 *)

Unset Implicit Arguments.
Open Scope Z_scope.
Open Scope Q_scope.

Lemma u64_value : u64 == 1 # 9007199254740992.
Proof. vm_compute. reflexivity. Qed.

Lemma Qnat_nonneg (n : nat) : 0 <= Qnat n.
Proof. unfold Qnat. change 0 with (inject_Z 0). rewrite <- Zle_Qle. lia. Qed.

Lemma Qnat_succ (n : nat) : Qnat (n + 1) == Qnat n + 1.
Proof.
  unfold Qnat. rewrite Nat2Z.inj_add, inject_Z_plus. reflexivity.
Qed.

Lemma Qnat_le (n m : nat) : (n <= m)%nat -> Qnat n <= Qnat m.
Proof. intros H. unfold Qnat. rewrite <- Zle_Qle. lia. Qed.

Lemma depth_small (c : nat) :
  depth_ok c -> 0 <= Qnat c * u64 /\ Qnat c * u64 <= 1 # 2.
Proof.
  unfold depth_ok. intros H. assert (H0 := Qnat_nonneg c).
  assert (H1 : Qnat c <= 4503599627370496).
  { unfold Qnat. change 4503599627370496 with (inject_Z (2 ^ 52)).
    now rewrite <- Zle_Qle. }
  rewrite u64_value. lra.
Qed.

Lemma float_nonneg_value (x : float) : float_nonneg x -> 0 <= F2Q x.
Proof. apply sf_nonneg_value. Qed.

Lemma fadd_cases (a b : float) :
  float_nonneg a -> float_nonneg b ->
  Prim2SF (a + b) = S754_infinity false /\ 2 ^ 1023 <= F2Q a + F2Q b \/
  float_nonneg (a + b) /\
  Qabs (F2Q (a + b) - (F2Q a + F2Q b)) <= u64 * F2Q (a + b).
Proof.
  intros Ha Hb. unfold float_nonneg, F2Q. rewrite FloatAxioms.add_spec.
  apply SFadd_nonneg_rel; auto using Prim2SF_valid.
Qed.

Lemma fadd_infinity_l (a b : float) :
  Prim2SF a = S754_infinity false ->
  float_nonneg b \/ Prim2SF b = S754_infinity false ->
  Prim2SF (a + b) = S754_infinity false.
Proof.
  intros Ha Hb. rewrite FloatAxioms.add_spec, Ha. now apply SFadd_infinity_l.
Qed.

Lemma fadd_infinity_r (a b : float) :
  float_nonneg a \/ Prim2SF a = S754_infinity false ->
  Prim2SF b = S754_infinity false ->
  Prim2SF (a + b) = S754_infinity false.
Proof.
  intros Ha Hb. rewrite FloatAxioms.add_spec, Hb. now apply SFadd_infinity_r.
Qed.

Lemma sums_to_zero : sums_to (of_int 0) 0 0.
Proof.
  right. split; [exact I|]. change (F2Q (of_int 0)) with 0. split; lra.
Qed.

Lemma sums_to_leaf (w : float) : float_nonneg w -> sums_to w (F2Q w) 0.
Proof.
  intros H. right. split; [exact H|]. change (Qnat 0) with 0.
  assert (H0 := float_nonneg_value w H). split; lra.
Qed.

Lemma sums_to_nonneg (x : float) (t : Q) (c : nat) :
  depth_ok c -> sums_to x t c -> 0 <= t.
Proof.
  intros Hc H. destruct (depth_small c Hc) as [H0 H1].
  assert (HB := pow2_pos 1023). unfold sums_to in H.
  set (y := Qnat c * u64) in *. set (B := 2 ^ 1023) in *. clearbody y B.
  destruct H as [[_ H]|(Hx & H & _)].
  - assert (P1 : 0 <= B * (1 - y)) by (apply Qmult_le_0_compat; lra). lra.
  - assert (HV := float_nonneg_value x Hx). set (V := F2Q x) in *. clearbody V.
    assert (P1 : 0 <= V * (1 - y)) by (apply Qmult_le_0_compat; lra). lra.
Qed.

Lemma sums_to_le (x : float) (t : Q) (c c' : nat) :
  sums_to x t c -> (c <= c')%nat -> sums_to x t c'.
Proof.
  intros H Hc. assert (Hk := Qnat_le c c' Hc). assert (Hu := u64_pos).
  assert (Hp : Qnat c * u64 <= Qnat c' * u64)
    by (apply Qmult_le_compat_r; lra).
  assert (HB := pow2_pos 1023). assert (H0 := Qnat_nonneg c).
  unfold sums_to in *.
  setoid_replace (2 * Qnat c' * u64) with (2 * (Qnat c' * u64)) by ring.
  setoid_replace (2 * Qnat c * u64) with (2 * (Qnat c * u64)) in H by ring.
  assert (Hy : 0 <= Qnat c * u64) by (apply Qmult_le_0_compat; lra).
  set (y := Qnat c * u64) in *. set (y' := Qnat c' * u64) in *.
  set (B := 2 ^ 1023) in *. clearbody y y' B.
  destruct H as [[E H]|(Hx & H1 & H2)]; [left|right].
  - split; [exact E|].
    assert (P1 : 0 <= B * (y' - y)) by (apply Qmult_le_0_compat; lra). lra.
  - split; [exact Hx|]. assert (HV := float_nonneg_value x Hx).
    set (V := F2Q x) in *. clearbody V.
    assert (P1 : 0 <= V * (y' - y)) by (apply Qmult_le_0_compat; lra).
    split; lra.
Qed.

Lemma sums_to_eq (x : float) (t t' : Q) (c : nat) :
  sums_to x t c -> t == t' -> sums_to x t' c.
Proof.
  unfold sums_to. intros H E. rewrite <- E. exact H.
Qed.

Lemma sums_to_add (a b : float) (ta tb : Q) (c : nat) :
  depth_ok (c + 1) -> sums_to a ta c -> sums_to b tb c ->
  sums_to (a + b) (ta + tb) (c + 1).
Proof.
  intros Hok Ha Hb.
  assert (Hc : depth_ok c) by (unfold depth_ok in *; lia).
  assert (Hta := sums_to_nonneg a ta c Hc Ha).
  assert (Htb := sums_to_nonneg b tb c Hc Hb).
  destruct (depth_small _ Hok) as [_ H1]. destruct (depth_small c Hc) as [H0 _].
  assert (Hu := u64_pos). assert (Hu1 : u64 <= 1 # 2) by (rewrite u64_value; lra).
  assert (HB := pow2_pos 1023).
  unfold sums_to.
  setoid_replace (2 * Qnat (c + 1) * u64) with (2 * (Qnat c * u64) + 2 * u64)
    by (rewrite Qnat_succ; ring).
  setoid_replace (Qnat (c + 1) * u64) with (Qnat c * u64 + u64)
    by (rewrite Qnat_succ; ring).
  setoid_replace (Qnat (c + 1) * u64) with (Qnat c * u64 + u64) in H1
    by (rewrite Qnat_succ; ring).
  unfold sums_to in Ha, Hb.
  setoid_replace (2 * Qnat c * u64) with (2 * (Qnat c * u64)) in Ha by ring.
  setoid_replace (2 * Qnat c * u64) with (2 * (Qnat c * u64)) in Hb by ring.
  set (y := Qnat c * u64) in *. set (B := 2 ^ 1023) in *. set (u := u64) in *.
  destruct Ha as [[Ea Ha]|(Na & La & Ua)].
  - left. split.
    + apply fadd_infinity_l; [exact Ea|]. destruct Hb as [[Eb _]|[Nb _]]; auto.
    + clearbody y B u. nra.
  - destruct Hb as [[Eb Hb]|(Nb & Lb & Ub)].
    + left. split.
      * apply fadd_infinity_r; [now left | exact Eb].
      * clearbody y B u. nra.
    + assert (HVa := float_nonneg_value a Na).
      assert (HVb := float_nonneg_value b Nb).
      destruct (fadd_cases a b Na Nb) as [[E Hbig]|[N Herr]].
      * left. split; [exact E|]. fold B in Hbig.
        set (Va := F2Q a) in *. set (Vb := F2Q b) in *. clearbody y B u Va Vb.
        assert (P1 : 0 <= (Va + Vb - B) * (1 - y)) by (apply Qmult_le_0_compat; lra).
        assert (P2 : 0 <= B * u) by (apply Qmult_le_0_compat; lra).
        nra.
      * right. split; [exact N|].
        assert (HV := float_nonneg_value _ N). fold u in Herr.
        apply Qabs_Qle_condition in Herr. destruct Herr as [Hl Hr].
        set (Va := F2Q a) in *. set (Vb := F2Q b) in *.
        set (V := F2Q (a + b)) in *. clearbody y B u Va Vb V.
        assert (P1 : 0 <= (Va + Vb - V * (1 - u)) * (1 - y))
          by (apply Qmult_le_0_compat; lra).
        assert (P2 : 0 <= (V * (1 + u) - (Va + Vb)) * (1 + 2 * y))
          by (apply Qmult_le_0_compat; lra).
        assert (P3 : 0 <= V * u * y)
          by (repeat apply Qmult_le_0_compat; lra).
        assert (P4 : 0 <= V * u * (1 - 2 * y - 2 * u))
          by (repeat apply Qmult_le_0_compat; lra).
        split; nra.
Qed.

(** The sum computed by [np.sum] for numbers that are not negative. *)
Lemma np_sum_sums_to (ws : list float) :
  Forall float_nonneg ws -> depth_ok (length ws + 1) ->
  sums_to (np_sum ws) (Qsum (map F2Q ws)) (length ws + 1).
Proof.
  intros Hws Hok.
  apply (@np_sum_P float float_Num F2Q float_nonneg sums_to depth_ok).
  - unfold depth_ok. intros c c' H H'. lia.
  - exact sums_to_zero.
  - exact sums_to_leaf.
  - exact sums_to_le.
  - exact sums_to_eq.
  - exact sums_to_add.
  - exact Hws.
  - exact Hok.
Qed.

Lemma float_infinity (x : float) :
  Prim2SF x = S754_infinity false -> x = infinity.
Proof.
  intros H. rewrite <- (SF2Prim_Prim2SF x), H. reflexivity.
Qed.

Lemma eta64_small : eta64 <= 1 # 20282409603651670423947251286016.
Proof.
  unfold eta64. apply Qle_trans with (2 ^ (-104)).
  - apply pow2_le. lia.
  - vm_compute. discriminate.
Qed.

(** The sum check of [_normalize_weight] on a sum that is not negative. *)
Lemma sum_check_nonneg (s : float) :
  float_nonneg s ->
  (fgt s (of_int 0) = true ->
   exists m e, Prim2SF s = S754_finite false m e) /\
  (fgt s (of_int 0) = false -> F2Q s == 0).
Proof.
  unfold float_nonneg, F2Q. change (fgt s (of_int 0)) with (PrimFloat.ltb 0%float s).
  rewrite FloatAxioms.ltb_spec. change (Prim2SF 0%float) with (S754_zero false).
  destruct (Prim2SF s) as [sg|sg| |[] m e]; cbn; intros H; try tauto.
  - split; [discriminate | reflexivity].
  - split; [eauto | discriminate].
Qed.

Lemma sum_check_infinity (s : float) :
  Prim2SF s = S754_infinity false -> fgt s (of_int 0) = true.
Proof.
  intros H. change (fgt s (of_int 0)) with (PrimFloat.ltb 0%float s).
  rewrite FloatAxioms.ltb_spec, H. reflexivity.
Qed.

Lemma fdiv_cases (w s : float) (m : positive) (e : Z) :
  float_nonneg w -> Prim2SF s = S754_finite false m e ->
  Prim2SF (w / s) = S754_infinity false /\ 2 ^ 1023 <= F2Q w / F2Q s \/
  float_nonneg (w / s) /\ near (F2Q (w / s)) (F2Q w / F2Q s).
Proof.
  intros Hw Hs. unfold float_nonneg, F2Q. rewrite FloatAxioms.div_spec, Hs.
  now apply SFdiv_nonneg_cases.
Qed.

Lemma Qsum_nonneg (l : list Q) : Forall (fun q => 0 <= q) l -> 0 <= Qsum l.
Proof.
  induction 1 as [|q l Hq Hl IH]; simpl; [lra|].
  change (fold_right Qplus 0 l) with (Qsum l). lra.
Qed.

Lemma Qsum_member (l : list Q) (q : Q) :
  Forall (fun q => 0 <= q) l -> In q l -> q <= Qsum l.
Proof.
  induction 1 as [|x l Hx Hl IH]; simpl; [tauto|].
  change (fold_right Qplus 0 l) with (Qsum l).
  assert (H0 := Qsum_nonneg l Hl). intros [->|Hin]; [lra|].
  specialize (IH Hin). lra.
Qed.

Lemma Qsum_zero (l : list Q) :
  Forall (fun q => 0 <= q) l -> Qsum l <= 0 -> Forall (fun q => q == 0) l.
Proof.
  induction 1 as [|x l Hx Hl IH]; simpl; [constructor|].
  change (fold_right Qplus 0 l) with (Qsum l).
  assert (H0 := Qsum_nonneg l Hl). intros H. constructor; [lra|].
  apply IH. lra.
Qed.

Lemma Qsum_all_zero (l : list Q) : Forall (fun q => q == 0) l -> Qsum l == 0.
Proof.
  induction 1 as [|x l Hx Hl IH]; simpl; [reflexivity|].
  change (fold_right Qplus 0 l) with (Qsum l). rewrite Hx, IH. reflexivity.
Qed.

Lemma values_nonneg (ws : list float) :
  Forall float_nonneg ws -> Forall (fun q => 0 <= q) (map F2Q ws).
Proof.
  induction 1; simpl; constructor; auto using float_nonneg_value.
Qed.

(** The quotients by a positive sum [s] that is at least half the
    greatest weight: none overflows, each is within the rounding error of
    the exact quotient, and so is their sum. *)
Lemma quotients_sum (s : float) (m : positive) (e : Z) (ws : list float) :
  Prim2SF s = S754_finite false m e ->
  Forall (fun w => float_nonneg w /\ F2Q w <= 2 * F2Q s) ws ->
  Forall float_nonneg (map (fun w => w / s)%float ws) /\
  Qabs (Qsum (map F2Q (map (fun w => w / s)%float ws))
        - Qsum (map F2Q ws) / F2Q s)
  <= u64 * Qsum (map F2Q (map (fun w => w / s)%float ws))
     + Qnat (length ws) * eta64.
Proof.
  intros Hs. assert (HS : 0 < F2Q s).
  { unfold F2Q. rewrite Hs. cbn [SF2Q]. assert (Hp := pow2_pos e).
    assert (Hm : 0 < inject_Z (Z.pos m)) by reflexivity.
    set (a := inject_Z (Z.pos m)) in *. set (p := 2 ^ e) in *. clearbody a p.
    nra. }
  assert (Hu := u64_pos). assert (He := eta64_pos).
  induction 1 as [|w ws [Hw Hle] Hws [IH1 IH2]].
  - split; [constructor|]. simpl. unfold Qdiv.
    setoid_replace (0 - 0 * / F2Q s) with 0 by ring.
    change (Qabs 0) with 0. change (Qnat 0) with 0. lra.
  - cbn [map Qsum fold_right length].
    change (fold_right Qplus 0 ?l) with (Qsum l).
    destruct (fdiv_cases w s m e Hw Hs) as [[_ Hbig]|[Nv Hv]].
    + exfalso. assert (H2 : F2Q w / F2Q s <= 2).
      { apply Qle_shift_div_r; [exact HS | exact Hle]. }
      assert (H3 : 2 < 2 ^ 1023).
      { change 2 with (2 ^ 1) at 1. apply pow2_lt. lia. }
      lra.
    + split; [constructor; [exact Nv | exact IH1]|].
      replace (S (length ws)) with (length ws + 1)%nat by lia.
      rewrite Qnat_succ.
      unfold near in Hv.
      set (V := F2Q (w / s)) in *.
      set (A := Qsum (map F2Q (map (fun w => (w / s)%float) ws))) in *.
      setoid_replace (V + A - (F2Q w + Qsum (map F2Q ws)) / F2Q s)
        with ((V - F2Q w / F2Q s) + (A - Qsum (map F2Q ws) / F2Q s))
        by (field; lra).
      eapply Qle_trans; [apply Qabs_triangle|].
      set (d1 := Qabs (V - F2Q w / F2Q s)) in *.
      set (d2 := Qabs (A - Qsum (map F2Q ws) / F2Q s)) in *.
      setoid_replace (u64 * (V + A) + (Qnat (length ws) + 1) * eta64)
        with (u64 * V + u64 * A + (Qnat (length ws) * eta64 + eta64)) by ring.
      set (z := Qnat (length ws) * eta64) in *.
      set (pV := u64 * V) in *. set (pA := u64 * A) in *.
      clearbody d1 d2 z pV pA. lra.
Qed.

Lemma finite_value_pos (s : float) (m : positive) (e : Z) :
  Prim2SF s = S754_finite false m e -> 0 < F2Q s.
Proof.
  intros Hs. unfold F2Q. rewrite Hs. cbn [SF2Q]. assert (Hp := pow2_pos e).
  assert (Hm : 0 < inject_Z (Z.pos m)) by reflexivity.
  set (a := inject_Z (Z.pos m)) in *. set (p := 2 ^ e) in *. clearbody a p.
  nra.
Qed.

Lemma length_depth (n : nat) :
  (Z.of_nat n <= 2 ^ 50)%Z ->
  depth_ok (n + 1) /\ 0 <= Qnat n /\ Qnat n <= 1125899906842624.
Proof.
  intros H. split; [unfold depth_ok; lia|]. split; [apply Qnat_nonneg|].
  unfold Qnat. change 1125899906842624 with (inject_Z (2 ^ 50)).
  now rewrite <- Zle_Qle.
Qed.

(** For weights that are not negative, the sum check fails exactly when
    every weight is zero. *)
Lemma normalize_raises_nonneg (ws : list float) :
  Forall float_nonneg ws -> (Z.of_nat (length ws) <= 2 ^ 50)%Z ->
  (_normalize_weight ws = Raise InvalidWeightError <->
   Forall (fun w => F2Q w == 0) ws).
Proof.
  intros Hws Hn. destruct (length_depth _ Hn) as (Hok & Hk0 & Hk1).
  assert (Hsum := np_sum_sums_to ws Hws Hok).
  destruct (depth_small _ Hok) as [Hy0 Hy1].
  assert (HB := pow2_pos 1023).
  unfold sums_to in Hsum.
  setoid_replace (2 * Qnat (length ws + 1) * u64)
    with (2 * (Qnat (length ws + 1) * u64)) in Hsum by ring.
  set (y := Qnat (length ws + 1) * u64) in *.
  set (T := Qsum (map F2Q ws)) in *. set (B := 2 ^ 1023) in *.
  unfold _normalize_weight. split.
  - destruct (fgt (np_sum ws) (of_int 0)) eqn:E; [discriminate|]. intros _.
    destruct Hsum as [[Ei _]|(Ns & Ls & Us)].
    + rewrite (sum_check_infinity _ Ei) in E. discriminate.
    + destruct (sum_check_nonneg _ Ns) as [_ H0]. specialize (H0 E).
      assert (HT : T <= 0).
      { rewrite H0 in Us. clearbody y T. lra. }
      assert (Hz := Qsum_zero _ (values_nonneg ws Hws) HT).
      rewrite Forall_map in Hz. exact Hz.
  - intros Hz. assert (HT : T == 0).
    { apply Qsum_all_zero. rewrite Forall_map. exact Hz. }
    destruct (fgt (np_sum ws) (of_int 0)) eqn:E; [exfalso|reflexivity].
    destruct Hsum as [[_ Hbig]|(Ns & Ls & Us)].
    + rewrite HT in Hbig. clearbody y T B.
      assert (P1 : 0 < B * (1 - y)) by (apply Qmult_lt_0_compat; lra). lra.
    + destruct (sum_check_nonneg _ Ns) as [H1 _].
      destruct (H1 E) as (m & e & Hs).
      assert (HS := finite_value_pos _ _ _ Hs). rewrite HT in Ls.
      set (V := F2Q (np_sum ws)) in *. clearbody y T B V.
      assert (P1 : 0 < V * (1 - y)) by (apply Qmult_lt_0_compat; lra). lra.
Qed.

(** The computed sum of weights that are not negative overflows only if
    their exact sum is at least [2^1022]. *)
Lemma np_sum_overflow (ws : list float) :
  Forall float_nonneg ws -> (Z.of_nat (length ws) <= 2 ^ 50)%Z ->
  Prim2SF (np_sum ws) = S754_infinity false \/ float_nonneg (np_sum ws).
Proof.
  intros Hws Hn. destruct (length_depth _ Hn) as (Hok & _).
  destruct (np_sum_sums_to ws Hws Hok) as [[E _]|[N _]]; auto.
Qed.

Lemma np_sum_overflow_size (ws : list float) :
  Forall float_nonneg ws -> (Z.of_nat (length ws) <= 2 ^ 50)%Z ->
  np_sum ws = infinity -> 2 ^ 1022 <= Qsum (map F2Q ws).
Proof.
  intros Hws Hn Hinf. destruct (length_depth _ Hn) as (Hok & _).
  destruct (depth_small _ Hok) as [Hy0 Hy1].
  destruct (np_sum_sums_to ws Hws Hok) as [[_ Hbig]|[N _]].
  - assert (E : 2 ^ 1023 == 2 * 2 ^ 1022).
    { change 2 with (2 ^ 1) at 2. rewrite <- pow2_add. reflexivity. }
    rewrite E in Hbig. assert (HB := pow2_pos 1022).
    set (y := Qnat (length ws + 1) * u64) in *.
    set (T := Qsum (map F2Q ws)) in *. set (B := 2 ^ 1022) in *.
    clearbody y T B.
    assert (P1 : 0 <= B * (1 - 2 * y)) by (apply Qmult_le_0_compat; lra). lra.
  - exfalso. unfold float_nonneg in N. rewrite Hinf in N. exact N.
Qed.

(** A sum that overflowed turns every weight into zero. *)
Lemma normalize_overflow (ws vs : list float) :
  Forall float_nonneg ws -> np_sum ws = infinity ->
  _normalize_weight ws = Ok vs ->
  length vs = length ws /\ Forall (fun v => F2Q v == 0) vs.
Proof.
  intros Hws Hinf. unfold _normalize_weight. rewrite Hinf.
  destruct (fgt infinity (of_int 0)); [|discriminate]. intros [= <-].
  split; [apply length_map|]. rewrite Forall_map.
  eapply Forall_impl; [|exact Hws]. intros w Hw.
  unfold F2Q. change (fdiv w infinity) with (w / infinity)%float.
  rewrite FloatAxioms.div_spec. change (Prim2SF infinity) with (S754_infinity false).
  unfold float_nonneg in Hw.
  destruct (Prim2SF w) as [sg|sg| |[] m e]; try (exfalso; exact Hw); reflexivity.
Qed.

(** The tolerance of the normalised vector. *)
Lemma normalize_tolerance (ws vs : list float) :
  Forall float_nonneg ws -> (Z.of_nat (length ws) <= 2 ^ 50)%Z ->
  np_sum ws <> infinity -> _normalize_weight ws = Ok vs ->
  Forall float_nonneg vs /\
  Qabs (Qsum (map F2Q vs) - 1) <= (2 * Qnat (length ws) + 5) * u64.
Proof.
  intros Hws Hn Hfin. destruct (length_depth _ Hn) as (Hok & Hk0 & Hk1).
  assert (Hsum := np_sum_sums_to ws Hws Hok).
  destruct (depth_small _ Hok) as [Hy0 Hy1].
  unfold _normalize_weight.
  destruct (fgt (np_sum ws) (of_int 0)) eqn:E; [|discriminate]. intros [= <-].
  change (fun w : float => fdiv w (np_sum ws))
    with (fun w : float => (w / np_sum ws)%float).
  destruct Hsum as [[Ei _]|(Ns & Ls & Us)];
    [exfalso; apply Hfin, float_infinity, Ei|].
  destruct (sum_check_nonneg _ Ns) as [H1 _]. destruct (H1 E) as (m & e & Hs).
  assert (HS := finite_value_pos _ _ _ Hs).
  assert (Hv := values_nonneg ws Hws).
  assert (HT0 := Qsum_nonneg _ Hv).
  setoid_replace (2 * Qnat (length ws + 1) * u64)
    with (2 * (Qnat (length ws + 1) * u64)) in Us by ring.
  assert (Hsmall : Forall (fun w => float_nonneg w /\
                                    F2Q w <= 2 * F2Q (np_sum ws)) ws).
  { rewrite Forall_forall. intros w Hin. split.
    - rewrite Forall_forall in Hws. now apply Hws.
    - assert (Hm := Qsum_member _ (F2Q w) Hv (in_map F2Q ws w Hin)).
      set (y := Qnat (length ws + 1) * u64) in *.
      set (T := Qsum (map F2Q ws)) in *. set (V := F2Q (np_sum ws)) in *.
      set (W := F2Q w) in *. clearbody y T V W.
      assert (P1 : 0 <= V * (1 - 2 * y)) by (apply Qmult_le_0_compat; lra).
      lra. }
  destruct (quotients_sum _ m e ws Hs Hsmall) as [Hnn Herr].
  split; [exact Hnn|].
  assert (Hvs := Qsum_nonneg _ (values_nonneg _ Hnn)).
  set (A := Qsum (map F2Q (map (fun w => (w / np_sum ws)%float) ws))) in *.
  assert (HX1 : 1 - Qnat (length ws + 1) * u64
                <= Qsum (map F2Q ws) / F2Q (np_sum ws)).
  { apply Qle_shift_div_l; [exact HS|]. rewrite Qmult_comm. exact Ls. }
  assert (HX2 : Qsum (map F2Q ws) / F2Q (np_sum ws)
                <= 1 + 2 * (Qnat (length ws + 1) * u64)).
  { apply Qle_shift_div_r; [exact HS|]. rewrite Qmult_comm. exact Us. }
  set (X := Qsum (map F2Q ws) / F2Q (np_sum ws)) in *.
  rewrite Qnat_succ in HX1, HX2.
  assert (Hz : Qnat (length ws) * eta64 <= 1 # 18014398509481984).
  { apply Qle_trans with (1125899906842624 * (1 # 20282409603651670423947251286016)).
    - assert (He := eta64_pos). assert (He' := eta64_small).
      apply Qle_trans with (Qnat (length ws) * (1 # 20282409603651670423947251286016)).
      + rewrite (Qmult_comm _ eta64), (Qmult_comm (Qnat (length ws))).
        apply Qmult_le_compat_r; [exact He' | exact Hk0].
      + apply Qmult_le_compat_r; [exact Hk1 | discriminate].
    - vm_compute. discriminate. }
  assert (Hz0 : 0 <= Qnat (length ws) * eta64).
  { apply Qmult_le_0_compat; [exact Hk0|]. apply Qlt_le_weak, eta64_pos. }
  set (z := Qnat (length ws) * eta64) in *.
  set (k := Qnat (length ws)) in *.
  apply Qabs_Qle_condition in Herr. destruct Herr as [El Er].
  apply Qabs_Qle_condition.
  rewrite u64_value in *.
  clearbody A X z k. split; lra.
Qed.

Close Scope Q_scope.
Close Scope Z_scope.
Set Implicit Arguments.

Lemma SFcompare_refl (x : spec_float) :
  sf_not_nan x -> SFcompare x x = Some Eq.
Proof.
  destruct x as [s|s| |s m e]; simpl; intros H; try tauto.
  - destruct s; reflexivity.
  - rewrite Z.compare_refl, Pos.compare_cont_refl. destruct s; reflexivity.
Qed.

(** In binary64 the sum check fails on a sum that is at most zero and on
    a sum that is not a number. *)
Lemma float_sum_check (s : float) :
  fgt s (of_int 0) = false <->
  PrimFloat.leb s 0%float = true \/ PrimFloat.is_nan s = true.
Proof.
  change (fgt s (of_int 0)) with (PrimFloat.ltb 0%float s).
  unfold PrimFloat.is_nan.
  rewrite FloatAxioms.ltb_spec, FloatAxioms.leb_spec, FloatAxioms.eqb_spec.
  change (Prim2SF 0%float) with (S754_zero false).
  unfold SFltb, SFleb, SFeqb.
  destruct (Prim2SF s) as [sg|sg| |sg m e] eqn:E.
  - simpl. tauto.
  - rewrite SFcompare_refl by exact I. simpl. destruct sg; simpl; intuition congruence.
  - simpl. tauto.
  - rewrite SFcompare_refl by exact I. simpl. destruct sg; simpl; intuition congruence.
Qed.

(** The computed sum of zeros is zero, however many there are. *)
Lemma np_sum_zeros (n : nat) : np_sum (repeat 0%float n) = 0%float.
Proof.
  apply (@np_sum_P float float_Num (fun _ => 0%Q) (fun w => w = 0%float)
           (fun x _ _ => x = 0%float) (fun _ => True)); auto.
  - intros a b _ _ _ _ -> ->. reflexivity.
  - clear. induction n; simpl; constructor; auto.
Qed.

(** C4, as the code has it, in binary64.  For every weight list,
    normalisation raises nothing but the failure of the sum check, it
    raises exactly when the sum computed by [np.sum] is at most zero or
    NaN, and otherwise the sum is greater than zero and the result has
    one entry for each weight, the binary64 quotient of the weight by the
    computed sum, and nothing else is done to it.

    For weights that are finite and not negative (at most [2^50] of
    them): the check fails exactly when every weight is zero; the
    computed sum is infinite only if the exact sum of the weights is at
    least [2^1022]; when the computed sum is finite the returned numbers
    are finite and not negative and their exact sum is within
    [(2 n + 5) * 2^-53] of 1, [n] the number of weights; when it is
    infinite every returned number is zero.

    No weight and any number of zero weights fail the check. *)
Theorem normalize_weight_spec (ws : list float) :
  (_normalize_weight ws = Raise InvalidWeightError <->
   PrimFloat.leb (np_sum ws) 0%float = true \/
   PrimFloat.is_nan (np_sum ws) = true) /\
  (forall e, _normalize_weight ws = Raise e -> e = InvalidWeightError) /\
  (forall vs, _normalize_weight ws = Ok vs ->
     PrimFloat.ltb 0%float (np_sum ws) = true /\
     length vs = length ws /\
     forall i w, nth_error ws i = Some w ->
       nth_error vs i = Some (w / np_sum ws)%float) /\
  (Forall float_nonneg ws -> (Z.of_nat (length ws) <= 2 ^ 50)%Z ->
     (_normalize_weight ws = Raise InvalidWeightError <->
      Forall (fun w => F2Q w == 0)%Q ws) /\
     (np_sum ws = infinity -> (2 ^ 1022 <= Qsum (map F2Q ws))%Q) /\
     forall vs, _normalize_weight ws = Ok vs ->
       (np_sum ws <> infinity ->
        Forall float_nonneg vs /\
        (Qabs (Qsum (map F2Q vs) - 1)
         <= (2 * Qnat (length ws) + 5) * u64)%Q) /\
       (np_sum ws = infinity -> Forall (fun v => F2Q v == 0)%Q vs)) /\
  _normalize_weight (@nil float) = Raise InvalidWeightError /\
  (forall n, _normalize_weight (repeat 0%float n) = Raise InvalidWeightError).
Proof.
  assert (Hiff : _normalize_weight ws = Raise InvalidWeightError <->
                 PrimFloat.leb (np_sum ws) 0%float = true \/
                 PrimFloat.is_nan (np_sum ws) = true).
  { rewrite <- float_sum_check. unfold _normalize_weight.
    destruct (fgt (np_sum ws) (of_int 0)); split; intros H;
      try reflexivity; discriminate. }
  split; [exact Hiff|]. split; [|split; [|split; [|split]]].
  - unfold _normalize_weight. intros e.
    destruct (fgt (np_sum ws) (of_int 0)); [discriminate|]. now intros [= <-].
  - unfold _normalize_weight. intros vs.
    destruct (fgt (np_sum ws) (of_int 0)) eqn:E; [|discriminate].
    intros [= <-]. split; [exact E|]. split; [apply length_map|].
    intros i w Hw. rewrite nth_error_map, Hw. reflexivity.
  - intros Hws Hn. split; [now apply normalize_raises_nonneg|].
    split; [now apply np_sum_overflow_size|].
    intros vs Hvs. split.
    + intros Hfin. now apply normalize_tolerance.
    + intros Hinf. now apply (normalize_overflow ws vs).
  - reflexivity.
  - intros n. unfold _normalize_weight. rewrite np_sum_zeros. reflexivity.
Qed.

Lemma normalize_weight_spec_witness :
  exists vs,
    _normalize_weight [2%float; 3%float; 5%float] = Ok vs /\
    Forall float_nonneg vs /\
    (Qabs (Qsum (map F2Q vs) - 1) <= (2 * Qnat 3 + 5) * u64)%Q.
Proof.
  destruct (_normalize_weight [2%float; 3%float; 5%float]) as [vs|e] eqn:E;
    [|vm_compute in E; discriminate].
  exists vs. split; [reflexivity|].
  destruct (normalize_weight_spec [2%float; 3%float; 5%float])
    as (_ & _ & _ & H & _).
  destruct H as (_ & _ & H).
  - repeat constructor.
  - simpl. lia.
  - destruct (H vs E) as [H1 _]. apply H1. vm_compute. discriminate.
Defined.

(** C4 fails as stated, in binary64.  Two finite positive weights
    [2^1023] have the sum [+inf]: the check passes and the returned
    vector is [0, 0], which sums to 0, not 1.  And a NaN weight makes the
    check fail although the sum is not [<= 0]. *)
Lemma normalize_counterexample :
  let big := 0x1p1023%float in
  PrimFloat.ltb 0%float big = true /\ PrimFloat.ltb big infinity = true /\
  _normalize_weight [big; big] = Ok [0%float; 0%float] /\
  np_sum [0%float; 0%float] = 0%float /\
  _normalize_weight [nan] = Raise InvalidWeightError /\
  PrimFloat.leb (np_sum [nan]) 0%float = false.
Proof.
  repeat split; vm_compute; reflexivity.
Qed.

(** * Further properties of the builder *)

(** ** When the builder returns *)

Section BuilderOutcome.

Context {R : Type} {NR : Num R}.

Variables (weights : list R) (N : nat).

Lemma error_at_raises (s : R) (cur : list nat) (j : nat) (e : exn) :
  error_at weights s cur j = Raise e -> e = IndexError.
Proof.
  unfold error_at, lookup.
  destruct (nth_error weights j); simpl; [|congruence].
  destruct (nth_error cur j); simpl; congruence.
Qed.

Lemma scan_raises (s : R) (cur : list nat) (range : list nat) :
  forall m mi e,
    scan weights s cur range m mi = Raise e -> e = IndexError.
Proof.
  induction range as [|j range IH]; simpl; intros m mi e H; [discriminate|].
  destruct (error_at weights s cur j) as [ej|e'] eqn:E; simpl in H.
  - destruct (fgt ej m); eapply IH; eauto.
  - injection H as <-. eapply error_at_raises; eauto.
Qed.

Lemma step_raises (st : state) (i : nat) (e : exn) :
  step weights N st i = Raise e -> e = IndexError.
Proof.
  unfold step, pick, store, lookup. intros H.
  destruct (error_at weights (sample_idx_double i) (current_samples st) 0)
    as [m|e0] eqn:E0; simpl in H;
    [|injection H as <-; eapply error_at_raises; eauto].
  destruct (scan weights (sample_idx_double i) (current_samples st)
              (seq 0 N) m 0) as [r|e1] eqn:E1; simpl in H;
    [|injection H as <-; eapply scan_raises; eauto].
  destruct (i <? length (dataset_index st)); simpl in H; [|congruence].
  destruct (nth_error (current_samples st) (snd r)); simpl in H; [|congruence].
  destruct (i <? length (dataset_sample_index st)); simpl in H; [|congruence].
  destruct (snd r <? length (current_samples st)); simpl in H; congruence.
Qed.

Lemma loop_raises (range : list nat) :
  forall st e, loop weights N range st = Raise e -> e = IndexError.
Proof.
  induction range as [|i range IH]; simpl; intros st e H; [discriminate|].
  destruct (step weights N st i) as [st'|e'] eqn:E; simpl in H.
  - eapply IH; eauto.
  - injection H as <-. eapply step_raises; eauto.
Qed.

(** A scan that meets an index with no weight raises. *)
Lemma scan_short_weights (s : R) (cur : list nat) (range : list nat) :
  forall m mi,
    (exists j, In j range /\ length weights <= j) ->
    scan weights s cur range m mi = Raise IndexError.
Proof.
  induction range as [|j range IH]; simpl; intros m mi (j' & Hin & Hj').
  - contradiction.
  - destruct (error_at weights s cur j) as [ej|e] eqn:E; simpl.
    + destruct Hin as [<-|Hin].
      * unfold error_at in E. rewrite (lookup_ge weights Hj') in E. discriminate.
      * destruct (fgt ej m); apply IH; eauto.
    + f_equal. eapply error_at_raises; eauto.
Qed.

Lemma pick_Ok_gen (cur : list nat) (i : nat) :
  1 <= N -> N <= length weights -> length cur = N ->
  exists k, pick weights N cur i = Ok k /\ k < N.
Proof.
  intros HN Hw Hc. unfold pick.
  destruct (@error_at_Ok R NR weights (sample_idx_double i) cur 0)
    as (w & c & _ & _ & ->); try lia. simpl.
  destruct (@scan_Ok R NR weights (sample_idx_double i) cur (seq 0 N)
              (fsub (fmul w (sample_idx_double i)) (of_int (Z.of_nat c))) 0)
    as (e & k & -> & Hk).
  - intros j Hj. apply in_seq in Hj. lia.
  - simpl. exists k. split; auto.
    destruct Hk as [->|Hk]; [lia|]. apply in_seq in Hk. lia.
Qed.

Lemma pick_raises (cur : list nat) (i : nat) :
  length cur = N -> N = 0 \/ length weights < N ->
  pick weights N cur i = Raise IndexError.
Proof.
  intros Hc Hbad. unfold pick.
  destruct (error_at weights (sample_idx_double i) cur 0) as [m|e] eqn:E0; simpl.
  - assert (HN : length weights < N).
    { destruct Hbad as [->|H]; [|exact H].
      unfold error_at in E0. apply length_zero_iff_nil in Hc. subst cur.
      destruct (lookup weights 0); simpl in E0; discriminate. }
    rewrite scan_short_weights; [reflexivity|].
    exists (length weights). split; [apply in_seq; lia | lia].
  - f_equal. eapply error_at_raises; eauto.
Qed.

Lemma step_Ok_gen (st : state) (i : nat) :
  1 <= N -> N <= length weights -> length (current_samples st) = N ->
  i < length (dataset_index st) -> i < length (dataset_sample_index st) ->
  exists st',
    step weights N st i = Ok st' /\
    length (current_samples st') = N /\
    length (dataset_index st') = length (dataset_index st) /\
    length (dataset_sample_index st') = length (dataset_sample_index st).
Proof.
  intros HN Hw Hc Hd Hs. unfold step.
  destruct (@pick_Ok_gen (current_samples st) i HN Hw Hc) as (k & -> & Hk).
  simpl.
  rewrite store_Ok by assumption. simpl.
  destruct (@lookup_lt nat (current_samples st) k) as (c & -> & _); [lia|].
  simpl. rewrite store_Ok by assumption. simpl.
  rewrite store_Ok by lia. eexists. split; [reflexivity|].
  simpl. now rewrite !length_update.
Qed.

Lemma loop_Ok_gen (n : nat) :
  forall P st,
    1 <= N -> N <= length weights -> length (current_samples st) = N ->
    P + n <= length (dataset_index st) ->
    P + n <= length (dataset_sample_index st) ->
    exists st',
      loop weights N (seq P n) st = Ok st' /\
      length (current_samples st') = N /\
      length (dataset_index st') = length (dataset_index st) /\
      length (dataset_sample_index st') = length (dataset_sample_index st).
Proof.
  induction n as [|n IH]; intros P st HN Hw Hc Hd Hs; simpl.
  - exists st. auto.
  - destruct (@step_Ok_gen st P HN Hw Hc ltac:(lia) ltac:(lia))
      as (st1 & -> & Hc1 & Hd1 & Hs1). simpl.
    destruct (IH (Datatypes.S P) st1 HN Hw Hc1 ltac:(lia) ltac:(lia))
      as (st' & E & Hc' & Hd' & Hs').
    exists st'. split; [exact E|]. split; [exact Hc'|]. split; congruence.
Qed.

Lemma step_short_arrays (st : state) (i : nat) :
  length (dataset_index st) <= i \/ length (dataset_sample_index st) <= i ->
  step weights N st i = Raise IndexError.
Proof.
  intros Hbad.
  destruct (step weights N st i) as [st'|e] eqn:E;
    [|f_equal; eapply step_raises; eauto].
  exfalso. unfold step, store in E.
  apply bind_Ok_inv in E as (k & _ & E).
  destruct (i <? length (dataset_index st)) eqn:Ed; simpl in E; [|discriminate].
  apply bind_Ok_inv in E as (c & _ & E).
  destruct (i <? length (dataset_sample_index st)) eqn:Es; simpl in E;
    [|discriminate].
  apply Nat.ltb_lt in Ed, Es. lia.
Qed.

End BuilderOutcome.

Section BuilderFrame.

Context {R : Type} {NR : Num R}.

Variables (weights : list R) (N : nat).

(** A step that returns has written position [i] of both arrays and
    bumped one counter, nothing else. *)
Lemma step_Ok_inv (st st' : state) (i : nat) :
  step weights N st i = Ok st' ->
  exists k c,
    pick weights N (current_samples st) i = Ok k /\
    nth_error (current_samples st) k = Some c /\
    i < length (dataset_index st) /\ i < length (dataset_sample_index st) /\
    st' = mkState (update (dataset_index st) i k)
                  (update (dataset_sample_index st) i c)
                  (update (current_samples st) k (c + 1)).
Proof.
  unfold step, store. intros H.
  apply bind_Ok_inv in H as (k & Ek & H).
  destruct (i <? length (dataset_index st)) eqn:Ed; simpl in H; [|discriminate].
  apply bind_Ok_inv in H as (c & Ec & H).
  destruct (i <? length (dataset_sample_index st)) eqn:Es; simpl in H;
    [|discriminate].
  destruct (k <? length (current_samples st)); simpl in H; [|discriminate].
  injection H as <-. apply Nat.ltb_lt in Ed, Es. apply lookup_Ok in Ec.
  exists k, c. auto.
Qed.

Lemma loop_frame (range : list nat) :
  forall st st',
    loop weights N range st = Ok st' ->
    forall j, ~ In j range ->
      nth_error (dataset_index st') j = nth_error (dataset_index st) j /\
      nth_error (dataset_sample_index st') j
      = nth_error (dataset_sample_index st) j.
Proof.
  induction range as [|i range IH]; simpl; intros st st' H j Hj.
  - injection H as <-. auto.
  - apply bind_Ok_inv in H as (st1 & E1 & H).
    destruct (IH _ _ H j ltac:(tauto)) as [-> ->].
    apply step_Ok_inv in E1 as (k & c & _ & _ & _ & _ & ->). simpl.
    rewrite !nth_error_update_neq by tauto. auto.
Qed.

Lemma loop_counters_length (range : list nat) :
  forall st st',
    loop weights N range st = Ok st' ->
    length (current_samples st') = length (current_samples st).
Proof.
  induction range as [|i range IH]; simpl; intros st st' H.
  - now injection H as <-.
  - apply bind_Ok_inv in H as (st1 & E1 & H).
    rewrite (IH _ _ H).
    apply step_Ok_inv in E1 as (k & c & _ & _ & _ & _ & ->). simpl.
    apply length_update.
Qed.

(** X1.  The builder returns exactly when there is nothing to do
    ([size = 0]) or there is at least one source, a weight for every
    source and room for [size] entries in both arrays; in every other case
    it raises [IndexError], and it never raises anything else.  When it
    returns, the two arrays have kept their lengths. *)
Theorem build_returns_iff (di0 si0 : list nat) (S : nat) :
  (S = 0 \/ (1 <= N /\ N <= length weights /\
             S <= length di0 /\ S <= length si0) ->
   exists st,
     _build_blending_indices di0 si0 weights N S = Ok st /\
     length (dataset_index st) = length di0 /\
     length (dataset_sample_index st) = length si0) /\
  (~ (S = 0 \/ (1 <= N /\ N <= length weights /\
                S <= length di0 /\ S <= length si0)) ->
   _build_blending_indices di0 si0 weights N S = Raise IndexError).
Proof.
  unfold _build_blending_indices. split.
  - intros [->|(HN & Hw & Hd & Hs)].
    + simpl. eexists. split; [reflexivity|]. auto.
    + destruct (@loop_Ok_gen R NR weights N S 0
                  (mkState di0 si0 (repeat 0 N)) HN Hw)
        as (st & E & _ & Hd' & Hs'); simpl; try apply repeat_length; try lia.
      exists st. auto.
  - intros Hbad.
    destruct (loop weights N (seq 0 S) (mkState di0 si0 (repeat 0 N)))
      as [st|e] eqn:E; [|f_equal; eapply loop_raises; eauto].
    exfalso. apply Hbad. destruct S as [|S']; [now left|]. right.
    rewrite seq_S, loop_app in E. simpl in E.
    apply bind_Ok_inv in E as (st1 & E1 & E).
    apply bind_Ok_inv in E as (st2 & E2 & _).
    destruct (loop_lengths _ _ _ _ E1) as [Ld Ls]. simpl in Ld, Ls.
    assert (Hc := loop_counters_length _ _ E1). simpl in Hc.
    rewrite repeat_length in Hc.
    apply step_Ok_inv in E2 as (k & c & Ek & _ & Hd & Hs & _).
    destruct (Nat.eq_dec N 0) as [HN0|HN0];
      [rewrite (@pick_raises R NR weights N _ S' Hc (or_introl HN0)) in Ek;
       discriminate|].
    destruct (Nat.le_gt_cases N (length weights)) as [Hw|Hw];
      [|rewrite (@pick_raises R NR weights N _ S' Hc (or_intror Hw)) in Ek;
        discriminate].
    lia.
Qed.

(** X2.  A build that returns has written the first [size] cells of each
    array and nothing beyond them: every cell at a position [>= size]
    holds what it held before. *)
Theorem build_leaves_rest (di0 si0 : list nat) (S : nat) (st : state) :
  _build_blending_indices di0 si0 weights N S = Ok st ->
  forall j, S <= j ->
    nth_error (dataset_index st) j = nth_error di0 j /\
    nth_error (dataset_sample_index st) j = nth_error si0 j.
Proof.
  unfold _build_blending_indices. intros E j Hj.
  apply (loop_frame _ _ E). rewrite in_seq. lia.
Qed.

End BuilderFrame.

Lemma build_returns_iff_witness :
  (exists st,
     _build_blending_indices [9; 9; 9] [9; 9; 9]
       [0.5%float; 0.5%float; 7%float] 2 3 = Ok st) /\
  _build_blending_indices [9; 9] [9; 9; 9] [0.5%float; 0.5%float] 2 3
  = Raise IndexError.
Proof.
  split.
  - destruct (proj1 (@build_returns_iff float float_Num
                       [0.5%float; 0.5%float; 7%float] 2 [9; 9; 9] [9; 9; 9] 3))
      as (st & E & _).
    + right. simpl. lia.
    + exists st. exact E.
  - apply (proj2 (@build_returns_iff float float_Num
                    [0.5%float; 0.5%float] 2 [9; 9] [9; 9; 9] 3)).
    simpl. lia.
Defined.

Lemma build_leaves_rest_witness :
  exists st,
    _build_blending_indices [9; 9; 9; 8] [9; 9; 9; 7]
      [0.5%float; 0.5%float] 2 3 = Ok st /\
    nth_error (dataset_index st) 3 = Some 8 /\
    nth_error (dataset_sample_index st) 3 = Some 7.
Proof.
  destruct (_build_blending_indices [9; 9; 9; 8] [9; 9; 9; 7]
              [0.5%float; 0.5%float] 2 3) as [st|e] eqn:E;
    [|vm_compute in E; discriminate].
  exists st. split; [reflexivity|].
  exact (@build_leaves_rest float float_Num _ _ _ _ _ st E 3 (Nat.le_refl 3)).
Defined.

(** ** The order of the positions does not depend on the size *)

Section PrefixStable.

Context {R : Type} {NR : Num R}.

Variables (weights : list R) (N : nat).

Lemma step_agree_upto (P : nat) (st1 st2 : state) :
  agree_upto P st1 st2 ->
  P < length (dataset_index st1) -> P < length (dataset_sample_index st1) ->
  P < length (dataset_index st2) -> P < length (dataset_sample_index st2) ->
  both (agree_upto (Datatypes.S P))
       (step weights N st1 P) (step weights N st2 P).
Proof.
  destruct st1 as [di1 si1 cur1], st2 as [di2 si2 cur2].
  intros (Hc & Fd & Fs) H1 H2 H3 H4. simpl in *. subst cur2.
  assert (B1 := proj2 (Nat.ltb_lt _ _) H1). assert (B2 := proj2 (Nat.ltb_lt _ _) H2).
  assert (B3 := proj2 (Nat.ltb_lt _ _) H3). assert (B4 := proj2 (Nat.ltb_lt _ _) H4).
  unfold step, store. simpl.
  destruct (pick weights N cur1 P) as [k|e]; simpl; [|reflexivity].
  rewrite B1, B3. simpl.
  destruct (lookup cur1 k) as [c|e]; simpl; [|reflexivity].
  rewrite B2, B4. simpl.
  destruct (k <? length cur1); simpl; [|reflexivity].
  unfold agree_upto. cbn [dataset_index dataset_sample_index current_samples].
  rewrite !firstn_succ_update by assumption. rewrite Fd, Fs. auto.
Qed.

Lemma loop_agree_upto (n : nat) :
  forall P st1 st2,
    agree_upto P st1 st2 ->
    P + n <= length (dataset_index st1) ->
    P + n <= length (dataset_sample_index st1) ->
    P + n <= length (dataset_index st2) ->
    P + n <= length (dataset_sample_index st2) ->
    both (agree_upto (P + n)) (loop weights N (seq P n) st1)
                              (loop weights N (seq P n) st2).
Proof.
  induction n as [|n IH]; intros P st1 st2 H H1 H2 H3 H4; simpl.
  - now rewrite Nat.add_0_r.
  - assert (Hs := @step_agree_upto P st1 st2 H
                    ltac:(lia) ltac:(lia) ltac:(lia) ltac:(lia)).
    destruct (step weights N st1 P) as [a|e1] eqn:Ea,
             (step weights N st2 P) as [b|e2] eqn:Eb;
      simpl in *; try contradiction; auto.
    destruct (step_lengths _ _ _ _ Ea) as [La Ma].
    destruct (step_lengths _ _ _ _ Eb) as [Lb Mb].
    replace (P + Datatypes.S n) with (Datatypes.S P + n) by lia.
    apply IH; auto; lia.
Qed.

(** X3.  Growing the size never reorders what comes first: if the build
    of [S] positions returns, the build of [P <= S] positions returns too,
    and its two arrays are the first [P] entries of the larger ones. *)
Theorem build_prefix_stable (S P : nat) (final : state) :
  _build_blending_indices (repeat 0 S) (repeat 0 S) weights N S = Ok final ->
  P <= S ->
  exists st,
    _build_blending_indices (repeat 0 P) (repeat 0 P) weights N P = Ok st /\
    dataset_index st = firstn P (dataset_index final) /\
    dataset_sample_index st = firstn P (dataset_sample_index final).
Proof.
  unfold _build_blending_indices. intros E HP.
  assert (Eseq : seq 0 S = seq 0 P ++ seq P (S - P)).
  { rewrite <- seq_app. f_equal. lia. }
  rewrite Eseq, loop_app in E.
  apply bind_Ok_inv in E as (mid & Emid & Erest). simpl in Erest.
  assert (Hfr : forall j, j < P ->
            nth_error (dataset_index final) j = nth_error (dataset_index mid) j /\
            nth_error (dataset_sample_index final) j
            = nth_error (dataset_sample_index mid) j).
  { intros j Hj. apply (loop_frame _ _ _ _ Erest). rewrite in_seq. lia. }
  assert (H0 : agree_upto 0 (mkState (repeat 0 S) (repeat 0 S) (repeat 0 N))
                          (mkState (repeat 0 P) (repeat 0 P) (repeat 0 N))).
  { unfold agree_upto. simpl. auto. }
  assert (Hl := @loop_agree_upto P 0 _ _ H0).
  simpl in Hl. rewrite !repeat_length in Hl.
  specialize (Hl HP HP (Nat.le_refl P) (Nat.le_refl P)).
  rewrite Emid in Hl.
  destruct (loop weights N (seq 0 P)
              (mkState (repeat 0 P) (repeat 0 P) (repeat 0 N)))
    as [st|e] eqn:Est; simpl in Hl; [|contradiction].
  exists st. split; [reflexivity|].
  destruct Hl as (_ & Fd & Fs).
  destruct (loop_lengths _ _ _ _ Est) as [Ld Ls]. simpl in Ld, Ls.
  rewrite repeat_length in Ld, Ls.
  rewrite (firstn_all2 (dataset_index st)) in Fd by lia.
  rewrite (firstn_all2 (dataset_sample_index st)) in Fs by lia.
  assert (Gd : firstn P (dataset_index final) = firstn P (dataset_index mid)).
  { clear - Hfr. revert Hfr.
    generalize (dataset_index final) (dataset_index mid).
    generalize (dataset_sample_index final) (dataset_sample_index mid).
    intros s1 s2 l1 l2 H.
    assert (G : forall j, nth_error (firstn P l1) j = nth_error (firstn P l2) j).
    { intros j. rewrite !nth_error_firstn.
      destruct (j <? P) eqn:E; auto. apply Nat.ltb_lt in E.
      exact (proj1 (H j E)). }
    now apply nth_error_ext. }
  assert (Gs : firstn P (dataset_sample_index final)
               = firstn P (dataset_sample_index mid)).
  { clear - Hfr. revert Hfr.
    generalize (dataset_index final) (dataset_index mid).
    generalize (dataset_sample_index final) (dataset_sample_index mid).
    intros s1 s2 l1 l2 H.
    assert (G : forall j, nth_error (firstn P s1) j = nth_error (firstn P s2) j).
    { intros j. rewrite !nth_error_firstn.
      destruct (j <? P) eqn:E; auto. apply Nat.ltb_lt in E.
      exact (proj2 (H j E)). }
    now apply nth_error_ext. }
  split; congruence.
Qed.

End PrefixStable.

Lemma build_prefix_stable_witness :
  exists st,
    _build_blending_indices (repeat 0 2) (repeat 0 2)
      [0.25%float; 0.75%float] 2 2 = Ok st /\
    dataset_index st = [1; 0].
Proof.
  destruct (_build_blending_indices (repeat 0 5) (repeat 0 5)
              [0.25%float; 0.75%float] 2 5) as [final|e] eqn:E;
    [|vm_compute in E; discriminate].
  destruct (@build_prefix_stable float float_Num _ _ 5 2 final E)
    as (st & Est & Hd & _); [lia|].
  exists st. split; [exact Est|].
  rewrite Hd. vm_compute in E. injection E as <-. reflexivity.
Defined.

(** * Further properties of the view *)

Section View.

Context {R : Type} {NR : Num R} {A : Type}.

(** What [__getitem__] does at a position of the view. *)
Lemma getitem_in_range (ds : list (Dataset A)) (w : option (list R))
    (b : DatasetBlender A) (i : Z) :
  __init__ None ds w = Ok b -> (0 <= i < Z.of_nat (size b))%Z ->
  exists k d,
    nth_error (blend_dataset_index b) (Z.to_nat i) = Some k /\
    nth_error (blend_sample_index b) (Z.to_nat i)
    = Some (allocated (blend_dataset_index b) (Z.to_nat i) k) /\
    nth_error ds k = Some d /\
    __getitem__ b i
    = item d (Z.of_nat (allocated (blend_dataset_index b) (Z.to_nat i) k
                        mod Nat.max (len d) 1)).
Proof.
  intros H [Hi0 Hi1].
  destruct (init_arrays _ _ H) as (_ & _ & Hslot).
  destruct (init_Ok_inv _ _ H) as (Hds & _).
  destruct (Hslot (Z.to_nat i) ltac:(lia)) as (k & Ek & Hk & Ec).
  destruct (lookup_lt ds Hk) as (d & Ed & Ed').
  exists k, d. split; [exact Ek|]. split; [exact Ec|]. split; [exact Ed'|].
  unfold __getitem__. rewrite !getitem_nonneg by assumption.
  apply lookup_Ok in Ek, Ec. rewrite Ek. simpl.
  rewrite Hds, Ed. simpl. rewrite Ec. reflexivity.
Qed.

(** X4.  In a constructed view no two positions carry the same pair of
    source and sample index, and the sample index at a position never
    exceeds the position. *)
Theorem positions_distinct (cpp_utils : option (@native_builder R))
    (ds : list (Dataset A)) (w : option (list R)) (b : DatasetBlender A)
    (i j : nat) :
  conforms cpp_utils -> __init__ cpp_utils ds w = Ok b ->
  i < j -> j < __len__ b ->
  exists ki ci kj cj,
    nth_error (blend_dataset_index b) i = Some ki /\
    nth_error (blend_sample_index b) i = Some ci /\
    nth_error (blend_dataset_index b) j = Some kj /\
    nth_error (blend_sample_index b) j = Some cj /\
    (ki, ci) <> (kj, cj) /\ ci <= i /\ cj <= j.
Proof.
  intros Hc H Hij Hj. rewrite (init_conforms ds w Hc) in H.
  unfold __len__ in Hj.
  destruct (init_arrays _ _ H) as (_ & _ & Hslot).
  destruct (Hslot i ltac:(lia)) as (ki & Eki & _ & Eci).
  destruct (Hslot j Hj) as (kj & Ekj & _ & Ecj).
  exists ki, (allocated (blend_dataset_index b) i ki),
         kj, (allocated (blend_dataset_index b) j kj).
  repeat (split; [assumption|]).
  split; [|split; apply allocated_le].
  intros Heq. injection Heq as Hk Ha. subst kj.
  assert (H1 := allocated_succ _ _ ki Eki).
  destruct (Nat.eq_dec ki ki) as [_|]; [|congruence].
  assert (H2 := @allocated_mono (blend_dataset_index b) ki (Datatypes.S i) j
                  ltac:(lia)).
  lia.
Qed.

(** X5.  A view over a single source is that source: it has the source's
    length and [get(i)] is [source[i]] for every [0 <= i < length],
    whatever the weight given. *)
Theorem single_source_identity (cpp_utils : option (@native_builder R))
    (d : Dataset A) (w : option (list R)) (b : DatasetBlender A) :
  conforms cpp_utils -> __init__ cpp_utils [d] w = Ok b ->
  __len__ b = len d /\
  forall i : Z, (0 <= i < Z.of_nat (len d))%Z -> __getitem__ b i = item d i.
Proof.
  intros Hc H. rewrite (init_conforms [d] w Hc) in H.
  destruct (init_Ok_inv _ _ H) as (_ & Esz & _).
  simpl in Esz. rewrite Nat.add_0_r in Esz.
  split; [exact Esz|]. intros i Hi.
  destruct (init_arrays _ _ H) as (_ & _ & Hslot).
  assert (Hall : forall j, j < size b ->
            nth_error (blend_dataset_index b) j = Some 0).
  { intros j Hj. destruct (Hslot j Hj) as (k & Ek & Hk & _).
    simpl in Hk. replace k with 0 in Ek by lia. exact Ek. }
  destruct (@getitem_in_range [d] w b i H ltac:(lia)) as (k & d' & Ek & _ & Ed & ->).
  rewrite (Hall (Z.to_nat i) ltac:(lia)) in Ek. injection Ek as <-.
  simpl in Ed. injection Ed as <-.
  rewrite allocated_all by (intros j Hj; apply Hall; lia).
  rewrite Nat.max_l by lia. rewrite Nat.mod_small by lia.
  now rewrite Z2Nat.id by lia.
Qed.

(** X6.  Over Python lists as sources, [get(i)] at a position of the view
    returns the element of the chosen list at [sample_index[i] mod len]
    when that list is not empty, and raises [IndexError] when it is empty:
    [max(len, 1)] avoids the division by zero, not the failed access. *)
Theorem list_source_access (cpp_utils : option (@native_builder R))
    (ls : list (list A)) (w : option (list R)) (b : DatasetBlender A)
    (i : Z) :
  conforms cpp_utils -> __init__ cpp_utils (map list_dataset ls) w = Ok b ->
  (0 <= i < Z.of_nat (__len__ b))%Z ->
  exists k c l,
    nth_error (blend_dataset_index b) (Z.to_nat i) = Some k /\
    nth_error (blend_sample_index b) (Z.to_nat i) = Some c /\
    nth_error ls k = Some l /\
    (l = [] -> __getitem__ b i = Raise IndexError) /\
    (l <> [] -> exists x, __getitem__ b i = Ok x /\
                          nth_error l (c mod length l) = Some x).
Proof.
  intros Hc H Hi. rewrite (init_conforms _ w Hc) in H.
  destruct (@getitem_in_range _ w b i H Hi) as (k & d & Ek & Ec & Ed & Eg).
  rewrite nth_error_map in Ed.
  destruct (nth_error ls k) as [l|] eqn:El; [|discriminate].
  injection Ed as <-.
  exists k, (allocated (blend_dataset_index b) (Z.to_nat i) k), l.
  split; [exact Ek|]. split; [exact Ec|]. split; [exact El|].
  rewrite Eg. simpl. split.
  - intros ->. reflexivity.
  - intros Hne.
    assert (Hlen : 0 < length l) by (destruct l; simpl; [congruence | lia]).
    rewrite Nat.max_l by lia.
    set (c := allocated (blend_dataset_index b) (Z.to_nat i) k).
    assert (Hm : c mod length l < length l) by (apply Nat.mod_upper_bound; lia).
    rewrite getitem_nonneg by lia. rewrite Nat2Z.id.
    destruct (lookup_lt l Hm) as (x & -> & Ex). eauto.
Qed.

End View.

Lemma positions_distinct_witness :
  exists b : DatasetBlender nat,
    __init__ None [list_dataset [1; 2]; list_dataset [3; 4; 5]]
             (@None (list float)) = Ok b /\
    (nth_error (blend_dataset_index b) 0, nth_error (blend_sample_index b) 0)
    <> (nth_error (blend_dataset_index b) 2, nth_error (blend_sample_index b) 2).
Proof.
  destruct (__init__ None [list_dataset [1; 2]; list_dataset [3; 4; 5]]
                     (@None (list float))) as [b|e] eqn:E;
    [|vm_compute in E; discriminate].
  exists b. split; [reflexivity|].
  destruct (@positions_distinct float float_Num nat None _ _ b 0 2
              (fun _ _ _ _ _ => eq_refl) E)
    as (ki & ci & kj & cj & -> & -> & -> & -> & Hne & _).
  - lia.
  - vm_compute in E. injection E as <-. simpl. lia.
  - congruence.
Defined.

Lemma single_source_identity_witness :
  exists b : DatasetBlender nat,
    __init__ None [list_dataset [7; 8; 9]] (Some [3%float]) = Ok b /\
    __getitem__ b 2 = Ok 9.
Proof.
  destruct (__init__ None [list_dataset [7; 8; 9]] (Some [3%float]))
    as [b|e] eqn:E; [|vm_compute in E; discriminate].
  exists b. split; [reflexivity|].
  destruct (@single_source_identity float float_Num nat None _ _ b
              (fun _ _ _ _ _ => eq_refl) E) as [_ H].
  rewrite H by (simpl; lia). reflexivity.
Defined.

(** Absent weights over an empty list followed by a list of two: position
    1 goes to the empty list, and reading it raises. *)
Lemma list_source_access_witness :
  exists b : DatasetBlender nat,
    __init__ None (map list_dataset [[]; [3; 4]]) (@None (list float)) = Ok b /\
    __getitem__ b 0 = Ok 3 /\
    __getitem__ b 1 = Raise IndexError.
Proof.
  destruct (__init__ None (map list_dataset [[]; [3; 4]]) (@None (list float)))
    as [b|e] eqn:E; [|vm_compute in E; discriminate].
  exists b. split; [reflexivity|].
  assert (Hlen : __len__ b = 2) by (vm_compute in E; now injection E as <-).
  split.
  - destruct (@list_source_access float float_Num nat None _ _ b 0%Z
                (fun _ _ _ _ _ => eq_refl) E)
      as (k & c & l & Ek & Ec & El & _ & Hfull); [rewrite Hlen; simpl; lia|].
    vm_compute in E. injection E as <-. simpl in Ek, Ec.
    injection Ek as <-. injection Ec as <-. simpl in El. injection El as <-.
    destruct Hfull as (x & -> & Ex); [discriminate|].
    simpl in Ex. congruence.
  - destruct (@list_source_access float float_Num nat None _ _ b 1%Z
                (fun _ _ _ _ _ => eq_refl) E)
      as (k & c & l & Ek & Ec & El & Hempty & _); [rewrite Hlen; simpl; lia|].
    apply Hempty.
    vm_compute in E. injection E as <-. simpl in Ek.
    injection Ek as <-. simpl in El. congruence.
Defined.
